(** * Interface analysis of a predicted complex: [pdb_analyser.py]

    A shallow embedding of [alphapulldown/analysis_pipeline/pdb_analyser.py]
    (class [PDBAnalyser]) and the properties of its interface detector, its
    confidence/error aggregators, its two adapters and its orchestrator.

    Conventions of the embedding.
    - Python floats are idealised as rationals ([Q]); results are compared
      with [==].  The one irrational operation of the source, [np.sqrt], is
      kept symbolic (see [Sqrt]) and related to the real square root.
    - Where rounding decides the outcome, at the cutoff of the interface
      detector, the arithmetic is embedded a second time in binary64
      (module [Float64]), operation by operation as numpy performs it.
    - Array indices are the non-negative positions produced by [np.where],
      hence [nat].
    - A Python call that may raise returns a [result]; the exception classes
      are those the source can raise. *)

From Stdlib Require Import String Ascii List Bool Arith ZArith QArith Lia.
From Stdlib Require Import Qreals Reals Lra DecimalString DecimalNat Sorted.
From Stdlib Require Floats Uint63.
Import ListNotations.

Local Open Scope string_scope.
Local Open Scope list_scope.

Set Implicit Arguments.

(** ** Python exceptions and the error monad *)

Inductive exn : Set :=
| ZeroDivisionError
| IndexError
| KeyError
| ValueError
| TypeError
| AttributeError
| UnboundLocalError
| SystemExit.

Inductive result (A : Type) : Type :=
| Ok (a : A)
| Raise (e : exn).

Arguments Ok {A} a.
Arguments Raise {A} e.

Definition bind {A B : Type} (m : result A) (k : A -> result B) : result B :=
  match m with
  | Ok a => k a
  | Raise e => Raise e
  end.

Notation "x <- m ;; k" := (bind m (fun x => k))
  (at level 61, m at next level, right associativity).

Definition raises {A : Type} (m : result A) : Prop :=
  exists e, m = Raise e.

(** ** Sequences: subscripting and true division *)

(** [seq[i]] on a Python list or a one-dimensional array. *)
Definition subscript {A : Type} (seq : list A) (i : nat) : result A :=
  match nth_error seq i with
  | Some v => Ok v
  | None => Raise IndexError
  end.

(** A two-dimensional array as its list of rows; [mtx[i, j]]. *)
Definition ndarray2 : Type := list (list Q).

Definition subscript2 (mtx : ndarray2) (i j : nat) : result Q :=
  row <- subscript mtx i ;; subscript row j.

(** [total / n] where [n] is a Python [int].  In both aggregators a zero
    denominator is only reached with the accumulator still the integer [0],
    so the division is the integer one and raises. *)
Definition true_div (total : Q) (n : nat) : result Q :=
  match n with
  | O => Raise ZeroDivisionError
  | S _ => Ok (total / inject_Z (Z.of_nat n))
  end.

Definition Qsum (l : list Q) : Q := fold_right Qplus 0 l.

(** ** Iteration order of [set(...)]

    [calculate_average_plddt] iterates over [set(chain_1_residues)] and
    [set(chain_2_residues)].  The order in which a CPython set yields its
    elements is an implementation detail; the embedding only assumes what
    the language guarantees: every element once. *)

Class SetIteration : Type := {
  set_iter : list nat -> list nat;
  set_iter_NoDup : forall l, NoDup (set_iter l);
  set_iter_In : forall l x, In x (set_iter l) <-> In x l
}.

(** The order observed for small non-negative integers: ascending. *)
Fixpoint insert_unique (x : nat) (l : list nat) : list nat :=
  match l with
  | [] => [x]
  | y :: l' =>
      match Nat.compare x y with
      | Lt => x :: l
      | Eq => l
      | Gt => y :: insert_unique x l'
      end
  end.

Definition ascending_set (l : list nat) : list nat :=
  fold_right insert_unique [] l.

(** ** 4.3 Confidence/error aggregator *)

Section Aggregator.

(** The body of the loop of [calculate_average_pae], lines 100-102. *)
Fixpoint pae_loop (pae_mtx : ndarray2) (pairs : list (nat * nat))
         (pae_sum : Q) : result Q :=
  match pairs with
  | [] => Ok pae_sum
  | (i, j) :: rest =>
      a <- subscript2 pae_mtx i j ;;
      b <- subscript2 pae_mtx j i ;;
      pae_loop pae_mtx rest (pae_sum + a + b)
  end.

Definition calculate_average_pae (pae_mtx : ndarray2)
           (chain_1_residues chain_2_residues : list nat) : result Q :=
  let total_num := length chain_1_residues in
  pae_sum <- pae_loop pae_mtx (combine chain_1_residues chain_2_residues) 0 ;;
  true_div pae_sum (2 * total_num).

(** The body of the loop of [calculate_average_plddt], lines 122-124. *)
Fixpoint plddt_loop (chain_1_plddt chain_2_plddt : list Q)
         (pairs : list (nat * nat)) (plddt_sum : Q) : result Q :=
  match pairs with
  | [] => Ok plddt_sum
  | (i, j) :: rest =>
      a <- subscript chain_1_plddt i ;;
      b <- subscript chain_2_plddt j ;;
      plddt_loop chain_1_plddt chain_2_plddt rest (plddt_sum + a + b)
  end.

Context {SI : SetIteration}.

Definition calculate_average_plddt (chain_1_plddt chain_2_plddt : list Q)
           (chain_1_residues chain_2_residues : list nat) : result Q :=
  let total_num :=
    (length (set_iter chain_1_residues) + length (set_iter chain_2_residues))%nat in
  plddt_sum <- plddt_loop chain_1_plddt chain_2_plddt
                 (combine (set_iter chain_1_residues) (set_iter chain_2_residues)) 0 ;;
  true_div plddt_sum total_num.

End Aggregator.

(** ** 3. The coordinate table

    One record per row of [self.pdb_df] (the ['ATOM'] table read from the
    structure file), with the columns the analyser consults. *)

Record atom : Type := {
  chain_id : string;
  residue_number : Z;
  residue_name : string;
  atom_name : string;
  x_coord : Q;
  y_coord : Q;
  z_coord : Q
}.

Definition coords : Type := (Q * Q * Q)%type.

(** ** 4.2 Interface residue detector *)

(** Line 65-66: the boolean mask selecting representative atoms. *)
Definition C_beta_mask (a : atom) : bool :=
  (atom_name a =? "CB")%string
  || ((residue_name a =? "GLY")%string && (atom_name a =? "CA")%string).

(** [chain_df[mask]] *)
Definition representative_atoms (chain_df : list atom) : list atom :=
  filter C_beta_mask chain_df.

Definition retrieve_C_beta_coords (chain_df : list atom) : list coords :=
  map (fun a => (x_coord a, y_coord a, z_coord a)) (representative_atoms chain_df).

(** The value [np.sqrt r] for a rational [r], kept symbolic. *)
Inductive sqrtQ : Type := Sqrt (radicand : Q).

Definition Qlt_bool (a b : Q) : bool := negb (Qle_bool b a).

(** [np.sqrt r < cutoff]: a square root is non-negative, so the comparison
    holds exactly when the cutoff is positive and [r] is below its square
    (see [sqrt_ltb_spec]). *)
Definition sqrt_ltb (d : sqrtQ) (cutoff : Q) : bool :=
  match d with
  | Sqrt r => Qlt_bool 0 cutoff && Qlt_bool r (cutoff * cutoff)
  end.

(** [np.sum((p - q)**2, axis=-1)] for one pair of coordinate triples. *)
Definition sum_sq_diff (p q : coords) : Q :=
  let '(px, py, pz) := p in
  let '(qx, qy, qz) := q in
  (px - qx) * (px - qx) + (py - qy) * (py - qy) + (pz - qz) * (pz - qz).

(** Lines 74-75: rows follow chain 1, columns follow chain 2. *)
Definition distance_mtx (chain_1_CB_coords chain_2_CB_coords : list coords)
  : list (list sqrtQ) :=
  map (fun p => map (fun q => Sqrt (sum_sq_diff p q)) chain_2_CB_coords)
      chain_1_CB_coords.

(** [np.where] on a two-dimensional boolean array: the positions of the
    true entries, scanned row by row (C order), as a pair of index arrays. *)
Fixpoint where_row (i j : nat) (row : list bool) : list (nat * nat) :=
  match row with
  | [] => []
  | b :: row' =>
      if b then (i, j) :: where_row i (S j) row' else where_row i (S j) row'
  end.

Fixpoint where_rows (i : nat) (cond : list (list bool)) : list (nat * nat) :=
  match cond with
  | [] => []
  | row :: cond' => where_row i 0 row ++ where_rows (S i) cond'
  end.

Definition np_where (cond : list (list bool)) : list nat * list nat :=
  let hits := where_rows 0 cond in (map fst hits, map snd hits).

Definition obtain_interface_residues (chain_df_1 chain_df_2 : list atom)
           (cutoff : Q) : option (list nat * list nat) :=
  let chain_1_CB_coords := retrieve_C_beta_coords chain_df_1 in
  let chain_2_CB_coords := retrieve_C_beta_coords chain_df_2 in
  let distance_mtx := distance_mtx chain_1_CB_coords chain_2_CB_coords in
  let '(satisfied_residues_chain_1, satisfied_residues_chain_2) :=
    np_where (map (map (fun d => sqrt_ltb d cutoff)) distance_mtx) in
  if (0 <? length satisfied_residues_chain_1)%nat
     && (0 <? length satisfied_residues_chain_2)%nat
  then Some (satisfied_residues_chain_1, satisfied_residues_chain_2)
  else None.

(** ** 4.2 The detector in binary64

    Lines 72-76 as numpy evaluates them on [float64] arrays: every
    subtraction, square, addition and square root is rounded to the nearest
    double, and the comparison with the cutoff is made on the rounded
    distance. *)

Module Float64.

Definition float : Set := PrimFloat.float.

Definition of_Z (z : Z) : float :=
  match z with
  | Z0 => PrimFloat.zero
  | Zpos _ => PrimFloat.of_uint63 (Uint63.of_Z z)
  | Zneg p => PrimFloat.opp (PrimFloat.of_uint63 (Uint63.of_Z (Zpos p)))
  end.

(** The double a coordinate column holds for a decimal of the structure
    file: the nearest one.  Numerator and denominator of such a decimal are
    far below 2^53, so both convert exactly and the rounded quotient is the
    nearest double. *)
Definition of_Q (q : Q) : float :=
  PrimFloat.div (of_Z (Qnum q)) (of_Z (Zpos (Qden q))).

Definition coords : Type := (float * float * float)%type.

(** [subdf[['x_coord', 'y_coord', 'z_coord']].values] *)
Definition retrieve_C_beta_coords (chain_df : list atom) : list coords :=
  map (fun a => (of_Q (x_coord a), of_Q (y_coord a), of_Q (z_coord a)))
      (representative_atoms chain_df).

(** [np.sum((p - q)**2, axis=-1)] for one pair of coordinate triples: the
    three squares are added from left to right. *)
Definition sum_sq_diff (p q : coords) : float :=
  let '(px, py, pz) := p in
  let '(qx, qy, qz) := q in
  let dx := PrimFloat.sub px qx in
  let dy := PrimFloat.sub py qy in
  let dz := PrimFloat.sub pz qz in
  PrimFloat.add (PrimFloat.add (PrimFloat.mul dx dx) (PrimFloat.mul dy dy))
                (PrimFloat.mul dz dz).

Definition distance_mtx (chain_1_CB_coords chain_2_CB_coords : list coords)
  : list (list float) :=
  map (fun p => map (fun q => PrimFloat.sqrt (sum_sq_diff p q)) chain_2_CB_coords)
      chain_1_CB_coords.

Definition obtain_interface_residues (chain_df_1 chain_df_2 : list atom)
           (cutoff : float) : option (list nat * list nat) :=
  let chain_1_CB_coords := retrieve_C_beta_coords chain_df_1 in
  let chain_2_CB_coords := retrieve_C_beta_coords chain_df_2 in
  let distance_mtx := distance_mtx chain_1_CB_coords chain_2_CB_coords in
  let '(satisfied_residues_chain_1, satisfied_residues_chain_2) :=
    np_where (map (map (fun d => PrimFloat.ltb d cutoff)) distance_mtx) in
  if (0 <? length satisfied_residues_chain_1)%nat
     && (0 <? length satisfied_residues_chain_2)%nat
  then Some (satisfied_residues_chain_1, satisfied_residues_chain_2)
  else None.

End Float64.

(** ** Strings *)

(** [s.split(sep)] for a one-character separator. *)
Fixpoint str_split (sep : ascii) (s : string) : list string :=
  match s with
  | EmptyString => [EmptyString]
  | String c rest =>
      if Ascii.eqb c sep then EmptyString :: str_split sep rest
      else match str_split sep rest with
           | [] => [String c EmptyString]
           | w :: ws => String c w :: ws
           end
  end.

Definition underscore : ascii := "_"%char.

(** [f"{a}_{b}"] *)
Definition interface_label (a b : string) : string :=
  (a ++ String underscore b)%string.

Definition str_of_nat (n : nat) : string :=
  NilZero.string_of_uint (Nat.to_uint n).

(** ** Python objects of the sentinel branch *)

(** A table cell: a string, a number, or the missing value. *)
Inductive cell : Type :=
| Str (s : string)
| Num (q : Q)
| NaN.

(** The objects built by the sentinel branch: a cell, a list of cells, a
    dict from labels to lists, a set (whose elements are hashable). *)
Inductive pyobj : Type :=
| PyCell (c : cell)
| PyList (items : list cell)
| PyDict (entries : list (string * list cell))
| PySet (elems : list cell).

(** [d.update({k: v})] on an insertion-ordered dict. *)
Fixpoint dict_update {V : Type} (d : list (string * V)) (k : string) (v : V)
  : list (string * V) :=
  match d with
  | [] => [(k, v)]
  | (k', v') :: d' =>
      if (k' =? k)%string then (k', v) :: d' else (k', v') :: dict_update d' k v
  end.

Fixpoint dict_get {V : Type} (d : list (string * V)) (k : string) : result V :=
  match d with
  | [] => Raise KeyError
  | (k', v) :: d' => if (k' =? k)%string then Ok v else dict_get d' k
  end.

(** Lists, dicts and sets define no hash. *)
Definition hashable (o : pyobj) : bool :=
  match o with
  | PyCell _ => true
  | PyList _ | PyDict _ | PySet _ => false
  end.

(** The set display [{e1, ..., en}] hashes each element. *)
Definition set_display (elts : list pyobj) : result pyobj :=
  if forallb hashable elts
  then Ok (PySet (flat_map (fun o => match o with PyCell c => [c] | _ => [] end) elts))
  else Raise TypeError.

(** ** Data frames

    A frame is its column labels and its rows, each row aligned with the
    labels.  Only the operations the analyser calls are modelled. *)

Record DataFrame : Type := {
  columns : list string;
  rows : list (list cell)
}.

Definition empty_frame : DataFrame := {| columns := []; rows := [] |}.

Definition cell_eqb (a b : cell) : bool :=
  match a, b with
  | Str s, Str t => (s =? t)%string
  | Num p, Num q => Qeq_bool p q
  | NaN, NaN => true
  | _, _ => false
  end.

Fixpoint index_of (c : string) (cols : list string) : option nat :=
  match cols with
  | [] => None
  | c' :: cols' =>
      if (c' =? c)%string then Some O
      else option_map S (index_of c cols')
  end.

Definition has_column (cols : list string) (c : string) : bool :=
  existsb (fun c' => (c' =? c)%string) cols.

Fixpoint set_nth {A : Type} (i : nat) (v : A) (l : list A) : list A :=
  match l, i with
  | [], _ => []
  | _ :: l', O => v :: l'
  | x :: l', S i' => x :: set_nth i' v l'
  end.

Fixpoint remove_nth {A : Type} (i : nat) (l : list A) : list A :=
  match l, i with
  | [], _ => []
  | _ :: l', O => l'
  | x :: l', S i' => x :: remove_nth i' l'
  end.

(** [df.shape[0]] *)
Definition shape0 (df : DataFrame) : nat := length (rows df).

Definition column_values (df : DataFrame) (c : string) : option (list cell) :=
  match index_of c (columns df) with
  | Some i => Some (map (fun r => nth i r NaN) (rows df))
  | None => None
  end.

(** [df[c]] and [df.c] differ in the exception of a missing column. *)
Definition getitem (df : DataFrame) (c : string) : result (list cell) :=
  match column_values df c with
  | Some vs => Ok vs
  | None => Raise KeyError
  end.

Definition getattr (df : DataFrame) (c : string) : result (list cell) :=
  match column_values df c with
  | Some vs => Ok vs
  | None => Raise AttributeError
  end.

(** [df[c] = v] for a scalar [v]: overwrite, or append a new last column. *)
Definition setitem_scalar (df : DataFrame) (c : string) (v : cell) : DataFrame :=
  match index_of c (columns df) with
  | Some i => {| columns := columns df; rows := map (set_nth i v) (rows df) |}
  | None => {| columns := columns df ++ [c];
               rows := map (fun r => r ++ [v]) (rows df) |}
  end.

Definition assign_values (df : DataFrame) (c : string) (vs : list cell) : DataFrame :=
  match index_of c (columns df) with
  | Some i => {| columns := columns df;
                 rows := map (fun rv => set_nth i (snd rv) (fst rv))
                             (combine (rows df) vs) |}
  | None => {| columns := columns df ++ [c];
               rows := map (fun rv => fst rv ++ [snd rv]) (combine (rows df) vs) |}
  end.

(** [df[c] = vs] for a list: a frame without rows takes its index from the
    values (the other columns are filled with the missing value); otherwise
    the lengths must agree. *)
Definition setitem_list (df : DataFrame) (c : string) (vs : list cell)
  : result DataFrame :=
  match rows df with
  | [] =>
      Ok (assign_values
            {| columns := columns df;
               rows := map (fun _ => map (fun _ => NaN) (columns df)) vs |}
            c vs)
  | _ :: _ =>
      if (length vs =? length (rows df))%nat then Ok (assign_values df c vs)
      else Raise ValueError
  end.

(** [df[mask]] for a boolean mask aligned with the rows. *)
Definition select_rows (df : DataFrame) (mask : list bool) : DataFrame :=
  {| columns := columns df;
     rows := map fst (filter snd (combine (rows df) mask)) |}.

Definition reindex (from to : list string) (r : list cell) : list cell :=
  map (fun c => match index_of c from with
                | Some i => nth i r NaN
                | None => NaN
                end) to.

(** [pd.concat([a, b])]: rows of [a] then rows of [b]; when the column
    labels differ the columns are united and the gaps filled. *)
Definition concat (a b : DataFrame) : DataFrame :=
  if list_eq_dec string_dec (columns a) (columns b)
  then {| columns := columns a; rows := rows a ++ rows b |}
  else
    let cols := columns a
                ++ filter (fun c => negb (has_column (columns a) c)) (columns b) in
    {| columns := cols;
       rows := map (reindex (columns a) cols) (rows a)
               ++ map (reindex (columns b) cols) (rows b) |}.

Inductive join : Set := Inner | Left.

Definition suffixed (key : string) (other : list string) (sfx : string)
           (c : string) : string :=
  if negb (c =? key)%string && has_column other c then (c ++ sfx)%string else c.

(** [pd.merge(left, right, how=..., on=key)]: left rows in order, each
    followed through its matches in [right]; an unmatched left row is kept
    by a left join only.  Labels present on both sides get [_x] and [_y]. *)
Definition merge (how : join) (left right : DataFrame) (key : string)
  : result DataFrame :=
  match index_of key (columns left), index_of key (columns right) with
  | Some il, Some ir =>
      let lcols := map (suffixed key (columns right) "_x") (columns left) in
      let rcols := map (suffixed key (columns left) "_y")
                       (remove_nth ir (columns right)) in
      let joined (l : list cell) :=
        let matches :=
          filter (fun r => cell_eqb (nth il l NaN) (nth ir r NaN)) (rows right) in
        match matches, how with
        | [], Left => [l ++ map (fun _ => NaN) rcols]
        | _, _ => map (fun r => l ++ remove_nth ir r) matches
        end in
      Ok {| columns := lcols ++ rcols; rows := flat_map joined (rows left) |}
  | _, _ => Raise KeyError
  end.

(** The positions of [l] that [keep] marks. *)
Definition prune_with {A : Type} (keep : list bool) (l : list A) : list A :=
  map fst (filter snd (combine l keep)).

(** [df.drop(columns=cs)]: every label must exist. *)
Definition drop (df : DataFrame) (cs : list string) : result DataFrame :=
  if forallb (has_column (columns df)) cs then
    let keep := map (fun c => negb (has_column cs c)) (columns df) in
    Ok {| columns := prune_with keep (columns df);
          rows := map (prune_with keep) (rows df) |}
  else Raise KeyError.

Fixpoint transpose (n : nat) (cols : list (list cell)) : list (list cell) :=
  match n with
  | O => []
  | S n' => map (hd NaN) cols :: transpose n' (map (@tl cell) cols)
  end.

(** [pd.DataFrame.from_dict(data)] with a dict of equally long lists. *)
Definition DataFrame_from_dict (data : pyobj) : result DataFrame :=
  match data with
  | PyDict entries =>
      let css := map snd entries in
      let n := length (hd [] css) in
      if forallb (fun cs => (length cs =? n)%nat) css
      then Ok {| columns := map fst entries; rows := transpose n css |}
      else Raise ValueError
  | _ => Raise TypeError
  end.

(** ** The analyser object *)

(** A chain of the parsed model ([self.pdb[chain_id]]): its atom records. *)
Definition structure : Type := list atom.

(** [self.chain_combinations] is a dict of labelled pairs, or, for fewer
    than two chains, the bare array of chain identifiers. *)
Inductive combinations_attr : Type :=
| ChainPairs (d : list (string * (string * string)))
| ChainIds (ids : list string).

Record PDBAnalyser : Type := {
  pdb_df : list atom;
  pdb : list (string * structure);
  chain_combinations : combinations_attr
}.

(** ** 4.1 Chain-pair enumerator *)

(** [pd.unique]: first occurrences, in order of appearance. *)
Fixpoint pd_unique (ids : list string) : list string :=
  match ids with
  | [] => []
  | c :: ids' =>
      c :: filter (fun c' => negb (c' =? c)%string) (pd_unique ids')
  end.

(** [itertools.combinations(ids, 2)] *)
Fixpoint combinations2 (ids : list string) : list (string * string) :=
  match ids with
  | [] => []
  | c :: ids' => map (pair c) ids' ++ combinations2 ids'
  end.

Fixpoint enumerate {A : Type} (idx : nat) (l : list A) : list (nat * A) :=
  match l with
  | [] => []
  | x :: l' => (idx, x) :: enumerate (S idx) l'
  end.

Definition get_all_combinations_of_chains (pdb_df : list atom)
  : combinations_attr :=
  let unique_chain_ids := pd_unique (map chain_id pdb_df) in
  if (1 <? length unique_chain_ids)%nat then
    ChainPairs
      (fold_left
         (fun d ic => dict_update d ("interface_" ++ str_of_nat (fst ic + 1))
                                  (snd ic))
         (enumerate 0 (combinations2 unique_chain_ids)) [])
  else ChainIds unique_chain_ids.

(** [__init__], given what the two parsers read from the structure file. *)
Definition PDBAnalyser_init (atom_table : list atom)
           (model : list (string * structure)) : PDBAnalyser :=
  {| pdb_df := atom_table;
     pdb := model;
     chain_combinations := get_all_combinations_of_chains atom_table |}.

(** ** 4.4 Binding energy adapter *)

(** [Bio.PDB.PDBIO]: the writer holds one structure, the last one set. *)
Record PDBIO : Type := { io_structure : option structure }.

Definition PDBIO_new : PDBIO := {| io_structure := None |}.

Definition set_structure (pdbio : PDBIO) (s : structure) : PDBIO :=
  {| io_structure := Some s |}.

(** [pdbio.save(path)]: the records written to the file. *)
Definition save (pdbio : PDBIO) : result structure :=
  match io_structure pdbio with
  | Some s => Ok s
  | None => Raise AttributeError
  end.

(** [pose_from_pdb(path)]: the pose holds what the file holds. *)
Definition pose_from_pdb (file : structure) : structure := file.

Section BindingEnergy.

(** The energy oracle [get_score_function(True)]. *)
Variable sfxn : structure -> Q.

(** Lines 130-146: the three poses, in the order complex, chain 1, chain 2. *)
Definition binding_energy_poses (self : PDBAnalyser)
           (chain_1_id chain_2_id : string)
  : result (structure * structure * structure) :=
  chain_1_structure <- dict_get (pdb self) chain_1_id ;;
  chain_2_structure <- dict_get (pdb self) chain_2_id ;;
  let pdbio := PDBIO_new in
  let pdbio := set_structure pdbio chain_1_structure in
  let pdbio := set_structure pdbio chain_2_structure in
  temp <- save pdbio ;;
  let complex_pose := pose_from_pdb temp in
  let pdbio := PDBIO_new in
  let pdbio := set_structure pdbio chain_1_structure in
  temp1 <- save pdbio ;;
  let chain_1_pose := pose_from_pdb temp1 in
  let pdbio := PDBIO_new in
  let pdbio := set_structure pdbio chain_2_structure in
  temp2 <- save pdbio ;;
  let chain_2_pose := pose_from_pdb temp2 in
  Ok (complex_pose, chain_1_pose, chain_2_pose).

Definition calculate_binding_energy (self : PDBAnalyser)
           (chain_1_id chain_2_id : string) : result Q :=
  poses <- binding_energy_poses self chain_1_id chain_2_id ;;
  let '(complex_pose, chain_1_pose, chain_2_pose) := poses in
  let complex_energy := sfxn complex_pose in
  let chain_1_energy := sfxn chain_1_pose in
  let chain_2_energy := sfxn chain_2_pose in
  Ok (complex_energy - chain_1_energy - chain_2_energy).

End BindingEnergy.

(** ** 4.5 Interface quality adapter *)

(** The score file: only comment lines, or a table. *)
Inductive score_file : Type :=
| CommentLinesOnly
| ScoreTable (t : DataFrame).

(** What the subprocess left in [work_dir]:
    - nothing, not even the directory ([os.listdir] raises);
    - a directory without a readable feature table ([csv_files[0]] or
      [pd.read_csv] raises), with or without a score file;
    - a feature table, with or without a score file. *)
Inductive work_dir_state : Type :=
| NoDirectory
| NoFeatureTable (pi_score_file : option score_file)
| FeatureTable (features : DataFrame) (pi_score_file : option score_file).

(** A local variable that may not have been assigned. *)
Inductive binding (A : Type) : Type :=
| Unbound
| Bound (a : A).

Arguments Unbound {A}.
Arguments Bound {A} a.

Definition sentinel_keys : list string :=
  str_split ","%char
    "pdb,chains,Num_intf_residues,Polar,Hydrophobhic,Charged,contact_pairs,contact_pairs, sc, hb, sb, int_solv_en, int_area, pvalue,pi_score".

(** Lines 166-174, the [except] branch. *)
Definition sentinel_record (interface_name : string) : result DataFrame :=
  let filtered_df :=
    fold_left (fun d k => dict_update d k [Str "None"]) sentinel_keys [] in
  arg <- set_display [PyDict filtered_df] ;;
  filtered_df <- DataFrame_from_dict arg ;;
  Ok (setitem_scalar filtered_df "interface" (Str interface_name)).

(** One round of the mirroring loop (lines 181-184, 187-190, 207-210). *)
Definition mirror_step (filtered_df : DataFrame) (interface : cell)
  : result DataFrame :=
  match interface with
  | Str label =>
      match str_split underscore label with
      | [chain_1; chain_2] =>
          mask <- getitem filtered_df "interface" ;;
          let subdf :=
            select_rows filtered_df (map (fun c => cell_eqb c interface) mask) in
          let subdf :=
            setitem_scalar subdf "interface" (Str (interface_label chain_2 chain_1)) in
          Ok (concat filtered_df subdf)
      | _ => Raise ValueError
      end
  | _ => Raise AttributeError
  end.

(** The loop over the labels read before the first round; the frame it had
    reached is kept when a round raises. *)
Fixpoint mirror_loop (filtered_df : DataFrame) (labels : list cell)
  : DataFrame * option exn :=
  match labels with
  | [] => (filtered_df, None)
  | interface :: rest =>
      match mirror_step filtered_df interface with
      | Ok df => mirror_loop df rest
      | Raise e => (filtered_df, Some e)
      end
  end.

Definition mirror_interfaces (filtered_df : DataFrame)
  : DataFrame * option exn :=
  match getattr filtered_df "interface" with
  | Ok labels => mirror_loop filtered_df labels
  | Raise e => (filtered_df, Some e)
  end.

(** A loop outside any [try]: its exception propagates. *)
Definition propagate {A : Type} (r : A * option exn) : result A :=
  match r with
  | (a, None) => Ok a
  | (_, Some e) => Raise e
  end.

Definition bookkeeping_columns : list string :=
  ["#PDB"; "pdb"; " pvalue"; "chains"; "predicted_class"]%string.

Definition lookup {A : Type} (v : binding A) : result A :=
  match v with
  | Bound a => Ok a
  | Unbound => Raise UnboundLocalError
  end.

(** Lines 186-201: mirror the feature table, read the score table, join. *)
Definition merge_feature_and_score_tables (filtered_df : DataFrame)
           (pi_score_files : binding (option score_file)) : result DataFrame :=
  filtered_df <- propagate (mirror_interfaces filtered_df) ;;
  files <- lookup pi_score_files ;;
  pi_score <-
    match files with
    | None => Raise IndexError
    | Some CommentLinesOnly =>
        DataFrame_from_dict (PyDict [("pi_score", [Str "SC:  mds: too many atoms"])])
    | Some (ScoreTable t) => Ok t
    end ;;
  chains <- getitem pi_score "chains" ;;
  pi_score <- setitem_list pi_score "interface" chains ;;
  merge Inner filtered_df pi_score "interface".

Definition run_and_summarise_pi_score (work_dir : work_dir_state)
           (interface_name : string) : result DataFrame :=
  tried <-
    match work_dir with
    | FeatureTable features files => Ok (features, Bound files)
    | NoFeatureTable files =>
        filtered_df <- sentinel_record interface_name ;;
        Ok (filtered_df, Bound files)
    | NoDirectory =>
        filtered_df <- sentinel_record interface_name ;;
        Ok (filtered_df, Unbound)
    end ;;
  let '(filtered_df, pi_score_files) := tried in
  if (shape0 filtered_df =? 0)%nat then
    filtered_df <-
      fold_left (fun acc column => df <- acc ;; setitem_list df column [Str "None"])
                (columns filtered_df) (Ok filtered_df) ;;
    let filtered_df :=
      setitem_scalar filtered_df "pi_score" (Str "No interface detected") in
    propagate (mirror_interfaces filtered_df)
  else
    filtered_df <- merge_feature_and_score_tables filtered_df pi_score_files ;;
    match drop filtered_df bookkeeping_columns with
    | Ok dropped => Ok (fst (mirror_interfaces dropped))
    | Raise _ => Ok filtered_df
    end.

(** ** 4.6 Orchestrator *)

Section Orchestrator.

Context {SI : SetIteration}.

(** The energy oracle. *)
Variable sfxn : structure -> Q.

(** What the [n]-th run of the external scoring tool leaves behind. *)
Variable piscore_tool : nat -> work_dir_state.

Definition calculate_pi_score (run : nat) (interface : string)
  : result DataFrame :=
  let pi_score_output_dir := piscore_tool run in
  run_and_summarise_pi_score pi_score_output_dir interface.

Definition no_interface_residues : cell :=
  Str "No interface residues detected".

(** Lines 251-261. *)
Definition interface_measurements (self : PDBAnalyser) (pae_mtx : ndarray2)
           (chain_1_id chain_2_id : string)
           (chain_1_plddt chain_2_plddt : list Q)
           (interface_residues : option (list nat * list nat))
  : result (cell * cell * cell) :=
  match interface_residues with
  | Some (residues_1, residues_2) =>
      average_interface_pae <-
        calculate_average_pae pae_mtx residues_1 residues_2 ;;
      binding_energy <- calculate_binding_energy sfxn self chain_1_id chain_2_id ;;
      average_interface_plddt <-
        calculate_average_plddt chain_1_plddt chain_2_plddt residues_1 residues_2 ;;
      Ok (Num average_interface_pae, Num average_interface_plddt, Num binding_energy)
  | None => Ok (no_interface_residues, no_interface_residues, Str "None")
  end.

(** The variables that live across the rounds of the loop of [__call__]. *)
Record loop_state : Type := {
  output_df : DataFrame;
  pi_score_df : binding DataFrame;
  tool_runs : nat
}.

(** Lines 243-268, one chain pair. *)
Definition pair_step (self : PDBAnalyser) (pae_mtx : ndarray2)
           (plddt : list (string * list Q)) (cutoff : Q)
           (st : loop_state) (kv : string * (string * string))
  : result loop_state :=
  let '(chain_1_id, chain_2_id) := snd kv in
  let chain_1_df :=
    filter (fun a => (chain_id a =? chain_1_id)%string) (pdb_df self) in
  let chain_2_df :=
    filter (fun a => (chain_id a =? chain_2_id)%string) (pdb_df self) in
  pi_score <- calculate_pi_score (tool_runs st)
                (interface_label chain_1_id chain_2_id) ;;
  chain_1_plddt <- dict_get plddt chain_1_id ;;
  chain_2_plddt <- dict_get plddt chain_2_id ;;
  let interface_residues :=
    obtain_interface_residues chain_1_df chain_2_df cutoff in
  measured <- interface_measurements self pae_mtx chain_1_id chain_2_id
                chain_1_plddt chain_2_plddt interface_residues ;;
  let '(average_interface_pae, average_interface_plddt, binding_energy) :=
    measured in
  other_measurements_df <-
    DataFrame_from_dict
      (PyDict [("average_interface_pae", [average_interface_pae]);
               ("average_interface_plddt", [average_interface_plddt]);
               ("binding_energy", [binding_energy]);
               ("interface", [Str (interface_label chain_1_id chain_2_id)])]) ;;
  Ok {| output_df := concat (output_df st) other_measurements_df;
        pi_score_df := Bound pi_score;
        tool_runs := S (tool_runs st) |}.

Definition pair_loop (self : PDBAnalyser) (pae_mtx : ndarray2)
           (plddt : list (string * list Q)) (cutoff : Q)
           (pairs : list (string * (string * string))) (st : loop_state)
  : result loop_state :=
  fold_left (fun acc kv => st <- acc ;; pair_step self pae_mtx plddt cutoff st kv)
            pairs (Ok st).

Definition __call__ (self : PDBAnalyser) (pae_mtx : ndarray2)
           (plddt : list (string * list Q)) (cutoff : Q) : result DataFrame :=
  match chain_combinations self with
  | ChainIds _ => Raise SystemExit
  | ChainPairs d =>
      st <- pair_loop self pae_mtx plddt cutoff d
              {| output_df := empty_frame; pi_score_df := Unbound; tool_runs := 0 |} ;;
      pi_score_df <- lookup (pi_score_df st) ;;
      merge Left (output_df st) pi_score_df "interface"
  end.

End Orchestrator.

(** * Vocabulary of the statements *)

(** [M[i][j]], with [0] outside the array. *)
Definition entry (M : ndarray2) (i j : nat) : Q := nth j (nth i M []) 0.

Definition in_range (M : ndarray2) (i j : nat) : Prop :=
  (i < length M)%nat /\ (j < length (nth i M []))%nat.

(** The sum the error aggregator is to accumulate over a list of pairs. *)
Definition both_triangles (M : ndarray2) (P : list (nat * nat)) : Q :=
  Qsum (map (fun p => entry M (fst p) (snd p) + entry M (snd p) (fst p)) P).

Definition Qnat (n : nat) : Q := inject_Z (Z.of_nat n).

(** The sum of a confidence array over the unique indices of one side. *)
Definition unique_sum {SI : SetIteration} (confidence : list Q)
           (residues : list nat) : Q :=
  Qsum (map (fun i => nth i confidence 0) (set_iter residues)).

Definition unique_count {SI : SetIteration} (residues : list nat) : nat :=
  length (set_iter residues).

Definition lower_bound (x : nat) (l : list nat) : Prop :=
  Forall (fun y => (x < y)%nat) l.

Inductive strictly_ascending : list nat -> Prop :=
| asc_nil : strictly_ascending []
| asc_cons x l : lower_bound x l -> strictly_ascending l ->
                 strictly_ascending (x :: l).

(** The Euclidean distance of two coordinate triples, a real number. *)
Definition euclidean_distance (p q : coords) : R :=
  sqrt (Q2R (sum_sq_diff p q)).

(** Representatives [i] of chain 1 and [j] of chain 2 exist and lie
    strictly closer than the cutoff. *)
Definition within_cutoff (cb1 cb2 : list coords) (cutoff : Q) (i j : nat)
  : Prop :=
  exists p q,
    nth_error cb1 i = Some p /\ nth_error cb2 j = Some q /\
    (euclidean_distance p q < Q2R cutoff)%R.

(** The representative atoms of a chain in the words of the specification:
    going through the chain, the beta-carbon of a residue, or the
    alpha-carbon when the residue is a glycine. *)
Fixpoint beta_carbons (chain : list atom) : list atom :=
  match chain with
  | [] => []
  | a :: rest =>
      if string_dec (atom_name a) "CB" then a :: beta_carbons rest
      else if string_dec (residue_name a) "GLY" then
             if string_dec (atom_name a) "CA" then a :: beta_carbons rest
             else beta_carbons rest
           else beta_carbons rest
  end.

(** The Euclidean distance of two atoms, over the real numbers. *)
Definition real_distance (a b : atom) : R :=
  sqrt (Rsqr (Q2R (x_coord a) - Q2R (x_coord b))
        + Rsqr (Q2R (y_coord a) - Q2R (y_coord b))
        + Rsqr (Q2R (z_coord a) - Q2R (z_coord b)))%R.

(** The [i]-th representative of chain 1 and the [j]-th representative of
    chain 2 exist and lie strictly closer than the cutoff. *)
Definition closer_than (cutoff : Q) (chain_1 chain_2 : list atom) (i j : nat)
  : Prop :=
  exists a b,
    nth_error (beta_carbons chain_1) i = Some a
    /\ nth_error (beta_carbons chain_2) j = Some b
    /\ (real_distance a b < Q2R cutoff)%R.

(** The distance of two atoms as binary64 arithmetic yields it: the rounded
    square root of the rounded sum of the rounded squares of the rounded
    coordinate differences. *)
Definition computed_distance (a b : atom) : Float64.float :=
  let dx := PrimFloat.sub (Float64.of_Q (x_coord a)) (Float64.of_Q (x_coord b)) in
  let dy := PrimFloat.sub (Float64.of_Q (y_coord a)) (Float64.of_Q (y_coord b)) in
  let dz := PrimFloat.sub (Float64.of_Q (z_coord a)) (Float64.of_Q (z_coord b)) in
  PrimFloat.sqrt
    (PrimFloat.add (PrimFloat.add (PrimFloat.mul dx dx) (PrimFloat.mul dy dy))
                   (PrimFloat.mul dz dz)).

(** The number a finite double stands for: sign, mantissa and exponent. *)
Definition exact_value (f : Float64.float) : option Q :=
  match FloatOps.Prim2SF f with
  | SpecFloat.S754_zero _ => Some 0
  | SpecFloat.S754_finite s m e =>
      Some ((if s then - (1) else 1) * inject_Z (Zpos m) * Qpower 2 e)
  | _ => None
  end.

(** The double [f] stands for the number [q], without rounding. *)
Definition holds_exactly (f : Float64.float) (q : Q) : Prop :=
  match exact_value f with
  | Some v => v == q
  | None => False
  end.

(** The same with the computed distance comparing below the cutoff. *)
Definition computed_closer_than (cutoff : Float64.float)
           (chain_1 chain_2 : list atom) (i j : nat) : Prop :=
  exists a b,
    nth_error (beta_carbons chain_1) i = Some a
    /\ nth_error (beta_carbons chain_2) j = Some b
    /\ PrimFloat.ltb (computed_distance a b) cutoff = true.

(** Lexicographic order on index pairs. *)
Definition lex_lt (p q : nat * nat) : Prop :=
  (fst p < fst q)%nat \/ (fst p = fst q /\ (snd p < snd q)%nat).

(** The hits of the detector before [np.where] splits them in two arrays. *)
Definition interface_hits (chain_df_1 chain_df_2 : list atom) (cutoff : Q)
  : list (nat * nat) :=
  where_rows 0
    (map (map (fun d => sqrt_ltb d cutoff))
         (distance_mtx (retrieve_C_beta_coords chain_df_1)
                       (retrieve_C_beta_coords chain_df_2))).

(** A record of the coordinate table, for the examples. *)
Definition atom_at (c : string) (n : Z) (rn an : string) (x y z : Q) : atom :=
  {| chain_id := c; residue_number := n; residue_name := rn; atom_name := an;
     x_coord := x; y_coord := y; z_coord := z |}.

(** A record that the mask of [retrieve_C_beta_coords] selects. *)
Definition is_representative (a : atom) : Prop :=
  atom_name a = "CB" \/ (residue_name a = "GLY" /\ atom_name a = "CA").

(** Two records of one chain that do not clash: if they belong to the same
    residue they agree on its name, are different atoms of it, and a glycine
    has no beta-carbon. *)
Definition compatible_records (a b : atom) : Prop :=
  residue_number a = residue_number b ->
  residue_name a = residue_name b
  /\ atom_name a <> atom_name b
  /\ (residue_name a = "GLY" -> atom_name a <> "CB" /\ atom_name b <> "CB").

(** A chain table in which every residue lists each of its atoms once. *)
Definition one_record_per_atom (chain_df : list atom) : Prop :=
  ForallOrdPairs compatible_records chain_df.

(** The row that mirrors [r]: the label ["A_B"] in column [i] replaced by
    ["B_A"], every other cell kept. *)
Definition mirror_row (i : nat) (r : list cell) : option (list cell) :=
  match nth i r NaN with
  | Str label =>
      match str_split underscore label with
      | [chain_1; chain_2] =>
          Some (set_nth i (Str (interface_label chain_2 chain_1)) r)
      | _ => None
      end
  | _ => None
  end.

(** Row [r] has its mirror among [table]. *)
Definition has_mirror (i : nat) (table : list (list cell)) (r : list cell)
  : Prop :=
  exists r', mirror_row i r = Some r' /\ In r' table.

(** Every row of the frame is labelled ["A_B"] and the frame also holds the
    row labelled ["B_A"] with the same values in the other columns. *)
Definition mirrored (df : DataFrame) : Prop :=
  exists i, index_of "interface" (columns df) = Some i
            /\ forall r, In r (rows df) -> has_mirror i (rows df) r.

Fixpoint contains (sep : ascii) (s : string) : bool :=
  match s with
  | EmptyString => false
  | String c rest => Ascii.eqb c sep || contains sep rest
  end.

(** Where a kept position lands once the positions not in [keep] are gone. *)
Definition new_index (keep : list bool) (i : nat) : nat :=
  length (filter (fun k : bool => k) (firstn i keep)).

(** A label the loop can process. *)
Definition splits_in_two (c : cell) : Prop :=
  exists label chain_1 chain_2,
    c = Str label /\ str_split underscore label = [chain_1; chain_2].

(** Tool output used in the examples: a feature table with two interfaces
    and score tables with and without the [" pvalue"] column. *)
Definition example_features : DataFrame :=
  {| columns := ["pdb"; "interface"; "Num_intf_residues"];
     rows := [[Str "ranked_0"; Str "A_B"; Num 5];
              [Str "ranked_0"; Str "A_C"; Num 7]] |}.

Definition example_scores : DataFrame :=
  {| columns := ["#PDB"; "chains"; "predicted_class"; "pi_score"];
     rows := [[Str "ranked_0"; Str "A_B"; Num 1; Num (3 # 2)];
              [Str "ranked_0"; Str "A_C"; Num 1; Num (1 # 2)]] |}.

Definition example_scores_with_pvalue : DataFrame :=
  {| columns := ["#PDB"; "chains"; "predicted_class"; "pi_score"; " pvalue"];
     rows := [[Str "ranked_0"; Str "A_B"; Num 1; Num (3 # 2); Num 0];
              [Str "ranked_0"; Str "A_C"; Num 1; Num (1 # 2); Num 0]] |}.

(** A structure of three chains with one beta-carbon each; A and B are in
    contact, C is far away. *)
Definition three_chains : list atom :=
  [atom_at "A" 1 "ALA" "CB" 0 0 0; atom_at "B" 1 "ALA" "CB" 0 4 0;
   atom_at "C" 1 "ALA" "CB" 100 0 0].

Definition example_analyser : PDBAnalyser :=
  PDBAnalyser_init three_chains
    [("A", [atom_at "A" 1 "ALA" "CB" 0 0 0]);
     ("B", [atom_at "B" 1 "ALA" "CB" 0 4 0]);
     ("C", [atom_at "C" 1 "ALA" "CB" 100 0 0])].

Definition all_features : DataFrame :=
  {| columns := ["pdb"; "interface"; "Num_intf_residues"];
     rows := [[Str "ranked_0"; Str "A_B"; Num 5];
              [Str "ranked_0"; Str "A_C"; Num 7];
              [Str "ranked_0"; Str "B_C"; Num 9]] |}.

Definition all_scores : DataFrame :=
  {| columns := ["#PDB"; "chains"; "predicted_class"; "pi_score"; " pvalue"];
     rows := [[Str "ranked_0"; Str "A_B"; Num 1; Num (3 # 2); Num 0];
              [Str "ranked_0"; Str "A_C"; Num 1; Num (1 # 2); Num 0];
              [Str "ranked_0"; Str "B_C"; Num 1; Num (5 # 2); Num 0]] |}.

Definition last_features : DataFrame :=
  {| columns := ["pdb"; "interface"; "Num_intf_residues"];
     rows := [[Str "ranked_0"; Str "B_C"; Num 9]] |}.

Definition last_scores : DataFrame :=
  {| columns := ["#PDB"; "chains"; "predicted_class"; "pi_score"; " pvalue"];
     rows := [[Str "ranked_0"; Str "B_C"; Num 1; Num (5 # 2); Num 0]] |}.

(** A scoring tool that reports every interface on its first two runs and
    only the interface B_C on the later ones. *)
Definition flaky_tool (run : nat) : work_dir_state :=
  if (run <? 2)%nat then FeatureTable all_features (Some (ScoreTable all_scores))
  else FeatureTable last_features (Some (ScoreTable last_scores)).

(** An energy oracle for the examples: the number of atoms. *)
Definition atom_count (s : structure) : Q := Qnat (length s).

(** A frame of at most one row, each row as long as the column labels. *)
Definition at_most_one_row (cols : list string) (df : DataFrame) : Prop :=
  columns df = cols
  /\ (rows df = [] \/ exists r, rows df = [r] /\ length r = length cols).

(** No label of the [interface] column comes twice. *)
Definition distinct_labels (df : DataFrame) : Prop :=
  forall ir c,
    index_of "interface" (columns df) = Some ir ->
    (length (filter (fun r => cell_eqb c (nth ir r NaN)) (rows df)) <= 1)%nat.

(** The columns of the records [__call__] builds, one record per pair. *)
Definition measurement_columns : list string :=
  ["average_interface_pae"; "average_interface_plddt"; "binding_energy";
   "interface"].

(** The record of one chain pair: the three measurements of the pair, or
    their sentinels when no interface is detected, and the label of the
    pair. *)
Definition pair_record {SI : SetIteration} (sfxn : structure -> Q)
           (self : PDBAnalyser) (pae_mtx : ndarray2)
           (plddt : list (string * list Q)) (cutoff : Q)
           (kv : string * (string * string)) (record : list cell) : Prop :=
  exists chain_1_plddt chain_2_plddt pae confidence energy,
    dict_get plddt (fst (snd kv)) = Ok chain_1_plddt
    /\ dict_get plddt (snd (snd kv)) = Ok chain_2_plddt
    /\ interface_measurements sfxn self pae_mtx (fst (snd kv)) (snd (snd kv))
         chain_1_plddt chain_2_plddt
         (obtain_interface_residues
            (filter (fun a => (chain_id a =? fst (snd kv))%string) (pdb_df self))
            (filter (fun a => (chain_id a =? snd (snd kv))%string) (pdb_df self))
            cutoff)
       = Ok (pae, confidence, energy)
    /\ record = [pae; confidence; energy;
                 Str (interface_label (fst (snd kv)) (snd (snd kv)))].

(** The tool left no feature table on its [n]-th run. *)
Definition failed_run (piscore_tool : nat -> work_dir_state) (n : nat) : Prop :=
  piscore_tool n = NoDirectory
  \/ exists pi_score_file, piscore_tool n = NoFeatureTable pi_score_file.

(** A scoring tool whose second run leaves nothing behind. *)
Definition failing_tool (run : nat) : work_dir_state :=
  if (run =? 1)%nat then NoDirectory
  else FeatureTable all_features (Some (ScoreTable all_scores)).

(** * Properties *)

(** ** The ascending iteration order is a set iteration *)

Lemma insert_unique_In (x y : nat) (l : list nat) :
  In y (insert_unique x l) <-> y = x \/ In y l.
Proof.
  induction l as [|z l IH]; simpl.
  - intuition.
  - destruct (Nat.compare_spec x z) as [E|L|G]; simpl.
    + subst. intuition.
    + intuition.
    + rewrite IH. intuition.
Qed.

Lemma insert_unique_ascending (x : nat) (l : list nat) :
  strictly_ascending l -> strictly_ascending (insert_unique x l).
Proof.
  induction 1 as [|z l Hz Hl IH]; simpl.
  - repeat constructor.
  - destruct (Nat.compare_spec x z) as [E|L|G].
    + now constructor.
    + constructor; [|now constructor].
      constructor; [exact L|].
      unfold lower_bound in *. rewrite Forall_forall in *.
      intros y Hy. specialize (Hz y Hy). lia.
    + constructor; [|exact IH].
      unfold lower_bound in *. rewrite Forall_forall in *.
      intros y Hy. apply insert_unique_In in Hy as [->|Hy]; auto.
  Qed.

Lemma strictly_ascending_NoDup (l : list nat) :
  strictly_ascending l -> NoDup l.
Proof.
  induction 1 as [|x l Hx Hl IH]; constructor; auto.
  intros Hin. unfold lower_bound in Hx. rewrite Forall_forall in Hx.
  specialize (Hx x Hin). lia.
Qed.

Lemma ascending_set_ascending (l : list nat) :
  strictly_ascending (ascending_set l).
Proof.
  induction l as [|x l IH]; simpl.
  - constructor.
  - now apply insert_unique_ascending.
Qed.

Lemma ascending_set_In (l : list nat) (x : nat) :
  In x (ascending_set l) <-> In x l.
Proof.
  induction l as [|y l IH]; simpl.
  - tauto.
  - rewrite insert_unique_In, IH. intuition.
Qed.

#[export] Instance ascending_iteration : SetIteration := {|
  set_iter := ascending_set;
  set_iter_NoDup := fun l => strictly_ascending_NoDup (ascending_set_ascending l);
  set_iter_In := ascending_set_In
|}.

(** ** 4.3 The error aggregator *)

Lemma subscript_in_range {A : Type} (l : list A) (i : nat) (d : A) :
  (i < length l)%nat -> subscript l i = Ok (nth i l d).
Proof.
  intros H. unfold subscript.
  destruct (nth_error l i) as [v|] eqn:E.
  - now rewrite (nth_error_nth l i d E).
  - apply nth_error_None in E. lia.
Qed.

Lemma subscript_out_of_range {A : Type} (l : list A) (i : nat) :
  (length l <= i)%nat -> subscript l i = Raise IndexError.
Proof.
  intros H. unfold subscript.
  now rewrite (proj2 (nth_error_None l i) H).
Qed.

Lemma subscript2_in_range (M : ndarray2) (i j : nat) :
  in_range M i j -> subscript2 M i j = Ok (entry M i j).
Proof.
  intros [Hi Hj]. unfold subscript2, entry.
  rewrite (subscript_in_range M [] Hi). simpl.
  now apply subscript_in_range.
Qed.

Lemma pae_loop_sum (M : ndarray2) (P : list (nat * nat)) :
  Forall (fun p => in_range M (fst p) (snd p) /\ in_range M (snd p) (fst p)) P ->
  forall acc, exists q,
    pae_loop M P acc = Ok q /\ q == acc + both_triangles M P.
Proof.
  induction 1 as [|[i j] P [Hij Hji] _ IH]; intros acc.
  - exists acc. split; [reflexivity|].
    unfold both_triangles. simpl. ring.
  - simpl in Hij, Hji. simpl.
    rewrite (subscript2_in_range Hij), (subscript2_in_range Hji). simpl.
    destruct (IH (acc + entry M i j + entry M j i)) as [q [Hq Eq]].
    exists q. split; [exact Hq|].
    rewrite Eq. unfold both_triangles. simpl. ring.
Qed.

Lemma combine_fst_snd {A B : Type} (P : list (A * B)) :
  combine (map fst P) (map snd P) = P.
Proof.
  induction P as [|[a b] P IH]; simpl; [reflexivity|now rewrite IH].
Qed.

(** C8.  For every error matrix [M] and every non-empty list of residue
    pairs [P] whose entries exist in [M], [calculate_average_pae] returns
    the sum over the pairs [(i,j)] of [M[i][j] + M[j][i]] divided by twice
    the number of pairs: both triangles are sampled, whether or not [M] is
    symmetric.  In particular a single pair with [M[i][j] = 2] and
    [M[j][i] = 4] yields [3]. *)
Theorem calculate_average_pae_both_triangles (M : ndarray2) (P : list (nat * nat)) :
  P <> [] ->
  Forall (fun p => in_range M (fst p) (snd p) /\ in_range M (snd p) (fst p)) P ->
  (exists q,
      calculate_average_pae M (map fst P) (map snd P) = Ok q /\
      q == both_triangles M P / Qnat (2 * length P))
  /\ (forall i j, P = [(i, j)] -> entry M i j == 2 -> entry M j i == 4 ->
      exists q, calculate_average_pae M [i] [j] = Ok q /\ q == 3).
Proof.
  intros Hne Hin.
  assert (Hgen : exists q,
             calculate_average_pae M (map fst P) (map snd P) = Ok q /\
             q == both_triangles M P / Qnat (2 * length P)).
  { unfold calculate_average_pae. rewrite combine_fst_snd, length_map.
    destruct (pae_loop_sum Hin 0) as [s [Hs Es]]. rewrite Hs. simpl bind.
    destruct P as [|p P']; [congruence|].
    cbn [length Nat.mul Nat.add true_div].
    eexists. split; [reflexivity|].
    unfold Qnat. cbn [length Nat.mul Nat.add].
    rewrite Es. field.
    unfold Qeq. simpl. lia. }
  split; [exact Hgen|].
  intros i j -> E2 E4.
  destruct Hgen as [q [Hq Eq]]. exists q. split; [exact Hq|].
  rewrite Eq. unfold both_triangles, Qnat. simpl. rewrite E2, E4. reflexivity.
Qed.

Lemma calculate_average_pae_both_triangles_witness :
  [(0, 1)]%nat <> []
  /\ (exists q, calculate_average_pae [[0; 2]; [4; 0]] [0%nat] [1%nat] = Ok q /\ q == 3).
Proof.
  split; [discriminate|].
  refine (proj2 (@calculate_average_pae_both_triangles
                   [[0; 2]; [4; 0]] [(0, 1)%nat] _ _) 0%nat 1%nat eq_refl _ _).
  - discriminate.
  - repeat constructor; simpl; lia.
  - reflexivity.
  - reflexivity.
Defined.

(** C6, as stated, fails: the aggregator has no emptiness check of its own
    and divides by zero on an empty pair set. *)
Lemma calculate_average_pae_empty_divides_by_zero :
  calculate_average_pae [[0; 2]; [4; 0]] [] [] = Raise ZeroDivisionError.
Proof. reflexivity. Qed.

(** ** 4.3 The confidence aggregator *)

Lemma plddt_loop_sum (p1 p2 : list Q) (pairs : list (nat * nat)) :
  Forall (fun p => (fst p < length p1)%nat /\ (snd p < length p2)%nat) pairs ->
  forall acc, exists q,
    plddt_loop p1 p2 pairs acc = Ok q /\
    q == acc + Qsum (map (fun p => nth (fst p) p1 0 + nth (snd p) p2 0) pairs).
Proof.
  induction 1 as [|[i j] pairs [Hi Hj] _ IH]; intros acc.
  - exists acc. split; [reflexivity|]. simpl. ring.
  - simpl in Hi, Hj. simpl.
    rewrite (subscript_in_range p1 0 Hi), (subscript_in_range p2 0 Hj). simpl.
    destruct (IH (acc + nth i p1 0 + nth j p2 0)) as [q [Hq Eq]].
    exists q. split; [exact Hq|]. rewrite Eq. ring.
Qed.

Lemma Qsum_combine (f g : nat -> Q) (l1 l2 : list nat) :
  length l1 = length l2 ->
  Qsum (map (fun p => f (fst p) + g (snd p)) (combine l1 l2))
  == Qsum (map f l1) + Qsum (map g l2).
Proof.
  revert l2. induction l1 as [|a l1 IH]; intros [|b l2] H; simpl in *;
    try discriminate.
  - ring.
  - injection H as H. rewrite (IH l2 H). ring.
Qed.

Lemma combine_firstn {A B : Type} (l1 : list A) (l2 : list B) :
  combine l1 l2
  = combine (firstn (Nat.min (length l1) (length l2)) l1)
            (firstn (Nat.min (length l1) (length l2)) l2).
Proof.
  revert l2. induction l1 as [|a l1 IH]; intros [|b l2]; simpl; try reflexivity.
  now rewrite <- IH.
Qed.

Section ConfidenceAggregator.

Context {SI : SetIteration}.

Lemma set_iter_in_range (p : list Q) (residues : list nat) :
  Forall (fun i => (i < length p)%nat) residues ->
  Forall (fun i => (i < length p)%nat) (set_iter residues).
Proof.
  rewrite !Forall_forall. intros H i Hi. apply H. now apply set_iter_In.
Qed.

(** What the loop of [calculate_average_plddt] computes in general: [zip]
    stops at the shorter side, so only the first [n] unique indices of
    each side are summed, [n] the smaller of the two counts, while the
    denominator counts all of them. *)
Lemma calculate_average_plddt_zip (p1 p2 : list Q) (c1 c2 : list nat) :
  Forall (fun i => (i < length p1)%nat) c1 ->
  Forall (fun j => (j < length p2)%nat) c2 ->
  c1 <> [] ->
  let n := Nat.min (unique_count c1) (unique_count c2) in
  exists q,
    calculate_average_plddt p1 p2 c1 c2 = Ok q /\
    q == (Qsum (map (fun i => nth i p1 0) (firstn n (set_iter c1)))
          + Qsum (map (fun j => nth j p2 0) (firstn n (set_iter c2))))
         / Qnat (unique_count c1 + unique_count c2).
Proof.
  intros H1 H2 Hne n. unfold calculate_average_plddt.
  apply set_iter_in_range in H1. apply set_iter_in_range in H2.
  assert (Hpairs : Forall (fun p => (fst p < length p1)%nat
                                    /\ (snd p < length p2)%nat)
                          (combine (set_iter c1) (set_iter c2))).
  { rewrite Forall_forall in *. intros [i j] Hij. simpl. split.
    - apply H1. eapply in_combine_l; eauto.
    - apply H2. eapply in_combine_r; eauto. }
  destruct (@plddt_loop_sum p1 p2 _ Hpairs 0) as [s [Hs Es]]. rewrite Hs. simpl bind.
  assert (Hpos : (unique_count c1 + unique_count c2 <> 0)%nat).
  { unfold unique_count. destruct c1 as [|a c1]; [congruence|].
    assert (In a (set_iter (a :: c1))) by (apply set_iter_In; now left).
    destruct (set_iter (a :: c1)); [contradiction|simpl; lia]. }
  fold (unique_count c1) (unique_count c2).
  destruct (unique_count c1 + unique_count c2)%nat as [|k] eqn:Ek; [congruence|].
  cbn [true_div]. eexists. split; [reflexivity|].
  assert (Hlen : length (firstn n (set_iter c1)) = length (firstn n (set_iter c2))).
  { rewrite !length_firstn. unfold n, unique_count. lia. }
  pose proof (Qsum_combine (fun i => nth i p1 0) (fun j => nth j p2 0) _ _ Hlen)
    as Ec.
  cbv beta in Ec.
  rewrite Es. rewrite combine_firstn. fold (unique_count c1) (unique_count c2). fold n.
  rewrite Ec. unfold Qnat. rewrite Qplus_0_l. reflexivity.
Qed.

(** X17.  When both sides have as many unique indices and every index
    lies inside its confidence array, [calculate_average_plddt] returns the
    sum of the confidences of the unique indices of both sides over their
    number: every unique index of either side is summed. *)
Lemma calculate_average_plddt_equal_sides (p1 p2 : list Q) (c1 c2 : list nat) :
  Forall (fun i => (i < length p1)%nat) c1 ->
  Forall (fun j => (j < length p2)%nat) c2 ->
  c1 <> [] ->
  unique_count c1 = unique_count c2 ->
  exists q,
    calculate_average_plddt p1 p2 c1 c2 = Ok q /\
    q == (unique_sum p1 c1 + unique_sum p2 c2)
         / Qnat (unique_count c1 + unique_count c2).
Proof.
  intros H1 H2 Hne Heq.
  destruct (calculate_average_plddt_zip p1 p2 H1 H2 Hne) as [q [Hq Eq]].
  exists q. split; [exact Hq|]. rewrite Eq.
  rewrite <- Heq, Nat.min_id. unfold unique_sum.
  unfold unique_count at 1. rewrite firstn_all.
  rewrite Heq. unfold unique_count at 1. rewrite firstn_all. reflexivity.
Qed.

Lemma set_iter_singleton (a : nat) (l : list nat) :
  (forall x, In x l <-> x = a) -> set_iter l = [a].
Proof.
  intros H.
  assert (Hin : forall x, In x (set_iter l) <-> x = a).
  { intros x. rewrite set_iter_In. apply H. }
  pose proof (set_iter_NoDup l) as Hnd.
  destruct (set_iter l) as [|x [|y r]].
  - exfalso. apply (Hin a). reflexivity.
  - f_equal. apply Hin. now left.
  - exfalso.
    assert (x = a) by (apply Hin; now left).
    assert (y = a) by (apply Hin; right; now left).
    subst. inversion Hnd as [|? ? Hx _]. apply Hx. now left.
Qed.

Lemma set_iter_two (a b : nat) (l : list nat) :
  a <> b -> (forall x, In x l <-> x = a \/ x = b) ->
  set_iter l = [a; b] \/ set_iter l = [b; a].
Proof.
  intros Hab H.
  assert (Hin : forall x, In x (set_iter l) <-> x = a \/ x = b).
  { intros x. rewrite set_iter_In. apply H. }
  pose proof (set_iter_NoDup l) as Hnd.
  destruct (set_iter l) as [|x [|y [|z r]]].
  - exfalso. apply (Hin a). now left.
  - exfalso.
    assert (Ha : In a [x]) by (apply Hin; now left).
    assert (Hb : In b [x]) by (apply Hin; now right).
    simpl in Ha, Hb. intuition congruence.
  - assert (Hx : x = a \/ x = b) by (apply Hin; now left).
    assert (Hy : y = a \/ y = b) by (apply Hin; right; now left).
    inversion Hnd as [|? ? Hxy _]. simpl in Hxy.
    destruct Hx, Hy; subst; auto; exfalso; apply Hxy; now left.
  - exfalso.
    assert (Hx : x = a \/ x = b) by (apply Hin; now left).
    assert (Hy : y = a \/ y = b) by (apply Hin; right; now left).
    assert (Hz : z = a \/ z = b) by (apply Hin; right; right; now left).
    inversion Hnd as [|? ? Hx' Hnd']. inversion Hnd' as [|? ? Hy' _].
    simpl in Hx', Hy'.
    destruct Hx, Hy, Hz; subst; intuition.
Qed.

(** The example of the spec: both sides have two unique indices and the
    value is 25. *)
Lemma calculate_average_plddt_spec_example :
  exists q,
    calculate_average_plddt [10; 20] [30; 40] [0; 1]%nat [0; 1]%nat = Ok q
    /\ q == 25.
Proof.
  assert (H01 : (0 <> 1)%nat) by discriminate.
  destruct (@set_iter_two 0%nat 1%nat [0; 1]%nat H01) as [E|E].
  { simpl. intuition. }
  all: unfold calculate_average_plddt; rewrite E; simpl;
    eexists; (split; [reflexivity|reflexivity]).
Qed.

(** C1 fails on the code when one side has more unique indices than the
    other.  Chain 1 contributes the unique index 0, chain 2 the unique
    indices 0 and 1: the code adds one value per side (10, and 30 or 40
    according to the iteration order of the set) and divides by 3, where
    the claim has (10 + 30 + 40) / 3. *)
Theorem calculate_average_plddt_drops_unpaired_residues :
  exists q,
    calculate_average_plddt [10; 20] [30; 40] [0; 0]%nat [0; 1]%nat = Ok q
    /\ (q == 40 # 3 \/ q == 50 # 3)
    /\ (unique_sum [10; 20] [0; 0]%nat + unique_sum [30; 40] [0; 1]%nat)
       / Qnat (unique_count [0; 0]%nat + unique_count [0; 1]%nat) == 80 # 3
    /\ ~ q == (unique_sum [10; 20] [0; 0]%nat + unique_sum [30; 40] [0; 1]%nat)
             / Qnat (unique_count [0; 0]%nat + unique_count [0; 1]%nat).
Proof.
  assert (H01 : (0 <> 1)%nat) by discriminate.
  assert (E0 : set_iter [0; 0]%nat = [0%nat]).
  { apply set_iter_singleton. simpl. intuition. }
  destruct (@set_iter_two 0%nat 1%nat [0; 1]%nat H01) as [E|E].
  { simpl. intuition. }
  all: unfold calculate_average_plddt, unique_sum, unique_count;
    rewrite E0, E; simpl; eexists; split; [reflexivity|].
  - split; [left; reflexivity|]. split; [reflexivity|]. discriminate.
  - split; [right; reflexivity|]. split; [reflexivity|]. discriminate.
Qed.

End ConfidenceAggregator.

(** ** 4.2 The interface residue detector *)

Lemma Qlt_bool_iff (a b : Q) : Qlt_bool a b = true <-> a < b.
Proof.
  unfold Qlt_bool. rewrite negb_true_iff. split.
  - intros H. apply Qnot_le_lt. intros Hle.
    apply Qle_bool_iff in Hle. congruence.
  - intros H. destruct (Qle_bool b a) eqn:E; [|reflexivity].
    apply Qle_bool_iff in E. exfalso. now apply (Qlt_not_le a b).
Qed.

Lemma sum_sq_diff_nonneg (p q : coords) : 0 <= sum_sq_diff p q.
Proof.
  destruct p as [[px py] pz], q as [[qx qy] qz]. unfold sum_sq_diff.
  assert (Hsq : forall a : Q, 0 <= a * a).
  { intros a. destruct (Qlt_le_dec a 0) as [Hneg|Hpos].
    - setoid_replace (a * a) with ((- a) * (- a)) by ring.
      apply Qmult_le_0_compat; apply (Qopp_le_compat a 0); now apply Qlt_le_weak.
    - now apply Qmult_le_0_compat. }
  pose proof (Hsq (px - qx)). pose proof (Hsq (py - qy)). pose proof (Hsq (pz - qz)).
  apply Qle_trans with (0 + 0 + 0); [discriminate|].
  repeat apply Qplus_le_compat; assumption.
Qed.

Lemma Q2R_zero : Q2R 0 = 0%R.
Proof. unfold Q2R. simpl. lra. Qed.

(** The comparison the model decides on rationals is the comparison of the
    real square root with the cutoff. *)
Lemma sqrt_ltb_spec (r cutoff : Q) :
  0 <= r ->
  sqrt_ltb (Sqrt r) cutoff = true <-> (sqrt (Q2R r) < Q2R cutoff)%R.
Proof.
  intros Hr. apply Qle_Rle in Hr. rewrite Q2R_zero in Hr.
  unfold sqrt_ltb. rewrite andb_true_iff, !Qlt_bool_iff. split.
  - intros [Hc Hlt]. apply Qlt_Rlt in Hc, Hlt.
    rewrite Q2R_zero in Hc. rewrite Q2R_mult in Hlt.
    rewrite <- (sqrt_square (Q2R cutoff)) by lra.
    apply sqrt_lt_1_alt. lra.
  - intros H. pose proof (sqrt_pos (Q2R r)) as Hpos.
    pose proof (sqrt_sqrt (Q2R r) Hr) as Hsq.
    split; apply Rlt_Qlt.
    + rewrite Q2R_zero. lra.
    + rewrite Q2R_mult. nra.
Qed.

Lemma sqrt_ltb_euclidean (p q : coords) (cutoff : Q) :
  sqrt_ltb (Sqrt (sum_sq_diff p q)) cutoff = true
  <-> (euclidean_distance p q < Q2R cutoff)%R.
Proof. apply sqrt_ltb_spec, sum_sq_diff_nonneg. Qed.

Lemma where_row_In (i j : nat) (row : list bool) (a b : nat) :
  In (a, b) (where_row i j row)
  <-> a = i /\ (j <= b)%nat /\ nth_error row (b - j) = Some true.
Proof.
  revert j. induction row as [|c row IH]; intros j; simpl.
  - split; [tauto|]. intros [_ [_ H]]. destruct (b - j)%nat; discriminate.
  - assert (Hrest : In (a, b) (where_row i (S j) row)
                    <-> a = i /\ (j < b)%nat /\ nth_error row (b - S j) = Some true).
    { rewrite IH. intuition. }
    destruct c; simpl; rewrite ?Hrest; split.
    + intros [E|[Ha [Hb Hn]]].
      * injection E as <- <-. rewrite Nat.sub_diag. auto.
      * split; [assumption|]. split; [lia|].
        replace (b - j)%nat with (S (b - S j)) by lia. exact Hn.
    + intros [Ha [Hb Hn]]. destruct (Nat.eq_dec b j) as [->|Hne].
      * left. now subst.
      * right. split; [assumption|]. split; [lia|].
        replace (b - j)%nat with (S (b - S j)) in Hn by lia. exact Hn.
    + intros [Ha [Hb Hn]]. split; [assumption|]. split; [lia|].
      replace (b - j)%nat with (S (b - S j)) by lia. exact Hn.
    + intros [Ha [Hb Hn]]. destruct (Nat.eq_dec b j) as [->|Hne].
      * rewrite Nat.sub_diag in Hn. discriminate.
      * split; [assumption|]. split; [lia|].
        replace (b - j)%nat with (S (b - S j)) in Hn by lia. exact Hn.
Qed.

Lemma where_rows_In (i : nat) (cond : list (list bool)) (a b : nat) :
  In (a, b) (where_rows i cond)
  <-> (i <= a)%nat /\
      exists row, nth_error cond (a - i) = Some row /\ nth_error row b = Some true.
Proof.
  revert i. induction cond as [|row cond IH]; intros i; simpl.
  - split; [tauto|]. intros [_ [r [H _]]]. destruct (a - i)%nat; discriminate.
  - rewrite in_app_iff, where_row_In, IH, Nat.sub_0_r. split.
    + intros [[-> [_ Hn]]|[Hle [r [Hr Hn]]]].
      * split; [lia|]. exists row. rewrite Nat.sub_diag. auto.
      * split; [lia|]. exists r.
        replace (a - i)%nat with (S (a - S i)) by lia. auto.
    + intros [Hle [r [Hr Hn]]]. destruct (Nat.eq_dec a i) as [->|Hne].
      * left. rewrite Nat.sub_diag in Hr. injection Hr as ->.
        split; [reflexivity|]. split; [lia|exact Hn].
      * right. split; [lia|]. exists r.
        replace (a - i)%nat with (S (a - S i)) in Hr by lia. auto.
Qed.

Lemma StronglySorted_app {A : Type} (R : A -> A -> Prop) (l1 l2 : list A) :
  StronglySorted R l1 -> StronglySorted R l2 ->
  (forall x y, In x l1 -> In y l2 -> R x y) ->
  StronglySorted R (l1 ++ l2).
Proof.
  induction 1 as [|x l1 Hs IH Hx]; intros H2 Hcross; simpl; [exact H2|].
  constructor.
  - apply IH; [exact H2|]. intros a b Ha Hb. apply Hcross; [now right|exact Hb].
  - rewrite Forall_forall in *. intros y Hy. apply in_app_or in Hy as [Hy|Hy].
    + now apply Hx.
    + apply Hcross; [now left|exact Hy].
Qed.

Lemma where_row_sorted (i j : nat) (row : list bool) :
  StronglySorted lex_lt (where_row i j row).
Proof.
  revert j. induction row as [|c row IH]; intros j; simpl; [constructor|].
  destruct c; [|apply IH].
  constructor; [apply IH|].
  rewrite Forall_forall. intros [a b] Hab.
  apply where_row_In in Hab as [-> [Hb _]].
  right. simpl. split; [reflexivity|lia].
Qed.

Lemma where_rows_sorted (i : nat) (cond : list (list bool)) :
  StronglySorted lex_lt (where_rows i cond).
Proof.
  revert i. induction cond as [|row cond IH]; intros i; simpl; [constructor|].
  apply StronglySorted_app; [apply where_row_sorted|apply IH|].
  intros [a b] [c d] H1 H2.
  apply where_row_In in H1 as [-> _].
  apply where_rows_In in H2 as [Hle _].
  left. simpl. lia.
Qed.

Lemma lex_lt_irrefl (p : nat * nat) : ~ lex_lt p p.
Proof. unfold lex_lt. lia. Qed.

Lemma StronglySorted_NoDup {A : Type} (R : A -> A -> Prop) (l : list A) :
  (forall x, ~ R x x) -> StronglySorted R l -> NoDup l.
Proof.
  intros Hirr. induction 1 as [|x l Hs IH Hx]; constructor; [|exact IH].
  intros Hin. rewrite Forall_forall in Hx. exact (Hirr x (Hx x Hin)).
Qed.

(** The boolean array handed to [np.where], entry by entry. *)
Lemma cutoff_mask_entry (cb1 cb2 : list coords) (cutoff : Q) (i j : nat) :
  (exists row,
      nth_error (map (map (fun d => sqrt_ltb d cutoff)) (distance_mtx cb1 cb2)) i
      = Some row /\ nth_error row j = Some true)
  <-> within_cutoff cb1 cb2 cutoff i j.
Proof.
  unfold distance_mtx, within_cutoff. rewrite !map_map. split.
  - intros [row [Hrow Hj]].
    rewrite nth_error_map in Hrow.
    destruct (nth_error cb1 i) as [p|]; simpl in Hrow; [|discriminate].
    injection Hrow as <-. rewrite map_map, nth_error_map in Hj.
    destruct (nth_error cb2 j) as [q|]; simpl in Hj; [|discriminate].
    injection Hj as Hj. exists p, q. repeat split.
    now apply sqrt_ltb_euclidean.
  - intros [p [q [Hp [Hq Hd]]]].
    eexists. rewrite nth_error_map, Hp. split; [reflexivity|].
    rewrite map_map, nth_error_map, Hq. simpl. f_equal.
    now apply sqrt_ltb_euclidean.
Qed.

Lemma obtain_interface_residues_hits (chain_df_1 chain_df_2 : list atom) (cutoff : Q) :
  obtain_interface_residues chain_df_1 chain_df_2 cutoff
  = match interface_hits chain_df_1 chain_df_2 cutoff with
    | [] => None
    | _ :: _ =>
        Some (map fst (interface_hits chain_df_1 chain_df_2 cutoff),
              map snd (interface_hits chain_df_1 chain_df_2 cutoff))
    end.
Proof.
  unfold obtain_interface_residues, np_where.
  fold (interface_hits chain_df_1 chain_df_2 cutoff).
  destruct (interface_hits chain_df_1 chain_df_2 cutoff); reflexivity.
Qed.

Lemma interface_hits_In (chain_df_1 chain_df_2 : list atom) (cutoff : Q) (i j : nat) :
  In (i, j) (interface_hits chain_df_1 chain_df_2 cutoff)
  <-> within_cutoff (retrieve_C_beta_coords chain_df_1)
                    (retrieve_C_beta_coords chain_df_2) cutoff i j.
Proof.
  unfold interface_hits. rewrite where_rows_In, Nat.sub_0_r, cutoff_mask_entry.
  intuition lia.
Qed.

Lemma obtain_interface_residues_nonempty
      (chain_df_1 chain_df_2 : list atom) (cutoff : Q)
      (residues_1 residues_2 : list nat) :
  obtain_interface_residues chain_df_1 chain_df_2 cutoff
  = Some (residues_1, residues_2) ->
  residues_1 <> [] /\ length residues_1 = length residues_2.
Proof.
  rewrite obtain_interface_residues_hits.
  destruct (interface_hits chain_df_1 chain_df_2 cutoff) as [|h hits];
    [discriminate|].
  intros H. injection H as <- <-. split; [discriminate|].
  simpl. now rewrite !length_map.
Qed.

(** The representatives of the specification are the records the mask
    selects. *)
Lemma beta_carbons_selected (chain : list atom) :
  beta_carbons chain = representative_atoms chain.
Proof.
  unfold representative_atoms.
  induction chain as [|a rest IH]; [reflexivity|].
  cbn [beta_carbons filter]. unfold C_beta_mask at 1.
  destruct (string_dec (atom_name a) "CB") as [Hcb|Hcb].
  - apply String.eqb_eq in Hcb. rewrite Hcb. cbn [orb]. now rewrite IH.
  - apply String.eqb_neq in Hcb. rewrite Hcb. cbn [orb].
    destruct (string_dec (residue_name a) "GLY") as [Hgly|Hgly].
    + apply String.eqb_eq in Hgly. rewrite Hgly. cbn [andb].
      destruct (string_dec (atom_name a) "CA") as [Hca|Hca].
      * apply String.eqb_eq in Hca. rewrite Hca. now rewrite IH.
      * apply String.eqb_neq in Hca. rewrite Hca. exact IH.
    + apply String.eqb_neq in Hgly. rewrite Hgly. cbn [andb]. exact IH.
Qed.

(** The sum of squares the code takes the root of is the square of the
    Euclidean distance. *)
Lemma real_distance_sum_sq_diff (a b : atom) :
  real_distance a b
  = sqrt (Q2R (sum_sq_diff (x_coord a, y_coord a, z_coord a)
                           (x_coord b, y_coord b, z_coord b))).
Proof.
  unfold real_distance, sum_sq_diff, Rsqr. f_equal.
  rewrite !Q2R_plus, !Q2R_mult, !Q2R_minus. reflexivity.
Qed.

Lemma closer_than_within_cutoff
      (cutoff : Q) (chain_1 chain_2 : list atom) (i j : nat) :
  closer_than cutoff chain_1 chain_2 i j
  <-> within_cutoff (retrieve_C_beta_coords chain_1)
                    (retrieve_C_beta_coords chain_2) cutoff i j.
Proof.
  unfold closer_than, within_cutoff, retrieve_C_beta_coords.
  rewrite !beta_carbons_selected. split.
  - intros [a [b [Ha [Hb Hd]]]].
    exists (x_coord a, y_coord a, z_coord a), (x_coord b, y_coord b, z_coord b).
    rewrite !nth_error_map, Ha, Hb. repeat split.
    unfold euclidean_distance. now rewrite <- real_distance_sum_sq_diff.
  - intros [p [q [Hp [Hq Hd]]]].
    rewrite nth_error_map in Hp, Hq.
    destruct (nth_error (representative_atoms chain_1) i) as [a|];
      [|discriminate].
    destruct (nth_error (representative_atoms chain_2) j) as [b|];
      [|discriminate].
    simpl in Hp, Hq. injection Hp as <-. injection Hq as <-.
    exists a, b. repeat split.
    rewrite real_distance_sum_sq_diff. exact Hd.
Qed.

(** What [np.where] finds in a mask computed entry by entry. *)
Lemma where_rows_mask {A B : Type} (close : A -> B -> bool)
      (l1 : list A) (l2 : list B) (i j : nat) :
  In (i, j) (where_rows 0 (map (fun p => map (close p) l2) l1))
  <-> exists p q,
      nth_error l1 i = Some p /\ nth_error l2 j = Some q /\ close p q = true.
Proof.
  rewrite where_rows_In, Nat.sub_0_r. split.
  - intros [_ [row [Hrow Hj]]].
    rewrite nth_error_map in Hrow.
    destruct (nth_error l1 i) as [p|]; simpl in Hrow; [|discriminate].
    injection Hrow as <-. rewrite nth_error_map in Hj.
    destruct (nth_error l2 j) as [q|]; simpl in Hj; [|discriminate].
    injection Hj as Hj. now exists p, q.
  - intros [p [q [Hp [Hq Hd]]]]. split; [lia|].
    eexists. rewrite nth_error_map, Hp. split; [reflexivity|].
    rewrite nth_error_map, Hq. simpl. now f_equal.
Qed.

(** The outcome of the detector in terms of the hits of [np.where]. *)
Lemma np_where_outcome (cond : list (list bool)) :
  (let '(satisfied_residues_chain_1, satisfied_residues_chain_2) :=
     np_where cond in
   if (0 <? length satisfied_residues_chain_1)%nat
      && (0 <? length satisfied_residues_chain_2)%nat
   then Some (satisfied_residues_chain_1, satisfied_residues_chain_2)
   else None)
  = match where_rows 0 cond with
    | [] => None
    | _ :: _ => Some (map fst (where_rows 0 cond), map snd (where_rows 0 cond))
    end.
Proof. unfold np_where. destruct (where_rows 0 cond); reflexivity. Qed.

Lemma detector_outcome (cond : list (list bool)) (close : nat -> nat -> Prop) :
  (forall i j, In (i, j) (where_rows 0 cond) <-> close i j) ->
  match
    match where_rows 0 cond with
    | [] => None
    | _ :: _ => Some (map fst (where_rows 0 cond), map snd (where_rows 0 cond))
    end
  with
  | Some (residues_1, residues_2) =>
      length residues_1 = length residues_2
      /\ residues_1 <> []
      /\ NoDup (combine residues_1 residues_2)
      /\ (forall i j, In (i, j) (combine residues_1 residues_2) <-> close i j)
  | None => forall i j, ~ close i j
  end.
Proof.
  intros Hin. pose proof (where_rows_sorted 0 cond) as Hsorted.
  destruct (where_rows 0 cond) as [|h hits] eqn:E.
  - intros i j H. apply Hin in H. exact H.
  - rewrite combine_fst_snd. split; [now rewrite !length_map|].
    split; [discriminate|]. split; [|exact Hin].
    apply StronglySorted_NoDup with (R := lex_lt); [apply lex_lt_irrefl|].
    exact Hsorted.
Qed.

Lemma float64_hits_In (chain_df_1 chain_df_2 : list atom)
      (cutoff : Float64.float) (i j : nat) :
  In (i, j)
     (where_rows 0
        (map (map (fun d => PrimFloat.ltb d cutoff))
             (Float64.distance_mtx (Float64.retrieve_C_beta_coords chain_df_1)
                                   (Float64.retrieve_C_beta_coords chain_df_2))))
  <-> computed_closer_than cutoff chain_df_1 chain_df_2 i j.
Proof.
  unfold Float64.distance_mtx, Float64.retrieve_C_beta_coords,
    computed_closer_than.
  rewrite !beta_carbons_selected, !map_map.
  rewrite (map_ext _ (fun a => map (fun b => PrimFloat.ltb (computed_distance a b) cutoff)
                                   (representative_atoms chain_df_2)))
    by (intros a; now rewrite !map_map).
  apply where_rows_mask.
Qed.

Lemma real_distance_exact (a b : atom) (d : Q) :
  0 <= d ->
  sum_sq_diff (x_coord a, y_coord a, z_coord a)
              (x_coord b, y_coord b, z_coord b) == d * d ->
  real_distance a b = Q2R d.
Proof.
  intros Hd E. rewrite real_distance_sum_sq_diff, (Qeq_eqR _ _ E), Q2R_mult.
  apply sqrt_square. rewrite <- Q2R_zero. now apply Qle_Rle.
Qed.

(** C7 fails on the code at the boundary.  The doubles 48427933 / 2^25,
    400032444 / 2^25 and 402953125 / 2^25 are the sides of a right triangle
    (48427933^2 + 400032444^2 = 402953125^2), so a beta-carbon at the first
    two and one at the origin are exactly the third apart; with the third as
    cutoff the detector reports the pair, because the squares and their sum
    are rounded and the distance comes out one unit in the last place below
    the cutoff.  In exact arithmetic the pair is not reported.  The same
    happens with coordinates as a structure file writes them: (1.960, 6.720,
    0.000) is 7 from the origin (1.96 = 7 * 0.28, 6.72 = 7 * 0.96) and is
    reported under the cutoff 7, the computed distance being
    6.999999999999999. *)
Lemma obtain_interface_residues_boundary_pair_reported :
  let a := atom_at "A" 1 "ALA" "CB"
                   (48427933 # 33554432) (400032444 # 33554432) 0 in
  let b := atom_at "B" 1 "ALA" "CB" 0 0 0 in
  let cutoff := 402953125 # 33554432 in
  let a' := atom_at "A" 1 "ALA" "CB" (196 # 100) (672 # 100) 0 in
  (beta_carbons [a] = [a] /\ beta_carbons [b] = [b])
  /\ (holds_exactly (Float64.of_Q (x_coord a)) (x_coord a)
      /\ holds_exactly (Float64.of_Q (y_coord a)) (y_coord a)
      /\ holds_exactly (Float64.of_Q 0) 0
      /\ holds_exactly (Float64.of_Q cutoff) cutoff)
  /\ real_distance a b = Q2R cutoff
  /\ Float64.obtain_interface_residues [a] [b] (Float64.of_Q cutoff)
     = Some ([0%nat], [0%nat])
  /\ obtain_interface_residues [a] [b] cutoff = None
  /\ real_distance a' b = Q2R 7
  /\ Float64.obtain_interface_residues [a'] [b] (Float64.of_Q 7)
     = Some ([0%nat], [0%nat]).
Proof.
  cbv zeta. split; [split; reflexivity|]. split.
  { repeat split; vm_compute; reflexivity. }
  split; [apply real_distance_exact; [discriminate|reflexivity]|].
  split; [vm_compute; reflexivity|]. split; [reflexivity|].
  split; [apply real_distance_exact; [discriminate|reflexivity]|].
  vm_compute. reflexivity.
Qed.

(** C7, amended.  In exact arithmetic [obtain_interface_residues] returns
    exactly the index pairs of representative atoms whose Euclidean distance
    is strictly below the cutoff, each once, a pair at distance equal to the
    cutoff is not among them, and the outcome is [None] exactly when no pair
    is that close, in particular when a chain has no representative atom.
    In binary64, as the code runs, the same holds of the computed distance:
    the pairs returned are exactly those whose rounded distance compares
    below the cutoff. *)
Theorem obtain_interface_residues_exact
        (chain_df_1 chain_df_2 : list atom) (cutoff : Q)
        (cutoff64 : Float64.float) :
  match obtain_interface_residues chain_df_1 chain_df_2 cutoff with
  | Some (residues_1, residues_2) =>
      length residues_1 = length residues_2
      /\ residues_1 <> []
      /\ NoDup (combine residues_1 residues_2)
      /\ (forall i j, In (i, j) (combine residues_1 residues_2)
                      <-> closer_than cutoff chain_df_1 chain_df_2 i j)
      /\ (forall i j a b,
             nth_error (beta_carbons chain_df_1) i = Some a ->
             nth_error (beta_carbons chain_df_2) j = Some b ->
             real_distance a b = Q2R cutoff ->
             ~ In (i, j) (combine residues_1 residues_2))
  | None => forall i j, ~ closer_than cutoff chain_df_1 chain_df_2 i j
  end
  /\ match Float64.obtain_interface_residues chain_df_1 chain_df_2 cutoff64 with
     | Some (residues_1, residues_2) =>
         length residues_1 = length residues_2
         /\ residues_1 <> []
         /\ NoDup (combine residues_1 residues_2)
         /\ (forall i j, In (i, j) (combine residues_1 residues_2)
                         <-> computed_closer_than cutoff64 chain_df_1 chain_df_2 i j)
     | None => forall i j, ~ computed_closer_than cutoff64 chain_df_1 chain_df_2 i j
     end
  /\ (beta_carbons chain_df_1 = [] \/ beta_carbons chain_df_2 = [] ->
      obtain_interface_residues chain_df_1 chain_df_2 cutoff = None
      /\ Float64.obtain_interface_residues chain_df_1 chain_df_2 cutoff64 = None).
Proof.
  assert (Hexact :
    match obtain_interface_residues chain_df_1 chain_df_2 cutoff with
    | Some (residues_1, residues_2) =>
        length residues_1 = length residues_2
        /\ residues_1 <> []
        /\ NoDup (combine residues_1 residues_2)
        /\ (forall i j, In (i, j) (combine residues_1 residues_2)
                        <-> closer_than cutoff chain_df_1 chain_df_2 i j)
    | None => forall i j, ~ closer_than cutoff chain_df_1 chain_df_2 i j
    end).
  { unfold obtain_interface_residues. rewrite np_where_outcome.
    apply detector_outcome. intros i j.
    rewrite closer_than_within_cutoff.
    apply (interface_hits_In chain_df_1 chain_df_2 cutoff i j). }
  assert (Hfloat :
    match Float64.obtain_interface_residues chain_df_1 chain_df_2 cutoff64 with
    | Some (residues_1, residues_2) =>
        length residues_1 = length residues_2
        /\ residues_1 <> []
        /\ NoDup (combine residues_1 residues_2)
        /\ (forall i j, In (i, j) (combine residues_1 residues_2)
                        <-> computed_closer_than cutoff64 chain_df_1 chain_df_2 i j)
    | None => forall i j, ~ computed_closer_than cutoff64 chain_df_1 chain_df_2 i j
    end).
  { unfold Float64.obtain_interface_residues. rewrite np_where_outcome.
    apply detector_outcome. intros i j. apply float64_hits_In. }
  split; [|split; [exact Hfloat|]].
  - destruct (obtain_interface_residues chain_df_1 chain_df_2 cutoff)
      as [[residues_1 residues_2]|]; [|exact Hexact].
    destruct Hexact as [Hlen [Hne [Hnodup Hin]]].
    repeat (split; [assumption|]).
    intros i j a b Ha Hb Hd Hhit. apply Hin in Hhit.
    destruct Hhit as [a' [b' [Ha' [Hb' Hlt]]]].
    rewrite Ha in Ha'. rewrite Hb in Hb'.
    injection Ha' as <-. injection Hb' as <-. lra.
  - intros Hempty.
    assert (Hnone : forall i j a b,
               nth_error (beta_carbons chain_df_1) i = Some a ->
               nth_error (beta_carbons chain_df_2) j = Some b -> False).
    { intros i j a b Ha Hb.
      destruct Hempty as [H0|H0]; rewrite H0 in *; destruct i, j; discriminate. }
    split.
    + destruct (obtain_interface_residues chain_df_1 chain_df_2 cutoff)
        as [[[|i residues_1] [|j residues_2]]|]; try reflexivity; exfalso;
        destruct Hexact as [Hlen [Hne [_ Hin]]];
        try discriminate Hlen; try (now apply Hne).
      destruct (proj1 (Hin i j) (or_introl eq_refl)) as [a [b [Ha [Hb _]]]].
      exact (Hnone i j a b Ha Hb).
    + destruct (Float64.obtain_interface_residues chain_df_1 chain_df_2 cutoff64)
        as [[[|i residues_1] [|j residues_2]]|]; try reflexivity; exfalso;
        destruct Hfloat as [Hlen [Hne [_ Hin]]];
        try discriminate Hlen; try (now apply Hne).
      destruct (proj1 (Hin i j) (or_introl eq_refl)) as [a [b [Ha [Hb _]]]].
      exact (Hnone i j a b Ha Hb).
Qed.

(** C10.  When an interface is detected the two index arrays have the same
    length and, read as pairs, are in strictly increasing lexicographic
    order: the chain-1 index never decreases, and for equal chain-1 indices
    the chain-2 index increases. *)
Theorem obtain_interface_residues_sorted
        (chain_df_1 chain_df_2 : list atom) (cutoff : Q)
        (residues_1 residues_2 : list nat) :
  obtain_interface_residues chain_df_1 chain_df_2 cutoff
  = Some (residues_1, residues_2) ->
  length residues_1 = length residues_2
  /\ residues_1 <> []
  /\ StronglySorted lex_lt (combine residues_1 residues_2)
  /\ StronglySorted le residues_1.
Proof.
  rewrite obtain_interface_residues_hits. intros H.
  pose proof (where_rows_sorted 0
                (map (map (fun d => sqrt_ltb d cutoff))
                     (distance_mtx (retrieve_C_beta_coords chain_df_1)
                                   (retrieve_C_beta_coords chain_df_2)))) as Hs.
  fold (interface_hits chain_df_1 chain_df_2 cutoff) in Hs.
  set (hits := interface_hits chain_df_1 chain_df_2 cutoff) in *.
  assert (Hres : residues_1 = map fst hits /\ residues_2 = map snd hits
                 /\ hits <> []).
  { destruct hits; [discriminate|]. injection H as <- <-.
    repeat split. discriminate. }
  destruct Hres as [-> [-> Hne]]. clear H.
  split; [now rewrite !length_map|].
  split; [destruct hits; [congruence|discriminate]|].
  rewrite combine_fst_snd. split; [exact Hs|].
  clear Hne. induction Hs as [|x l Hl IH Hx]; simpl; constructor; [exact IH|].
  rewrite Forall_forall in *. intros n Hn.
  apply in_map_iff in Hn as [y [<- Hy]].
  destruct (Hx y Hy) as [Hlt|[Heq _]]; lia.
Qed.

Lemma obtain_interface_residues_sorted_witness :
  obtain_interface_residues
    [atom_at "A" 1 "ALA" "CA" 0 0 0; atom_at "A" 1 "ALA" "CB" 0 0 0;
     atom_at "A" 2 "GLY" "CA" 3 0 0]
    [atom_at "B" 1 "ALA" "CB" 0 4 0; atom_at "B" 2 "SER" "CB" 3 4 0;
     atom_at "B" 3 "GLY" "CA" 30 0 0]
    6
  = Some ([0; 0; 1; 1]%nat, [0; 1; 0; 1]%nat)
  /\ StronglySorted lex_lt (combine [0; 0; 1; 1]%nat [0; 1; 0; 1]%nat).
Proof.
  split; [reflexivity|].
  exact (proj1 (proj2 (proj2
    (@obtain_interface_residues_sorted
       [atom_at "A" 1 "ALA" "CA" 0 0 0; atom_at "A" 1 "ALA" "CB" 0 0 0;
        atom_at "A" 2 "GLY" "CA" 3 0 0]
       [atom_at "B" 1 "ALA" "CB" 0 4 0; atom_at "B" 2 "SER" "CB" 3 4 0;
        atom_at "B" 3 "GLY" "CA" 30 0 0]
       6 [0; 0; 1; 1]%nat [0; 1; 0; 1]%nat eq_refl)))).
Defined.

(** ** 3. The representative atom set *)

Lemma C_beta_mask_spec (a : atom) :
  C_beta_mask a = true <-> is_representative a.
Proof.
  unfold C_beta_mask, is_representative.
  rewrite orb_true_iff, andb_true_iff, !String.eqb_eq. tauto.
Qed.

Lemma NoDup_map_filter {A B : Type} (R : A -> A -> Prop) (f : A -> B)
      (keep : A -> bool) (l : list A) :
  (forall a b, R a b -> keep a = true -> keep b = true -> f a <> f b) ->
  ForallOrdPairs R l -> NoDup (map f (filter keep l)).
Proof.
  intros Hdiff. induction 1 as [|a l Ha Hl IH]; simpl; [constructor|].
  destruct (keep a) eqn:Ka; [|exact IH].
  simpl. constructor; [|exact IH].
  intros Hin. apply in_map_iff in Hin as [b [Hfb Hb]].
  apply filter_In in Hb as [Hb Kb].
  rewrite Forall_forall in Ha.
  exact (Hdiff a b (Ha b Hb) Ka Kb (eq_sym Hfb)).
Qed.

(** C9, as stated, fails: the mask keeps every matching record, so a residue
    listed with two beta-carbon records (alternate locations) contributes two
    representatives. *)
Lemma retrieve_C_beta_coords_two_for_one_residue :
  let chain_df := [atom_at "A" 7 "SER" "CA" 0 0 0;
                   atom_at "A" 7 "SER" "CB" 1 0 0;
                   atom_at "A" 7 "SER" "CB" (11 # 10) 0 0] in
  retrieve_C_beta_coords chain_df = [(1, 0, 0); (11 # 10, 0, 0)]
  /\ map residue_number (representative_atoms chain_df) = [7%Z; 7%Z]
  /\ ~ NoDup (map residue_number (representative_atoms chain_df)).
Proof.
  cbv zeta. split; [reflexivity|]. split; [reflexivity|].
  intros H. change (NoDup [7%Z; 7%Z]) in H.
  inversion H as [|? ? Hnotin _]. apply Hnotin. now left.
Qed.

(** The positions at which a mask holds, in increasing order. *)
Lemma where_row_positions_sorted (i j : nat) (row : list bool) :
  StronglySorted lt (map snd (where_row i j row)).
Proof.
  revert j. induction row as [|c row IH]; intros j; simpl; [constructor|].
  destruct c; [|apply IH].
  simpl. constructor; [apply IH|].
  rewrite Forall_forall. intros b Hb.
  apply in_map_iff in Hb as [[a b'] [Hb Hin]]. simpl in Hb. subst b'.
  apply where_row_In in Hin as [_ [Hlt _]]. lia.
Qed.

(** Selecting with a mask keeps the rows at these positions, in order. *)
Lemma filter_where_row {A : Type} (keep : A -> bool) (l : list A) (i j : nat) :
  map Some (filter keep l)
  = map (fun k => nth_error l (k - j)) (map snd (where_row i j (map keep l))).
Proof.
  revert j. induction l as [|a l IH]; intros j; [reflexivity|].
  assert (Hrest : map (fun k => nth_error (a :: l) (k - j))
                      (map snd (where_row i (S j) (map keep l)))
                  = map Some (filter keep l)).
  { rewrite (IH (S j)). apply map_ext_in. intros k Hk.
    apply in_map_iff in Hk as [[a' k'] [Hk Hin]]. simpl in Hk. subst k'.
    apply where_row_In in Hin as [_ [Hlt _]].
    replace (k - j)%nat with (S (k - S j)) by lia. reflexivity. }
  cbn [map filter where_row]. destruct (keep a).
  - cbn [map snd]. rewrite Nat.sub_diag, Hrest. reflexivity.
  - symmetry. exact Hrest.
Qed.

(** C9, amended.  [retrieve_C_beta_coords] returns the coordinates of the
    selected records in table order: there are increasing row positions,
    exactly those of the beta-carbon records and of the alpha-carbon records
    of glycines, such that the result lists the coordinates of the rows at
    these positions.  A residue with no such record contributes none; and in
    a chain table that lists every atom of a residue once, at most one
    record per residue index is selected. *)
Theorem retrieve_C_beta_coords_one_per_residue (chain_df : list atom) :
  (exists positions : list nat,
      StronglySorted lt positions
      /\ (forall k, In k positions
                    <-> exists a, nth_error chain_df k = Some a
                                  /\ is_representative a)
      /\ map Some (representative_atoms chain_df)
         = map (nth_error chain_df) positions
      /\ map Some (retrieve_C_beta_coords chain_df)
         = map (fun k => option_map (fun a => (x_coord a, y_coord a, z_coord a))
                                    (nth_error chain_df k))
               positions)
  /\ (forall a, In a (representative_atoms chain_df)
                <-> In a chain_df /\ is_representative a)
  /\ (forall n,
         (forall a, In a chain_df -> residue_number a = n -> ~ is_representative a) ->
         ~ In n (map residue_number (representative_atoms chain_df)))
  /\ (one_record_per_atom chain_df ->
      NoDup (map residue_number (representative_atoms chain_df))).
Proof.
  assert (Hsel : forall a, In a (representative_atoms chain_df)
                           <-> In a chain_df /\ is_representative a).
  { intros a. unfold representative_atoms.
    rewrite filter_In, C_beta_mask_spec. reflexivity. }
  split; [|split; [exact Hsel|split]].
  - exists (map snd (where_row 0 0 (map C_beta_mask chain_df))).
    assert (Hrows : map Some (representative_atoms chain_df)
                    = map (nth_error chain_df)
                          (map snd (where_row 0 0 (map C_beta_mask chain_df)))).
    { unfold representative_atoms.
      rewrite (filter_where_row C_beta_mask chain_df 0 0).
      apply map_ext. intros k. now rewrite Nat.sub_0_r. }
    split; [apply where_row_positions_sorted|]. split; [|split; [exact Hrows|]].
    + intros k. split.
      * intros Hk. apply in_map_iff in Hk as [[i k'] [Hk Hin]].
        simpl in Hk. subst k'.
        apply where_row_In in Hin as [_ [_ Hn]].
        rewrite Nat.sub_0_r, nth_error_map in Hn.
        destruct (nth_error chain_df k) as [a|]; [|discriminate].
        simpl in Hn. injection Hn as Hn.
        exists a. split; [reflexivity|now apply C_beta_mask_spec].
      * intros [a [Ha Hrep]]. apply in_map_iff. exists (0%nat, k).
        split; [reflexivity|]. apply where_row_In.
        split; [reflexivity|]. split; [lia|].
        rewrite Nat.sub_0_r, nth_error_map, Ha. simpl. f_equal.
        now apply C_beta_mask_spec.
    + unfold retrieve_C_beta_coords.
      transitivity (map (option_map (fun a => (x_coord a, y_coord a, z_coord a)))
                        (map Some (representative_atoms chain_df))).
      * now rewrite !map_map.
      * rewrite Hrows. now rewrite map_map.
  - intros n Hnone Hin. apply in_map_iff in Hin as [a [Hn Ha]].
    apply Hsel in Ha as [Ha Hrep]. exact (Hnone a Ha Hn Hrep).
  - intros Hwf. unfold representative_atoms.
    apply NoDup_map_filter with (R := compatible_records); [|exact Hwf].
    intros a b Hab Ka Kb Heq.
    apply C_beta_mask_spec in Ka, Kb.
    destruct (Hab Heq) as [Hname [Hatom Hgly]].
    destruct Ka as [Ka|[Ga Ka]], Kb as [Kb|[Gb Kb]].
    + apply Hatom. congruence.
    + assert (Ga : residue_name a = "GLY") by congruence.
      destruct (Hgly Ga) as [Hn _]. exact (Hn Ka).
    + destruct (Hgly Ga) as [_ Hn]. exact (Hn Kb).
    + apply Hatom. congruence.
Qed.

Lemma retrieve_C_beta_coords_one_per_residue_witness :
  let chain_df := [atom_at "A" 1 "ALA" "CA" 0 0 0;
                   atom_at "A" 1 "ALA" "CB" 1 0 0;
                   atom_at "A" 2 "GLY" "CA" 3 0 0;
                   atom_at "A" 3 "MET" "CA" 9 9 9] in
  one_record_per_atom chain_df
  /\ NoDup (map residue_number (representative_atoms chain_df)).
Proof.
  cbv zeta.
  assert (Hwf : one_record_per_atom
                  [atom_at "A" 1 "ALA" "CA" 0 0 0;
                   atom_at "A" 1 "ALA" "CB" 1 0 0;
                   atom_at "A" 2 "GLY" "CA" 3 0 0;
                   atom_at "A" 3 "MET" "CA" 9 9 9]).
  { unfold one_record_per_atom.
    repeat apply FOP_cons; try apply FOP_nil;
      repeat apply Forall_cons; try apply Forall_nil;
      unfold compatible_records; simpl; intros H; try discriminate H;
      (split; [reflexivity|split; [discriminate|intros G; discriminate G]]). }
  split; [exact Hwf|].
  exact (proj2 (proj2 (proj2 (retrieve_C_beta_coords_one_per_residue _))) Hwf).
Defined.

(** ** 4.4 The binding energy adapter *)

Lemma dict_get_raises {V : Type} (d : list (string * V)) (k : string) (e : exn) :
  dict_get d k = Raise e -> e = KeyError.
Proof.
  induction d as [|[k' v] d IH]; simpl.
  - congruence.
  - destruct (k' =? k)%string; [discriminate|exact IH].
Qed.

(** C3 fails on the code.  The writer keeps only the last structure set, so
    the file read back as the complex holds chain 2 alone: the three poses are
    (chain 2, chain 1, chain 2) and the value returned is
    [sfxn chain_2 - sfxn chain_1 - sfxn chain_2], whatever the oracle. *)
Theorem calculate_binding_energy_complex_is_chain_2
        (sfxn : structure -> Q) (self : PDBAnalyser)
        (chain_1_id chain_2_id : string) (chain_1 chain_2 : structure) :
  dict_get (pdb self) chain_1_id = Ok chain_1 ->
  dict_get (pdb self) chain_2_id = Ok chain_2 ->
  binding_energy_poses self chain_1_id chain_2_id = Ok (chain_2, chain_1, chain_2)
  /\ calculate_binding_energy sfxn self chain_1_id chain_2_id
     = Ok (sfxn chain_2 - sfxn chain_1 - sfxn chain_2).
Proof.
  intros H1 H2. unfold calculate_binding_energy, binding_energy_poses.
  rewrite H1, H2. simpl. split; reflexivity.
Qed.

Lemma calculate_binding_energy_complex_is_chain_2_witness :
  let a := atom_at "A" 1 "ALA" "CB" 0 0 0 in
  let b := atom_at "B" 1 "ALA" "CB" 0 4 0 in
  let self := PDBAnalyser_init [a; b] [("A", [a]); ("B", [b])] in
  dict_get (pdb self) "A" = Ok [a]
  /\ dict_get (pdb self) "B" = Ok [b]
  /\ binding_energy_poses self "A" "B" = Ok ([b], [a], [b])
  /\ calculate_binding_energy atom_count self "A" "B"
     = Ok (atom_count [b] - atom_count [a] - atom_count [b]).
Proof.
  cbv zeta. split; [reflexivity|]. split; [reflexivity|].
  exact (@calculate_binding_energy_complex_is_chain_2
           atom_count
           (PDBAnalyser_init
              [atom_at "A" 1 "ALA" "CB" 0 0 0; atom_at "B" 1 "ALA" "CB" 0 4 0]
              [("A", [atom_at "A" 1 "ALA" "CB" 0 0 0]);
               ("B", [atom_at "B" 1 "ALA" "CB" 0 4 0])])
           "A" "B" _ _ eq_refl eq_refl).
Defined.

Lemma calculate_binding_energy_raises (sfxn : structure -> Q) (self : PDBAnalyser)
      (chain_1_id chain_2_id : string) (e : exn) :
  calculate_binding_energy sfxn self chain_1_id chain_2_id = Raise e ->
  e = KeyError.
Proof.
  unfold calculate_binding_energy, binding_energy_poses.
  destruct (dict_get (pdb self) chain_1_id) eqn:E1; simpl.
  - destruct (dict_get (pdb self) chain_2_id) eqn:E2; simpl; [discriminate|].
    intros H. injection H as <-. exact (dict_get_raises _ _ E2).
  - intros H. injection H as <-. exact (dict_get_raises _ _ E1).
Qed.

(** ** 4.5 The sentinel branch of the quality adapter *)

(** C2 fails on the code.  Whenever the [except] branch is entered (no work
    directory, or no readable feature table in it) the set display
    [{filtered_df}] hashes a dict and the adapter raises [TypeError] from
    inside the handler: no sentinel row is returned.  A feature table with
    rows next to a missing score file is not caught at all: the adapter
    raises there too. *)
Theorem run_and_summarise_pi_score_sentinel_raises (interface_name : string) :
  sentinel_record interface_name = Raise TypeError
  /\ run_and_summarise_pi_score NoDirectory interface_name = Raise TypeError
  /\ (forall pi_score_file,
         run_and_summarise_pi_score (NoFeatureTable pi_score_file) interface_name
         = Raise TypeError)
  /\ (forall features,
         shape0 features <> 0%nat ->
         raises (run_and_summarise_pi_score (FeatureTable features None)
                                            interface_name)).
Proof.
  split; [reflexivity|]. split; [reflexivity|]. split; [intros f; reflexivity|].
  intros features Hrows. unfold run_and_summarise_pi_score. simpl bind.
  destruct (shape0 features =? 0)%nat eqn:E0; [apply Nat.eqb_eq in E0; contradiction|].
  unfold merge_feature_and_score_tables.
  destruct (propagate (mirror_interfaces features)) as [df|e]; simpl.
  - now exists IndexError.
  - now exists e.
Qed.

(** ** 4.6 The guard of the orchestrator *)

Lemma pae_loop_raises (M : ndarray2) (P : list (nat * nat)) (acc : Q) (e : exn) :
  pae_loop M P acc = Raise e -> e = IndexError.
Proof.
  revert acc. induction P as [|[i j] P IH]; intros acc; simpl; [discriminate|].
  unfold subscript2, subscript.
  destruct (nth_error M i) as [r|]; simpl; [|congruence].
  destruct (nth_error r j); simpl; [|congruence].
  destruct (nth_error M j) as [r'|]; simpl; [|congruence].
  destruct (nth_error r' i); simpl; [|congruence].
  apply IH.
Qed.

Lemma plddt_loop_raises (p1 p2 : list Q) (P : list (nat * nat)) (acc : Q) (e : exn) :
  plddt_loop p1 p2 P acc = Raise e -> e = IndexError.
Proof.
  revert acc. induction P as [|[i j] P IH]; intros acc; simpl; [discriminate|].
  unfold subscript.
  destruct (nth_error p1 i); simpl; [|congruence].
  destruct (nth_error p2 j); simpl; [|congruence].
  apply IH.
Qed.

Lemma calculate_average_pae_raises (M : ndarray2) (r1 r2 : list nat) (e : exn) :
  r1 <> [] -> calculate_average_pae M r1 r2 = Raise e -> e = IndexError.
Proof.
  intros Hne. unfold calculate_average_pae.
  destruct (pae_loop M (combine r1 r2) 0) eqn:E; simpl.
  - destruct r1; [congruence|]. simpl. discriminate.
  - intros H. injection H as <-. exact (pae_loop_raises _ _ _ E).
Qed.

Lemma calculate_average_plddt_raises {SI : SetIteration} (p1 p2 : list Q)
      (r1 r2 : list nat) (e : exn) :
  r1 <> [] -> calculate_average_plddt p1 p2 r1 r2 = Raise e -> e = IndexError.
Proof.
  intros Hne. unfold calculate_average_plddt.
  destruct (plddt_loop p1 p2 (combine (set_iter r1) (set_iter r2)) 0) eqn:E; simpl.
  - destruct r1 as [|x r1]; [congruence|].
    assert (Hx : In x (set_iter (x :: r1))) by (apply set_iter_In; now left).
    destruct (set_iter (x :: r1)); [contradiction|]. simpl. discriminate.
  - intros H. injection H as <-. exact (plddt_loop_raises _ _ _ _ E).
Qed.

(** C6, amended.  The emptiness check is the orchestrator's, not the
    aggregator's: when the detector reports no interface the three
    measurements are the sentinel strings and neither aggregator is called;
    when it reports residues, the arrays handed to [calculate_average_pae]
    are non-empty, so its division cannot fail; in either case the
    measurements of a pair never end in a division error. *)
Theorem orchestrator_checks_no_interface_first
        {SI : SetIteration} (sfxn : structure -> Q) (self : PDBAnalyser)
        (pae_mtx : ndarray2) (chain_1_id chain_2_id : string)
        (chain_1_plddt chain_2_plddt : list Q)
        (chain_df_1 chain_df_2 : list atom) (cutoff : Q) :
  let found := obtain_interface_residues chain_df_1 chain_df_2 cutoff in
  let measured := interface_measurements sfxn self pae_mtx chain_1_id chain_2_id
                    chain_1_plddt chain_2_plddt found in
  (found = None ->
   measured = Ok (no_interface_residues, no_interface_residues, Str "None"))
  /\ (forall residues_1 residues_2,
         found = Some (residues_1, residues_2) ->
         residues_1 <> []
         /\ calculate_average_pae pae_mtx residues_1 residues_2
            <> Raise ZeroDivisionError)
  /\ measured <> Raise ZeroDivisionError.
Proof.
  intros found measured.
  assert (Hsome : forall r1 r2, found = Some (r1, r2) -> r1 <> []).
  { intros r1 r2 H. exact (proj1 (obtain_interface_residues_nonempty _ _ _ H)). }
  split; [|split].
  - intros H. subst measured. rewrite H. reflexivity.
  - intros r1 r2 H. split; [exact (Hsome _ _ H)|].
    intros Hz. apply calculate_average_pae_raises in Hz; [discriminate|].
    exact (Hsome _ _ H).
  - subst measured. destruct found as [[r1 r2]|] eqn:E; [|discriminate].
    specialize (Hsome r1 r2 eq_refl). simpl.
    destruct (calculate_average_pae pae_mtx r1 r2) eqn:E1; simpl.
    + destruct (calculate_binding_energy sfxn self chain_1_id chain_2_id) eqn:E2; simpl.
      * destruct (calculate_average_plddt chain_1_plddt chain_2_plddt r1 r2) eqn:E3;
          simpl; [discriminate|].
        apply calculate_average_plddt_raises in E3; [subst; discriminate|exact Hsome].
      * apply calculate_binding_energy_raises in E2. subst. discriminate.
    + apply calculate_average_pae_raises in E1; [subst; discriminate|exact Hsome].
Qed.

Lemma orchestrator_checks_no_interface_first_witness :
  let chain_a := [atom_at "A" 1 "ALA" "CB" 0 0 0] in
  let chain_b := [atom_at "B" 1 "ALA" "CB" 0 4 0] in
  let chain_c := [atom_at "C" 1 "ALA" "CB" 100 0 0] in
  obtain_interface_residues chain_a chain_c 12 = None
  /\ interface_measurements atom_count example_analyser [[1; 2]; [4; 1]]
       "A" "C" [90] [70] (obtain_interface_residues chain_a chain_c 12)
     = Ok (no_interface_residues, no_interface_residues, Str "None")
  /\ obtain_interface_residues chain_a chain_b 12 = Some ([0%nat], [0%nat])
  /\ calculate_average_pae [[1; 2]; [4; 1]] [0%nat] [0%nat]
     <> Raise ZeroDivisionError.
Proof.
  cbv zeta. split; [reflexivity|]. split; [|split; [reflexivity|]].
  - exact (proj1 (@orchestrator_checks_no_interface_first
                    ascending_iteration atom_count example_analyser
                    [[1; 2]; [4; 1]] "A" "C" [90] [70]
                    [atom_at "A" 1 "ALA" "CB" 0 0 0]
                    [atom_at "C" 1 "ALA" "CB" 100 0 0] 12) eq_refl).
  - exact (proj2 (proj1 (proj2 (@orchestrator_checks_no_interface_first
                    ascending_iteration atom_count example_analyser
                    [[1; 2]; [4; 1]] "A" "B" [90] [80]
                    [atom_at "A" 1 "ALA" "CB" 0 0 0]
                    [atom_at "B" 1 "ALA" "CB" 0 4 0] 12)) [0%nat] [0%nat] eq_refl)).
Defined.

(** ** Strings and lists *)

Lemma str_split_nonempty (sep : ascii) (s : string) : str_split sep s <> [].
Proof.
  destruct s as [|c s]; simpl; [discriminate|].
  destruct (Ascii.eqb c sep); [discriminate|].
  destruct (str_split sep s); discriminate.
Qed.

Lemma str_split_parts (sep : ascii) (s : string) :
  Forall (fun w => contains sep w = false) (str_split sep s).
Proof.
  induction s as [|c s IH]; simpl.
  - repeat constructor.
  - destruct (Ascii.eqb c sep) eqn:E.
    + constructor; [reflexivity|exact IH].
    + destruct (str_split sep s) as [|w ws]; [repeat constructor; simpl; now rewrite E|].
      inversion IH as [|? ? Hw Hws]; subst.
      constructor; [simpl; now rewrite E|exact Hws].
Qed.

Lemma str_split_single (sep : ascii) (s : string) :
  contains sep s = false -> str_split sep s = [s].
Proof.
  induction s as [|c s IH]; simpl; [reflexivity|].
  intros H. apply orb_false_iff in H as [Hc Hs].
  rewrite Hc, (IH Hs). reflexivity.
Qed.

Lemma str_split_append (sep : ascii) (a b : string) :
  contains sep a = false ->
  str_split sep (a ++ String sep b) = a :: str_split sep b.
Proof.
  induction a as [|c a IH]; simpl.
  - intros _. now rewrite Ascii.eqb_refl.
  - intros H. apply orb_false_iff in H as [Hc Ha].
    rewrite Hc, (IH Ha). reflexivity.
Qed.

Lemma str_split_one (sep : ascii) (s b : string) :
  str_split sep s = [b] -> s = b.
Proof.
  revert b. induction s as [|c s IH]; simpl; intros b.
  - congruence.
  - destruct (Ascii.eqb c sep).
    + intros H. injection H as _ H. now apply str_split_nonempty in H.
    + destruct (str_split sep s) as [|w ws] eqn:E.
      * now apply str_split_nonempty in E.
      * intros H. injection H as <- ->. now rewrite (IH w eq_refl).
Qed.

Lemma str_split_two (sep : ascii) (s a b : string) :
  str_split sep s = [a; b] -> s = (a ++ String sep b)%string.
Proof.
  revert a. induction s as [|c s IH]; simpl; intros a.
  - discriminate.
  - destruct (Ascii.eqb c sep) eqn:Ec.
    + intros H. injection H as <- H. apply str_split_one in H.
      apply Ascii.eqb_eq in Ec. subst. reflexivity.
    + destruct (str_split sep s) as [|w ws] eqn:E.
      * discriminate.
      * intros H. injection H as <- ->. now rewrite (IH w eq_refl).
Qed.

(** Splitting a swapped label gives the swapped parts. *)
Lemma str_split_swapped (label chain_1 chain_2 : string) :
  str_split underscore label = [chain_1; chain_2] ->
  str_split underscore (interface_label chain_2 chain_1) = [chain_2; chain_1]
  /\ interface_label chain_1 chain_2 = label.
Proof.
  intros H. pose proof (str_split_parts underscore label) as Hp.
  rewrite H in Hp. inversion Hp as [|? ? H1 Hp']; subst.
  inversion Hp' as [|? ? H2 _]; subst.
  split.
  - unfold interface_label. rewrite str_split_append by exact H2.
    now rewrite str_split_single by exact H1.
  - symmetry. now apply str_split_two.
Qed.

Lemma nth_not_default {A : Type} (i : nat) (l : list A) (d : A) :
  nth i l d <> d -> (i < length l)%nat.
Proof.
  intros H. destruct (Nat.lt_ge_cases i (length l)) as [Hlt|Hge]; [exact Hlt|].
  exfalso. apply H. now apply nth_overflow.
Qed.

Lemma nth_set_nth_same {A : Type} (i : nat) (v d : A) (l : list A) :
  (i < length l)%nat -> nth i (set_nth i v l) d = v.
Proof.
  revert i. induction l as [|x l IH]; intros [|i] H; simpl in *; try lia.
  - reflexivity.
  - apply IH. lia.
Qed.

Lemma set_nth_twice {A : Type} (i : nat) (v w : A) (l : list A) :
  set_nth i v (set_nth i w l) = set_nth i v l.
Proof.
  revert i. induction l as [|x l IH]; intros [|i]; simpl; try reflexivity.
  now rewrite IH.
Qed.

Lemma set_nth_same {A : Type} (i : nat) (d : A) (l : list A) :
  (i < length l)%nat -> set_nth i (nth i l d) l = l.
Proof.
  revert i. induction l as [|x l IH]; intros [|i] H; simpl in *; try lia.
  - reflexivity.
  - rewrite IH by lia. reflexivity.
Qed.

Lemma select_by_column {A : Type} (f : A -> bool) (g : A -> cell)
      (test : cell -> bool) (l : list A) :
  (forall x, f x = test (g x)) ->
  map fst (filter snd (combine l (map test (map g l)))) = filter f l.
Proof.
  intros H. induction l as [|x l IH]; simpl; [reflexivity|].
  rewrite <- H. destruct (f x); simpl; now rewrite IH.
Qed.

Lemma cell_eqb_Str (c : cell) (label : string) :
  cell_eqb c (Str label) = true <-> c = Str label.
Proof.
  destruct c as [s| |]; simpl; try (split; discriminate).
  rewrite String.eqb_eq. split; congruence.
Qed.

(** ** 4.5 The mirroring loop *)

(** One round appends, for the rows carrying the label, their copies under
    the swapped label. *)
Lemma mirror_step_eq (df : DataFrame) (i : nat) (label : string) :
  index_of "interface" (columns df) = Some i ->
  mirror_step df (Str label)
  = match str_split underscore label with
    | [chain_1; chain_2] =>
        Ok {| columns := columns df;
              rows := rows df
                      ++ map (set_nth i (Str (interface_label chain_2 chain_1)))
                             (filter (fun r => cell_eqb (nth i r NaN) (Str label))
                                     (rows df)) |}
    | _ => Raise ValueError
    end.
Proof.
  intros Hi. unfold mirror_step.
  destruct (str_split underscore label) as [|a [|b [|c rest]]]; try reflexivity.
  unfold getitem, column_values. rewrite Hi. simpl bind.
  unfold setitem_scalar, select_rows. simpl columns. rewrite Hi. simpl rows.
  unfold concat. simpl columns.
  destruct (list_eq_dec string_dec (columns df) (columns df)) as [_|Hne];
    [|congruence].
  simpl rows. do 4 f_equal.
  apply select_by_column with (g := fun r => nth i r NaN)
                              (test := fun c => cell_eqb c (Str label)).
  reflexivity.
Qed.

Lemma has_mirror_incl (i : nat) (t1 t2 : list (list cell)) (r : list cell) :
  incl t1 t2 -> has_mirror i t1 r -> has_mirror i t2 r.
Proof.
  intros Hincl [r' [Hm Hin]]. exists r'. split; [exact Hm|now apply Hincl].
Qed.

(** Once the loop is through without raising, every row has its mirror,
    provided each row that had none yet carried a label still to be
    processed. *)
Lemma mirror_loop_closed (i : nat) (labels : list cell) :
  forall df df',
    index_of "interface" (columns df) = Some i ->
    mirror_loop df labels = (df', None) ->
    (forall r, In r (rows df) ->
               has_mirror i (rows df) r \/ In (nth i r NaN) labels) ->
    columns df' = columns df
    /\ forall r, In r (rows df') -> has_mirror i (rows df') r.
Proof.
  induction labels as [|l labels IH]; intros df df' Hi Hloop Hinv; simpl in Hloop.
  - injection Hloop as <-. split; [reflexivity|].
    intros r Hr. destruct (Hinv r Hr) as [H|[]]. exact H.
  - destruct (mirror_step df l) as [df1|e] eqn:Estep; [|discriminate].
    destruct l as [label| |]; try discriminate.
    rewrite (mirror_step_eq _ _ Hi) in Estep.
    destruct (str_split underscore label) as [|a [|b [|c rest]]] eqn:Esplit;
      try discriminate.
    injection Estep as <-.
    destruct (str_split_swapped _ Esplit) as [Hswap Hlabel].
    match type of Hloop with
    | mirror_loop ?d _ = _ => destruct (IH d df') as [Hcols Hall]
    end; [exact Hi|exact Hloop| |split; [exact Hcols|exact Hall]].
    simpl rows. intros r Hr. apply in_app_or in Hr as [Hr|Hr].
    + destruct (Hinv r Hr) as [Hm|[Hl|Hl]].
      * left. eapply has_mirror_incl; [|exact Hm]. apply incl_appl, incl_refl.
      * left. exists (set_nth i (Str (interface_label b a)) r). split.
        -- unfold mirror_row. rewrite <- Hl, Esplit. reflexivity.
        -- apply in_or_app. right. apply in_map. apply filter_In.
           split; [exact Hr|]. apply cell_eqb_Str. now symmetry.
      * right. exact Hl.
    + left. apply in_map_iff in Hr as [r0 [<- Hr0]].
      apply filter_In in Hr0 as [Hr0 Heq]. apply cell_eqb_Str in Heq.
      assert (Hlen : (i < length r0)%nat).
      { apply nth_not_default with (d := NaN). rewrite Heq. discriminate. }
      exists r0. split.
      * unfold mirror_row. rewrite (nth_set_nth_same _ _ _ Hlen), Hswap.
        rewrite set_nth_twice, Hlabel, <- Heq. f_equal.
        now apply set_nth_same.
      * apply in_or_app. now left.
Qed.

Lemma has_mirror_splits (i : nat) (table : list (list cell)) (r : list cell) :
  has_mirror i table r -> splits_in_two (nth i r NaN).
Proof.
  intros [r' [Hm _]]. unfold mirror_row in Hm.
  destruct (nth i r NaN) as [label| |]; try discriminate.
  destruct (str_split underscore label) as [|a [|b [|c rest]]] eqn:E;
    try discriminate.
  now exists label, a, b.
Qed.

(** The loop does not raise on labels that split in two. *)
Lemma mirror_loop_total (i : nat) (labels : list cell) :
  Forall splits_in_two labels ->
  forall df, index_of "interface" (columns df) = Some i ->
             exists df', mirror_loop df labels = (df', None).
Proof.
  induction 1 as [|l labels [label [a [b [-> Hsplit]]]] _ IH]; intros df Hi;
    cbn [mirror_loop].
  - now exists df.
  - rewrite (mirror_step_eq _ _ Hi), Hsplit. apply IH. exact Hi.
Qed.

(** The loop started on the labels of the frame itself. *)
Lemma mirror_interfaces_closed (df df' : DataFrame) (i : nat) :
  index_of "interface" (columns df) = Some i ->
  mirror_interfaces df = (df', None) ->
  columns df' = columns df
  /\ forall r, In r (rows df') -> has_mirror i (rows df') r.
Proof.
  intros Hi. unfold mirror_interfaces, getattr, column_values. rewrite Hi.
  intros Hloop. apply (mirror_loop_closed _ _ Hi Hloop).
  intros r Hr. right.
  exact (in_map (fun r0 : list cell => nth i r0 NaN) _ _ Hr).
Qed.

(** ** 4.5 Joining and dropping keep the labels *)

Lemma bind_Ok {A B : Type} (m : result A) (k : A -> result B) (b : B) :
  bind m k = Ok b -> exists a, m = Ok a /\ k a = Ok b.
Proof.
  destruct m as [a|e]; simpl; [|discriminate]. intros H. now exists a.
Qed.

Lemma suffix_x_not_interface (c : string) : (c ++ "_x")%string <> "interface".
Proof.
  intros H.
  repeat (destruct c as [|? c]; simpl in H; [discriminate H|]; injection H as _ H).
  destruct c; discriminate H.
Qed.

Lemma index_of_some (c : string) (cols : list string) (i : nat) :
  index_of c cols = Some i -> nth i cols EmptyString = c /\ (i < length cols)%nat.
Proof.
  revert i. induction cols as [|c' cols IH]; intros i; simpl; [discriminate|].
  destruct (c' =? c)%string eqn:E.
  - intros H. injection H as <-. apply String.eqb_eq in E. split; [exact E|lia].
  - destruct (index_of c cols) as [j|]; simpl; [|discriminate].
    intros H. injection H as <-. destruct (IH j eq_refl). split; [assumption|lia].
Qed.

(** The key column of the left frame keeps its place in the joined frame. *)
Lemma index_of_merged_key (other rest lcols : list string) (i : nat) :
  index_of "interface" lcols = Some i ->
  index_of "interface" (map (suffixed "interface" other "_x") lcols ++ rest)
  = Some i.
Proof.
  revert i. induction lcols as [|c lcols IH]; intros i; simpl; [discriminate|].
  destruct (c =? "interface")%string eqn:E.
  - intros H. injection H as <-. unfold suffixed. rewrite E. simpl. now rewrite E.
  - destruct (index_of "interface" lcols) as [j|]; simpl; [|discriminate].
    intros H. injection H as <-.
    assert (Hs : (suffixed "interface" other "_x" c =? "interface")%string = false).
    { unfold suffixed. rewrite E. simpl.
      destruct (has_column other c); [|exact E].
      apply String.eqb_neq. apply suffix_x_not_interface. }
    rewrite Hs, (IH j eq_refl). reflexivity.
Qed.

Lemma merge_inner_rows (left right merged : DataFrame) :
  merge Inner left right "interface" = Ok merged ->
  exists i,
    index_of "interface" (columns left) = Some i
    /\ index_of "interface" (columns merged) = Some i
    /\ forall r, In r (rows merged) ->
                 exists l tail, In l (rows left) /\ r = l ++ tail.
Proof.
  unfold merge.
  destruct (index_of "interface" (columns left)) as [il|] eqn:El; [|discriminate].
  destruct (index_of "interface" (columns right)) as [ir|] eqn:Er; [|discriminate].
  intros H. injection H as <-. exists il. split; [reflexivity|]. split.
  - simpl columns. now apply index_of_merged_key.
  - simpl rows. intros r Hr. apply in_flat_map in Hr as [l [Hl Hr]].
    exists l.
    destruct (filter (fun r0 => cell_eqb (nth il l NaN) (nth ir r0 NaN)) (rows right))
      as [|m ms]; [contradiction|].
    apply in_map_iff in Hr as [r0 [<- _]]. eexists. split; [exact Hl|reflexivity].
Qed.

Lemma prune_with_nth {A : Type} (keep : list bool) (l : list A) (i : nat) (d : A) :
  nth i keep false = true -> (i < length l)%nat ->
  nth (new_index keep i) (prune_with keep l) d = nth i l d.
Proof.
  unfold new_index, prune_with.
  revert l i. induction keep as [|k keep IH]; intros l i Hk Hl.
  - destruct i; discriminate.
  - destruct l as [|x l]; [simpl in Hl; lia|].
    destruct i as [|i]; simpl in *.
    + subst k. reflexivity.
    + destruct k; simpl; apply IH; auto; lia.
Qed.

Lemma prune_with_index_of (keepfn : string -> bool) (c : string)
      (cols : list string) (i : nat) :
  keepfn c = true ->
  index_of c cols = Some i ->
  index_of c (prune_with (map keepfn cols) cols)
  = Some (new_index (map keepfn cols) i).
Proof.
  intros Hc. unfold new_index, prune_with.
  revert i. induction cols as [|c' cols IH]; intros i; simpl; [discriminate|].
  destruct (c' =? c)%string eqn:E.
  - intros H. injection H as <-. apply String.eqb_eq in E. subst c'.
    rewrite Hc. simpl. now rewrite String.eqb_refl.
  - destruct (index_of c cols) as [j|]; simpl; [|discriminate].
    intros H. injection H as <-.
    destruct (keepfn c'); simpl.
    + rewrite E, (IH j eq_refl). reflexivity.
    + apply IH. reflexivity.
Qed.

Lemma drop_bookkeeping_labels (df dropped : DataFrame) (i : nat) :
  drop df bookkeeping_columns = Ok dropped ->
  index_of "interface" (columns df) = Some i ->
  exists i',
    index_of "interface" (columns dropped) = Some i'
    /\ forall r, In r (rows dropped) ->
                 exists r0, In r0 (rows df)
                            /\ ((i < length r0)%nat -> nth i' r NaN = nth i r0 NaN).
Proof.
  unfold drop.
  destruct (forallb (has_column (columns df)) bookkeeping_columns); [|discriminate].
  intros H Hi. injection H as <-.
  set (keepfn := fun c => negb (has_column bookkeeping_columns c)).
  exists (new_index (map keepfn (columns df)) i). split.
  - simpl columns. now apply prune_with_index_of.
  - simpl rows. intros r Hr. apply in_map_iff in Hr as [r0 [<- Hr0]].
    exists r0. split; [exact Hr0|]. intros Hlen.
    apply prune_with_nth; [|exact Hlen].
    destruct (index_of_some _ _ Hi) as [Hnth Hlt].
    rewrite nth_indep with (d' := keepfn EmptyString)
      by (rewrite length_map; exact Hlt).
    rewrite map_nth, Hnth. reflexivity.
Qed.

(** ** 4.5 Mirrored labels *)

(** C5, as stated, fails: when the joined table lacks one of the
    bookkeeping columns the drop raises, the exception is swallowed together
    with the mirroring loop that follows it, and the table is returned with
    the labels of the score table only. *)
Lemma run_and_summarise_pi_score_not_mirrored :
  exists table,
    run_and_summarise_pi_score
      (FeatureTable example_features (Some (ScoreTable example_scores))) "A_B"
    = Ok table
    /\ In [Str "ranked_0"; Str "A_B"; Num 5; Str "ranked_0"; Str "A_B"; Num 1;
           Num (3 # 2)] (rows table)
    /\ (forall r, In r (rows table) -> nth 1 r NaN <> Str "B_A")
    /\ ~ mirrored table.
Proof.
  eexists. split; [vm_compute; reflexivity|].
  split; [now left|]. split.
  - intros r [<-|[<-|[]]]; discriminate.
  - intros [i [Hi Hall]]. vm_compute in Hi. injection Hi as <-.
    destruct (Hall _ (or_introl eq_refl)) as [r' [Hm Hin]].
    vm_compute in Hm. injection Hm as <-.
    destruct Hin as [H|[H|[]]]; discriminate H.
Qed.

(** C5, amended.  When the feature table has rows, the join of line 201 is
    reached and the joined table holds all five bookkeeping columns, the
    adapter returns a table in which every row is labelled ["A_B"] and the
    row labelled ["B_A"] with the same values in every other column is
    present too. *)
Theorem run_and_summarise_pi_score_mirrored
        (features merged : DataFrame) (pi_score_file : option score_file)
        (interface_name : string) :
  shape0 features <> 0%nat ->
  merge_feature_and_score_tables features (Bound pi_score_file) = Ok merged ->
  forallb (has_column (columns merged)) bookkeeping_columns = true ->
  exists table,
    run_and_summarise_pi_score (FeatureTable features pi_score_file) interface_name
    = Ok table
    /\ mirrored table.
Proof.
  intros Hrows Hmerged Hcols.
  unfold run_and_summarise_pi_score. simpl bind.
  destruct (shape0 features =? 0)%nat eqn:E0; [apply Nat.eqb_eq in E0; contradiction|].
  rewrite Hmerged. simpl bind.
  (* the first loop went through: every row of the mirrored feature table
     has a label that splits in two *)
  unfold merge_feature_and_score_tables in Hmerged.
  apply bind_Ok in Hmerged as [mirrored_features [Hloop Hmerged]].
  apply bind_Ok in Hmerged as [files [_ Hmerged]].
  apply bind_Ok in Hmerged as [pi_score [_ Hmerged]].
  apply bind_Ok in Hmerged as [chains [_ Hmerged]].
  apply bind_Ok in Hmerged as [pi_score' [_ Hmerged]].
  assert (Hfirst : mirror_interfaces features = (mirrored_features, None)).
  { destruct (mirror_interfaces features) as [d [e|]]; simpl in Hloop;
      [discriminate|congruence]. }
  destruct (index_of "interface" (columns features)) as [i0|] eqn:Hi0.
  2:{ unfold mirror_interfaces, getattr, column_values in Hfirst.
      rewrite Hi0 in Hfirst. discriminate. }
  destruct (mirror_interfaces_closed _ Hi0 Hfirst) as [Hcols1 Hclosed1].
  (* the join keeps the labels of the left rows *)
  destruct (merge_inner_rows _ _ Hmerged) as [i [Hil [Him Hrows_m]]].
  rewrite Hcols1, Hi0 in Hil. injection Hil as <-.
  assert (Hlabels_m : forall r, In r (rows merged) ->
                                (i0 < length r)%nat /\ splits_in_two (nth i0 r NaN)).
  { intros r Hr. destruct (Hrows_m r Hr) as [l [tail [Hl ->]]].
    pose proof (has_mirror_splits (Hclosed1 l Hl)) as Hs.
    assert (Hlen : (i0 < length l)%nat).
    { apply nth_not_default with (d := NaN).
      destruct Hs as [label [a [b [-> _]]]]. discriminate. }
    split; [rewrite length_app; lia|]. now rewrite app_nth1. }
  (* so does the drop *)
  destruct (drop merged bookkeeping_columns) as [dropped|e] eqn:Edrop.
  2:{ unfold drop in Edrop. rewrite Hcols in Edrop. discriminate. }
  destruct (drop_bookkeeping_labels _ Edrop Him) as [i' [Hi' Hrows_d]].
  assert (Hlabels_d : Forall splits_in_two
                             (map (fun r => nth i' r NaN) (rows dropped))).
  { rewrite Forall_forall. intros c Hc. apply in_map_iff in Hc as [r [<- Hr]].
    destruct (Hrows_d r Hr) as [r0 [Hr0 Hnth]].
    destruct (Hlabels_m r0 Hr0) as [Hlen Hs]. now rewrite (Hnth Hlen). }
  (* the last loop goes through and closes every row *)
  destruct (mirror_loop_total Hlabels_d dropped Hi') as [table Htable].
  assert (Hlast : mirror_interfaces dropped = (table, None)).
  { unfold mirror_interfaces, getattr, column_values. now rewrite Hi'. }
  rewrite Hlast. simpl fst. exists table. split; [reflexivity|].
  destruct (mirror_interfaces_closed _ Hi' Hlast) as [Hcols_t Hclosed_t].
  exists i'. split; [now rewrite Hcols_t|exact Hclosed_t].
Qed.

Lemma run_and_summarise_pi_score_mirrored_witness :
  shape0 example_features <> 0%nat
  /\ (exists merged,
         merge_feature_and_score_tables example_features
           (Bound (Some (ScoreTable example_scores_with_pvalue))) = Ok merged
         /\ forallb (has_column (columns merged)) bookkeeping_columns = true)
  /\ exists table,
      run_and_summarise_pi_score
        (FeatureTable example_features
                      (Some (ScoreTable example_scores_with_pvalue))) "A_B"
      = Ok table
      /\ mirrored table.
Proof.
  split; [discriminate|]. split.
  - eexists. split; [vm_compute; reflexivity|reflexivity].
  - refine (@run_and_summarise_pi_score_mirrored
              example_features _ (Some (ScoreTable example_scores_with_pvalue))
              "A_B" _ _ _).
    + discriminate.
    + vm_compute. reflexivity.
    + reflexivity.
Defined.

(** ** 4.6 The orchestrator and the quality fragments *)

Section OrchestratorLoop.

Context {SI : SetIteration}.
Variable sfxn : structure -> Q.
Variable piscore_tool : nat -> work_dir_state.
Variable self : PDBAnalyser.
Variable pae_mtx : ndarray2.
Variable plddt : list (string * list Q).
Variable cutoff : Q.

Let step := pair_step sfxn piscore_tool self pae_mtx plddt cutoff.
Let loop := pair_loop sfxn piscore_tool self pae_mtx plddt cutoff.

Lemma concat_rows_length (a b : DataFrame) :
  length (rows (concat a b)) = (length (rows a) + length (rows b))%nat.
Proof.
  unfold concat.
  destruct (list_eq_dec string_dec (columns a) (columns b)); simpl;
    now rewrite length_app, ?length_map.
Qed.

(** What one round of the loop leaves in the loop variables. *)
Lemma pair_step_Ok (st st' : loop_state) (k chain_1_id chain_2_id : string) :
  step st (k, (chain_1_id, chain_2_id)) = Ok st' ->
  tool_runs st' = S (tool_runs st)
  /\ length (rows (output_df st')) = S (length (rows (output_df st)))
  /\ exists fragment,
      calculate_pi_score piscore_tool (tool_runs st)
                         (interface_label chain_1_id chain_2_id) = Ok fragment
      /\ pi_score_df st' = Bound fragment.
Proof.
  unfold step, pair_step. cbn [snd]. intros H.
  apply bind_Ok in H as [fragment [Hfrag H]].
  apply bind_Ok in H as [p1 [_ H]].
  apply bind_Ok in H as [p2 [_ H]].
  apply bind_Ok in H as [[[pae pl] be] [_ H]].
  apply bind_Ok in H as [other [Hother H]].
  injection H as <-. cbn [tool_runs output_df pi_score_df].
  split; [reflexivity|]. split.
  - rewrite concat_rows_length. injection Hother as <-. simpl. lia.
  - now exists fragment.
Qed.

Lemma fold_left_Raise (pairs : list (string * (string * string))) (e : exn) :
  fold_left (fun acc kv => st <- acc ;; step st kv) pairs (Raise e) = Raise e.
Proof. induction pairs as [|kv pairs IH]; simpl; [reflexivity|exact IH]. Qed.

Lemma pair_loop_snoc (pairs : list (string * (string * string)))
      (kv : string * (string * string)) (st : loop_state) :
  loop (pairs ++ [kv]) st = (st' <- loop pairs st ;; step st' kv).
Proof.
  unfold loop, pair_loop. now rewrite fold_left_app.
Qed.

Lemma pair_loop_cons (pairs : list (string * (string * string)))
      (kv : string * (string * string)) (st : loop_state) :
  loop (kv :: pairs) st = (st' <- step st kv ;; loop pairs st').
Proof.
  unfold loop, pair_loop. simpl. fold step.
  destruct (step st kv) as [st'|e]; simpl; [reflexivity|apply fold_left_Raise].
Qed.

(** The loop calls the tool once per pair and adds one record per pair. *)
Lemma pair_loop_counts (pairs : list (string * (string * string))) :
  forall st st',
    loop pairs st = Ok st' ->
    tool_runs st' = (tool_runs st + length pairs)%nat
    /\ length (rows (output_df st'))
       = (length (rows (output_df st)) + length pairs)%nat.
Proof.
  induction pairs as [|[k [c1 c2]] pairs IH]; intros st st' H.
  - injection H as <-. simpl. lia.
  - rewrite pair_loop_cons in H. apply bind_Ok in H as [st1 [H1 H]].
    apply pair_step_Ok in H1 as [Hruns [Hrows _]].
    destruct (IH _ _ H) as [Hr Hl]. simpl. lia.
Qed.

(** The table returned is the per-pair records left-joined with one quality
    fragment: the one of the run made for the last pair. *)
Lemma call_merges_last_fragment
      (pairs : list (string * (string * string)))
      (k chain_1_id chain_2_id : string) (table : DataFrame) :
  chain_combinations self = ChainPairs (pairs ++ [(k, (chain_1_id, chain_2_id))]) ->
  __call__ sfxn piscore_tool self pae_mtx plddt cutoff = Ok table ->
  exists st fragment,
    calculate_pi_score piscore_tool (length pairs)
                       (interface_label chain_1_id chain_2_id) = Ok fragment
    /\ length (rows (output_df st)) = S (length pairs)
    /\ merge Left (output_df st) fragment "interface" = Ok table.
Proof.
  intros Hpairs. unfold __call__. rewrite Hpairs. fold loop.
  rewrite pair_loop_snoc. intros H.
  apply bind_Ok in H as [st [Hst H]].
  apply bind_Ok in Hst as [st0 [Hst0 Hstep]].
  apply pair_loop_counts in Hst0 as [Hruns Hrows]. simpl in Hruns, Hrows.
  apply pair_step_Ok in Hstep as [_ [Hrows' [fragment [Hfrag Hbound]]]].
  rewrite Hruns in Hfrag. rewrite Hbound in H. simpl in H.
  exists st, fragment. repeat split; [exact Hfrag|lia|exact H].
Qed.

End OrchestratorLoop.

(** A left join adds no record and loses none when every key of the left
    frame meets at most one row of the right frame. *)
Lemma merge_left_one_row_each (left right merged : DataFrame) (key : string)
      (ir : nat) :
  merge Left left right key = Ok merged ->
  index_of key (columns right) = Some ir ->
  (forall c, (length (filter (fun r => cell_eqb c (nth ir r NaN)) (rows right))
              <= 1)%nat) ->
  length (rows merged) = length (rows left).
Proof.
  unfold merge. intros H Hir Huniq. rewrite Hir in H.
  destruct (index_of key (columns left)) as [il|]; [|discriminate].
  injection H as <-. simpl rows.
  induction (rows left) as [|l ls IH]; simpl; [reflexivity|].
  rewrite length_app, IH. f_equal.
  specialize (Huniq (nth il l NaN)).
  destruct (filter (fun r => cell_eqb (nth il l NaN) (nth ir r NaN)) (rows right))
    as [|m [|m' ms]]; simpl in *; try reflexivity. lia.
Qed.

(** C4 fails on the code.  Three chains, hence three pairs; the tool reports
    every interface on the runs made for A_B and A_C and only B_C on the run
    made for B_C.  The fragment of the run made for A_B holds the quality
    values of A_B, yet the final table, which has one record per pair, leaves
    the quality columns of A_B and A_C empty: the join is made once, after the
    loop, with the fragment of the last run. *)
Theorem call_joins_last_fragment_only :
  exists own final,
    calculate_pi_score flaky_tool 0 "A_B" = Ok own
    /\ In [Str "A_B"; Num 5; Num (3 # 2)] (rows own)
    /\ __call__ atom_count flaky_tool example_analyser
                [[1; 2]; [4; 1]] [("A", [90]); ("B", [80]); ("C", [70])] 12
       = Ok final
    /\ columns final
       = ["average_interface_pae"; "average_interface_plddt"; "binding_energy";
          "interface"; "Num_intf_residues"; "pi_score"]
    /\ map (fun r => nth 3 r NaN) (rows final) = [Str "A_B"; Str "A_C"; Str "B_C"]
    /\ map (fun r => nth 4 r NaN) (rows final) = [NaN; NaN; Num 9]
    /\ map (fun r => nth 5 r NaN) (rows final) = [NaN; NaN; Num (5 # 2)].
Proof.
  eexists. eexists.
  split; [vm_compute; reflexivity|].
  split; [now left|].
  split; [vm_compute; reflexivity|].
  repeat split.
Qed.

(** * Further properties of the analyser *)

(** ** 4.1 The chain-pair enumerator *)

Lemma pd_unique_In (ids : list string) (c : string) :
  In c (pd_unique ids) <-> In c ids.
Proof.
  induction ids as [|x ids IH]; simpl; [tauto|].
  rewrite filter_In, IH, negb_true_iff, String.eqb_neq.
  destruct (string_dec c x) as [->|Hne]; intuition.
Qed.

Lemma pd_unique_NoDup (ids : list string) : NoDup (pd_unique ids).
Proof.
  induction ids as [|x ids IH]; simpl; constructor.
  - rewrite filter_In, negb_true_iff, String.eqb_neq. intros [_ H]. now apply H.
  - now apply NoDup_filter.
Qed.

Lemma combinations2_In (ids : list string) (a b : string) :
  In (a, b) (combinations2 ids) -> In a ids /\ In b ids.
Proof.
  induction ids as [|x ids IH]; simpl; [tauto|].
  rewrite in_app_iff, in_map_iff. intros [[y [E Hy]]|H].
  - injection E as <- <-. auto.
  - destruct (IH H). auto.
Qed.

Lemma combinations2_length (ids : list string) :
  (2 * length (combinations2 ids) = length ids * (length ids - 1))%nat.
Proof.
  induction ids as [|x ids IH]; simpl; [reflexivity|].
  rewrite length_app, length_map, Nat.sub_0_r.
  destruct ids as [|y ids]; simpl in *; [reflexivity|]. lia.
Qed.

Lemma combinations2_NoDup (ids : list string) :
  NoDup ids -> NoDup (combinations2 ids).
Proof.
  induction 1 as [|x ids Hx Hids IH]; simpl; [constructor|].
  apply NoDup_app; [|exact IH|].
  - clear IH Hx. induction Hids as [|y ids Hy _ IHm]; simpl; constructor; auto.
    rewrite in_map_iff. intros [z [E Hz]]. injection E as ->. now apply Hy.
  - intros [a b] Hab Hin. apply in_map_iff in Hab as [y [E _]].
    injection E as <- <-. apply combinations2_In in Hin as [Ha _]. now apply Hx.
Qed.

(** The pairs follow first appearance: each pair of distinct identifiers
    comes once, in one of its two orders, and never with itself. *)
Lemma combinations2_unordered (ids : list string) (a b : string) :
  NoDup ids ->
  (In (a, b) (combinations2 ids) -> a <> b /\ ~ In (b, a) (combinations2 ids))
  /\ (In a ids -> In b ids -> a <> b ->
      In (a, b) (combinations2 ids) \/ In (b, a) (combinations2 ids)).
Proof.
  induction 1 as [|x ids Hx Hids [IH1 IH2]]; simpl; [tauto|]. split.
  - rewrite !in_app_iff, !in_map_iff. intros [[y [E Hy]]|H].
    + injection E as <- <-. split; [intros ->; now apply Hx|].
      intros [[z [E _]]|H'].
      * injection E as -> _. now apply Hx.
      * apply combinations2_In in H' as [_ H']. now apply Hx.
    + destruct (IH1 H) as [Hne Hrev]. split; [exact Hne|].
      intros [[z [E _]]|H']; [|now apply Hrev].
      injection E as <- _. apply combinations2_In in H as [_ H]. now apply Hx.
  - rewrite !in_app_iff, !in_map_iff. intros [->|Ha] [->|Hb] Hne.
    + congruence.
    + left. left. now exists b.
    + right. left. now exists a.
    + destruct (IH2 Ha Hb Hne); [left|right]; now right.
Qed.

Lemma to_uint_not_Nil (n : nat) : Nat.to_uint n <> Decimal.Nil.
Proof.
  rewrite <- (DecimalNat.Unsigned.of_to n) at 1.
  rewrite DecimalNat.Unsigned.to_of. unfold Decimal.unorm.
  destruct (Decimal.nzhead (Nat.to_uint n)); discriminate.
Qed.

Lemma str_of_nat_inj (n m : nat) : str_of_nat n = str_of_nat m -> n = m.
Proof.
  unfold str_of_nat. intros H.
  apply DecimalNat.Unsigned.to_uint_inj.
  apply (f_equal NilZero.uint_of_string) in H.
  rewrite !NilZero.usu in H by apply to_uint_not_Nil. congruence.
Qed.

Lemma dict_update_fresh {V : Type} (d : list (string * V)) (k : string) (v : V) :
  ~ In k (map fst d) -> dict_update d k v = d ++ [(k, v)].
Proof.
  induction d as [|[k' v'] d IH]; simpl; [reflexivity|].
  intros H. destruct (k' =? k)%string eqn:E.
  - apply String.eqb_eq in E. exfalso. apply H. now left.
  - rewrite IH; [reflexivity|]. intros Hin. apply H. now right.
Qed.

Lemma enumerate_keys {A : Type} (l : list A) (idx : nat) :
  map (fun ic => "interface_" ++ str_of_nat (fst ic + 1))%string (enumerate idx l)
  = map (fun i => "interface_" ++ str_of_nat i)%string (seq (idx + 1) (length l)).
Proof.
  revert idx. induction l as [|x l IH]; intros idx; simpl; [reflexivity|].
  f_equal. exact (IH (S idx)).
Qed.

Lemma enumerate_values {A : Type} (l : list A) (idx : nat) :
  map snd (enumerate idx l) = l.
Proof.
  revert idx. induction l as [|x l IH]; intros idx; simpl; [reflexivity|].
  now rewrite IH.
Qed.

Lemma interface_keys_NoDup (start len : nat) :
  NoDup (map (fun i => "interface_" ++ str_of_nat i)%string (seq start len)).
Proof.
  revert start. induction len as [|len IH]; intros start; simpl; constructor.
  - rewrite in_map_iff. intros [j [E Hj]]. apply in_seq in Hj.
    assert (str_of_nat j = str_of_nat start).
    { revert E. generalize (str_of_nat j) (str_of_nat start).
      intros s t E. simpl in E. now injection E. }
    apply str_of_nat_inj in H. lia.
  - apply IH.
Qed.

Lemma fold_dict_update_fresh {A : Type} (key : A -> string) (val : A -> string * string)
      (l : list A) :
  forall d,
    NoDup (map fst d ++ map key l) ->
    fold_left (fun d x => dict_update d (key x) (val x)) l d
    = d ++ map (fun x => (key x, val x)) l.
Proof.
  induction l as [|x l IH]; intros d Hnd; simpl.
  - now rewrite app_nil_r.
  - simpl in Hnd. rewrite dict_update_fresh.
    + rewrite IH.
      * now rewrite <- app_assoc.
      * rewrite map_app. simpl. rewrite <- app_assoc. exact Hnd.
    + apply NoDup_remove_2 in Hnd. intros Hin. apply Hnd.
      apply in_or_app. now left.
Qed.

(** The dict built by [get_all_combinations_of_chains]: no key is written
    twice, so it lists the combinations in order under the keys
    ["interface_1"], ["interface_2"], ... *)
Lemma chain_pairs_dict (combos : list (string * string)) :
  fold_left
    (fun d ic => dict_update d ("interface_" ++ str_of_nat (fst ic + 1))%string
                             (snd ic))
    (enumerate 0 combos) []
  = map (fun ic => (("interface_" ++ str_of_nat (fst ic + 1))%string, snd ic))
        (enumerate 0 combos).
Proof.
  rewrite (fold_dict_update_fresh
             (fun ic : nat * (string * string) =>
                ("interface_" ++ str_of_nat (fst ic + 1))%string)
             (fun ic => snd ic)); [reflexivity|].
  cbn [map app]. rewrite enumerate_keys. apply interface_keys_NoDup.
Qed.

Lemma get_all_combinations_of_chains_eq (pdb_df : list atom) :
  get_all_combinations_of_chains pdb_df
  = let ids := pd_unique (map chain_id pdb_df) in
    if (1 <? length ids)%nat
    then ChainPairs
           (map (fun ic => (("interface_" ++ str_of_nat (fst ic + 1))%string, snd ic))
                (enumerate 0 (combinations2 ids)))
    else ChainIds ids.
Proof.
  unfold get_all_combinations_of_chains. cbv zeta.
  destruct (1 <? length (pd_unique (map chain_id pdb_df)))%nat; [|reflexivity].
  now rewrite chain_pairs_dict.
Qed.

(** X1.  For a table with at least two distinct chain identifiers,
    [get_all_combinations_of_chains] stores a dict whose values are the
    2-combinations of the identifiers in order of first appearance, whose
    keys are ["interface_1"], ..., ["interface_k"] in that order, and which
    has n(n-1)/2 entries for n identifiers. *)
Theorem get_all_combinations_of_chains_pairs (pdb_df : list atom) :
  (2 <= length (pd_unique (map chain_id pdb_df)))%nat ->
  exists d,
    get_all_combinations_of_chains pdb_df = ChainPairs d
    /\ map snd d = combinations2 (pd_unique (map chain_id pdb_df))
    /\ map fst d
       = map (fun i => "interface_" ++ str_of_nat i)%string (seq 1 (length d))
    /\ (2 * length d
        = length (pd_unique (map chain_id pdb_df))
          * (length (pd_unique (map chain_id pdb_df)) - 1))%nat.
Proof.
  intros Hn. rewrite get_all_combinations_of_chains_eq. cbv zeta.
  destruct (1 <? length (pd_unique (map chain_id pdb_df)))%nat eqn:E;
    [|apply Nat.ltb_ge in E; lia].
  eexists. split; [reflexivity|].
  set (combos := combinations2 (pd_unique (map chain_id pdb_df))).
  split; [|split].
  - rewrite map_map. cbn [snd]. apply enumerate_values.
  - rewrite map_map. cbn [fst]. rewrite length_map.
    rewrite (enumerate_keys combos 0).
    replace (length (enumerate 0 combos)) with (length combos); [reflexivity|].
    now rewrite <- (enumerate_values combos 0) at 1; rewrite length_map.
  - rewrite length_map.
    replace (length (enumerate 0 combos)) with (length combos).
    + apply combinations2_length.
    + now rewrite <- (enumerate_values combos 0) at 1; rewrite length_map.
Qed.

Lemma get_all_combinations_of_chains_pairs_witness :
  (2 <= length (pd_unique (map chain_id three_chains)))%nat
  /\ exists d,
      get_all_combinations_of_chains three_chains = ChainPairs d
      /\ map snd d = [("A", "B"); ("A", "C"); ("B", "C")]
      /\ map fst d = ["interface_1"; "interface_2"; "interface_3"].
Proof.
  split; [simpl; lia|].
  destruct (@get_all_combinations_of_chains_pairs three_chains)
    as [d [Hd [Hv [Hk _]]]]; [simpl; lia|].
  exists d. split; [exact Hd|]. split; [exact Hv|].
  rewrite Hk. replace (length d) with 3%nat; [reflexivity|].
  now rewrite <- (length_map snd d), Hv.
Defined.

(** X2.  When [get_all_combinations_of_chains] stores pairs, every two
    distinct chain identifiers of the table make exactly one pair, in one
    order only; no identifier is paired with itself, no pair comes twice,
    and the pairs hold identifiers of the table only. *)
Theorem get_all_combinations_of_chains_each_pair_once
        (pdb_df : list atom) (d : list (string * (string * string))) :
  get_all_combinations_of_chains pdb_df = ChainPairs d ->
  NoDup (map snd d)
  /\ (forall a b, In (a, b) (map snd d) ->
                  a <> b /\ ~ In (b, a) (map snd d)
                  /\ In a (map chain_id pdb_df) /\ In b (map chain_id pdb_df))
  /\ (forall a b, In a (map chain_id pdb_df) -> In b (map chain_id pdb_df) ->
                  a <> b ->
                  In (a, b) (map snd d) \/ In (b, a) (map snd d)).
Proof.
  rewrite get_all_combinations_of_chains_eq. cbv zeta.
  destruct (1 <? length (pd_unique (map chain_id pdb_df)))%nat; [|discriminate].
  intros H. injection H as <-.
  rewrite map_map. cbn [snd]. rewrite enumerate_values.
  pose proof (pd_unique_NoDup (map chain_id pdb_df)) as Hnd.
  split; [now apply combinations2_NoDup|]. split.
  - intros a b Hab.
    destruct (proj1 (combinations2_unordered a b Hnd) Hab) as [Hne Hrev].
    apply combinations2_In in Hab as [Ha Hb].
    rewrite pd_unique_In in Ha, Hb. auto.
  - intros a b Ha Hb Hne.
    apply (proj2 (combinations2_unordered a b Hnd)); auto;
      now apply pd_unique_In.
Qed.

Lemma get_all_combinations_of_chains_each_pair_once_witness :
  get_all_combinations_of_chains three_chains
  = ChainPairs [("interface_1", ("A", "B")); ("interface_2", ("A", "C"));
                ("interface_3", ("B", "C"))]
  /\ NoDup [("A", "B"); ("A", "C"); ("B", "C")].
Proof.
  split; [reflexivity|].
  exact (proj1 (@get_all_combinations_of_chains_each_pair_once
                  three_chains
                  [("interface_1", ("A", "B")); ("interface_2", ("A", "C"));
                   ("interface_3", ("B", "C"))] eq_refl)).
Defined.

(** X3.  A table with fewer than two distinct chain identifiers makes the
    analyser monomeric: [__call__] exits at once, whatever the tool, the
    oracle and the other arguments are, and returns no table. *)
Theorem call_monomeric_exits
        {SI : SetIteration} (sfxn : structure -> Q)
        (piscore_tool : nat -> work_dir_state)
        (atom_table : list atom) (model : list (string * structure))
        (pae_mtx : ndarray2) (plddt : list (string * list Q)) (cutoff : Q) :
  (length (pd_unique (map chain_id atom_table)) < 2)%nat ->
  chain_combinations (PDBAnalyser_init atom_table model)
  = ChainIds (pd_unique (map chain_id atom_table))
  /\ __call__ sfxn piscore_tool (PDBAnalyser_init atom_table model)
              pae_mtx plddt cutoff
     = Raise SystemExit.
Proof.
  intros Hn. unfold __call__, PDBAnalyser_init. cbn [chain_combinations].
  rewrite get_all_combinations_of_chains_eq. cbv zeta.
  destruct (1 <? length (pd_unique (map chain_id atom_table)))%nat eqn:E;
    [apply Nat.ltb_lt in E; lia|].
  split; reflexivity.
Qed.

Lemma call_monomeric_exits_witness :
  (length (pd_unique (map chain_id
             [atom_at "A" 1 "ALA" "CB" 0 0 0; atom_at "A" 2 "GLY" "CA" 3 0 0])) < 2)%nat
  /\ __call__ atom_count flaky_tool
              (PDBAnalyser_init
                 [atom_at "A" 1 "ALA" "CB" 0 0 0; atom_at "A" 2 "GLY" "CA" 3 0 0]
                 [("A", [atom_at "A" 1 "ALA" "CB" 0 0 0;
                         atom_at "A" 2 "GLY" "CA" 3 0 0])])
              [[1]] [("A", [90; 80])] 12
     = Raise SystemExit.
Proof.
  split; [simpl; lia|].
  refine (proj2 (@call_monomeric_exits ascending_iteration atom_count flaky_tool
                   _ _ [[1]] [("A", [90; 80])] 12 _)).
  simpl. lia.
Defined.

(** ** 4.3 Outcomes of the aggregators *)

Lemma subscript_Ok {A : Type} (l : list A) (i : nat) (v : A) :
  subscript l i = Ok v -> (i < length l)%nat.
Proof.
  unfold subscript. destruct (nth_error l i) eqn:E; [|discriminate].
  intros _. apply nth_error_Some. congruence.
Qed.

Lemma subscript_raises {A : Type} (l : list A) (i : nat) (e : exn) :
  subscript l i = Raise e -> e = IndexError.
Proof.
  unfold subscript. destruct (nth_error l i); [discriminate|congruence].
Qed.

Lemma subscript2_Ok (M : ndarray2) (i j : nat) (v : Q) :
  subscript2 M i j = Ok v -> in_range M i j.
Proof.
  unfold subscript2, in_range. intros H.
  apply bind_Ok in H as [row [Hrow Hv]].
  pose proof (subscript_Ok _ _ Hrow) as Hi. split; [exact Hi|].
  rewrite (subscript_in_range M [] Hi) in Hrow. injection Hrow as <-.
  exact (subscript_Ok _ _ Hv).
Qed.

Lemma pae_loop_out_of_range (M : ndarray2) (pairs : list (nat * nat)) :
  Exists (fun p => ~ (in_range M (fst p) (snd p) /\ in_range M (snd p) (fst p)))
         pairs ->
  forall acc, pae_loop M pairs acc = Raise IndexError.
Proof.
  induction pairs as [|[i j] pairs IH]; intros Hex acc; [inversion Hex|].
  cbn [pae_loop].
  destruct (subscript2 M i j) as [a|e] eqn:Ea; simpl.
  - destruct (subscript2 M j i) as [b|e] eqn:Eb; simpl.
    + apply IH. inversion Hex as [? ? Hbad|? ? Hrest]; subst; [|exact Hrest].
      exfalso. apply Hbad. simpl.
      split; [exact (subscript2_Ok _ _ _ Ea)|exact (subscript2_Ok _ _ _ Eb)].
    + f_equal. apply (@pae_loop_raises M [(j, i)] 0 e).
      cbn [pae_loop]. now rewrite Eb.
  - f_equal. apply (@pae_loop_raises M [(i, j)] 0 e).
    cbn [pae_loop]. now rewrite Ea.
Qed.

(** X4.  The three outcomes of [calculate_average_pae].  With an empty
    chain-1 array it divides by zero, whatever the chain-2 array holds.
    Otherwise the pairs are those of [zip]: if all of them index inside the
    matrix the result is their two-triangle sum over twice the length of the
    chain-1 array (also when the chain-2 array is shorter), and if one of
    them does not the call raises [IndexError]. *)
Theorem calculate_average_pae_outcomes
        (M : ndarray2) (chain_1_residues chain_2_residues : list nat) :
  let pairs := combine chain_1_residues chain_2_residues in
  let inside := fun p : nat * nat =>
                  in_range M (fst p) (snd p) /\ in_range M (snd p) (fst p) in
  (chain_1_residues = [] ->
   calculate_average_pae M chain_1_residues chain_2_residues
   = Raise ZeroDivisionError)
  /\ (chain_1_residues <> [] -> Forall inside pairs ->
      exists q,
        calculate_average_pae M chain_1_residues chain_2_residues = Ok q
        /\ q == both_triangles M pairs / Qnat (2 * length chain_1_residues))
  /\ (chain_1_residues <> [] -> Exists (fun p => ~ inside p) pairs ->
      calculate_average_pae M chain_1_residues chain_2_residues
      = Raise IndexError).
Proof.
  intros pairs inside. split; [|split].
  - intros ->. reflexivity.
  - intros Hne Hin. unfold calculate_average_pae. fold pairs.
    destruct (pae_loop_sum Hin 0) as [s [Hs Es]]. rewrite Hs. simpl bind.
    destruct chain_1_residues as [|x xs]; [congruence|].
    cbn [length Nat.mul Nat.add true_div].
    eexists. split; [reflexivity|].
    unfold Qnat. cbn [length Nat.mul Nat.add]. rewrite Es, Qplus_0_l. reflexivity.
  - intros Hne Hex. unfold calculate_average_pae. fold pairs.
    now rewrite (pae_loop_out_of_range Hex 0).
Qed.

Lemma calculate_average_pae_outcomes_witness :
  (exists q, calculate_average_pae [[0; 2]; [4; 0]] [0; 1]%nat [1%nat] = Ok q
             /\ q == 3 # 2)
  /\ calculate_average_pae [[0; 2]; [4; 0]] [0; 1]%nat [5%nat] = Raise IndexError.
Proof.
  pose proof (@calculate_average_pae_outcomes [[0; 2]; [4; 0]] [0; 1]%nat [1%nat])
    as H1.
  pose proof (@calculate_average_pae_outcomes [[0; 2]; [4; 0]] [0; 1]%nat [5%nat])
    as H2.
  cbv zeta in H1, H2. split.
  - destruct (proj1 (proj2 H1)) as [q [Hq Eq]].
    + discriminate.
    + repeat constructor; simpl; lia.
    + exists q. split; [exact Hq|]. rewrite Eq. reflexivity.
  - apply (proj2 (proj2 H2)); [discriminate|].
    constructor. unfold in_range. simpl. lia.
Defined.

(** Two matrices that agree where the pairs point give the same loop. *)
Lemma pae_loop_ext (M M' : ndarray2) (pairs : list (nat * nat)) :
  Forall (fun p => subscript2 M (fst p) (snd p) = subscript2 M' (fst p) (snd p)
                   /\ subscript2 M (snd p) (fst p) = subscript2 M' (snd p) (fst p))
         pairs ->
  forall acc, pae_loop M pairs acc = pae_loop M' pairs acc.
Proof.
  induction 1 as [|[i j] pairs [H1 H2] _ IH]; intros acc; [reflexivity|].
  cbn [pae_loop]. simpl in H1, H2. rewrite H1, H2.
  destruct (subscript2 M' i j); simpl; [|reflexivity].
  destruct (subscript2 M' j i); simpl; [apply IH|reflexivity].
Qed.

Lemma interface_hits_bounds (chain_df_1 chain_df_2 : list atom) (cutoff : Q)
      (i j : nat) :
  In (i, j) (interface_hits chain_df_1 chain_df_2 cutoff) ->
  (i < length (retrieve_C_beta_coords chain_df_1))%nat
  /\ (j < length (retrieve_C_beta_coords chain_df_2))%nat.
Proof.
  intros H. apply interface_hits_In in H as [p [q [Hp [Hq _]]]].
  split; apply nth_error_Some; congruence.
Qed.

Lemma obtain_interface_residues_pairs
      (chain_df_1 chain_df_2 : list atom) (cutoff : Q)
      (residues_1 residues_2 : list nat) :
  obtain_interface_residues chain_df_1 chain_df_2 cutoff
  = Some (residues_1, residues_2) ->
  combine residues_1 residues_2 = interface_hits chain_df_1 chain_df_2 cutoff
  /\ residues_1 = map fst (interface_hits chain_df_1 chain_df_2 cutoff)
  /\ residues_2 = map snd (interface_hits chain_df_1 chain_df_2 cutoff).
Proof.
  rewrite obtain_interface_residues_hits.
  set (hits := interface_hits chain_df_1 chain_df_2 cutoff). intros H.
  assert (Hres : residues_1 = map fst hits /\ residues_2 = map snd hits).
  { destruct hits; [discriminate|]. injection H as <- <-. split; reflexivity. }
  destruct Hres as [-> ->]. rewrite combine_fst_snd. auto.
Qed.

(** X5.  The indices returned by [obtain_interface_residues] are positions
    in the arrays of representative atoms: each chain-1 index is below the
    number of representatives of chain 1, each chain-2 index below that of
    chain 2. *)
Theorem obtain_interface_residues_in_bounds
        (chain_df_1 chain_df_2 : list atom) (cutoff : Q)
        (residues_1 residues_2 : list nat) :
  obtain_interface_residues chain_df_1 chain_df_2 cutoff
  = Some (residues_1, residues_2) ->
  Forall (fun i => (i < length (retrieve_C_beta_coords chain_df_1))%nat) residues_1
  /\ Forall (fun j => (j < length (retrieve_C_beta_coords chain_df_2))%nat) residues_2.
Proof.
  intros H. destruct (obtain_interface_residues_pairs _ _ _ H) as [_ [-> ->]].
  split; rewrite Forall_forall; intros n Hn;
    apply in_map_iff in Hn as [[i j] [<- Hij]];
    apply interface_hits_bounds in Hij; tauto.
Qed.

Lemma obtain_interface_residues_in_bounds_witness :
  obtain_interface_residues
    [atom_at "A" 1 "ALA" "CB" 0 0 0; atom_at "A" 2 "GLY" "CA" 3 0 0]
    [atom_at "B" 1 "ALA" "CB" 0 4 0; atom_at "B" 2 "SER" "CB" 3 4 0;
     atom_at "B" 3 "GLY" "CA" 30 0 0] 5
  = Some ([0; 1]%nat, [0; 1]%nat)
  /\ Forall (fun i => (i < 2)%nat) [0; 1]%nat
  /\ Forall (fun j => (j < 3)%nat) [0; 1]%nat.
Proof.
  split; [reflexivity|].
  exact (@obtain_interface_residues_in_bounds
           [atom_at "A" 1 "ALA" "CB" 0 0 0; atom_at "A" 2 "GLY" "CA" 3 0 0]
           [atom_at "B" 1 "ALA" "CB" 0 4 0; atom_at "B" 2 "SER" "CB" 3 4 0;
            atom_at "B" 3 "GLY" "CA" 30 0 0] 5 [0; 1]%nat [0; 1]%nat eq_refl).
Defined.

(** X6.  The error average of an interface reads the matrix at positions
    counted within each chain's representative array, hence only inside the
    leading block of that size: two matrices that agree on
    [M[i, j]] and [M[j, i]] for [i] below the number of chain-1
    representatives and [j] below the number of chain-2 representatives give
    the same result, whatever they hold elsewhere. *)
Theorem calculate_average_pae_reads_leading_block
        (chain_df_1 chain_df_2 : list atom) (cutoff : Q)
        (residues_1 residues_2 : list nat) (M M' : ndarray2) :
  obtain_interface_residues chain_df_1 chain_df_2 cutoff
  = Some (residues_1, residues_2) ->
  (forall i j,
      (i < length (retrieve_C_beta_coords chain_df_1))%nat ->
      (j < length (retrieve_C_beta_coords chain_df_2))%nat ->
      subscript2 M i j = subscript2 M' i j /\ subscript2 M j i = subscript2 M' j i) ->
  calculate_average_pae M residues_1 residues_2
  = calculate_average_pae M' residues_1 residues_2.
Proof.
  intros H Hagree. destruct (obtain_interface_residues_pairs _ _ _ H) as [Hc _].
  unfold calculate_average_pae. rewrite Hc.
  rewrite (@pae_loop_ext M M'); [reflexivity|].
  rewrite Forall_forall. intros [i j] Hij.
  apply interface_hits_bounds in Hij as [Hi Hj]. simpl. now apply Hagree.
Qed.

Lemma calculate_average_pae_reads_leading_block_witness :
  let chain_a := [atom_at "A" 1 "ALA" "CB" 0 0 0] in
  let chain_b := [atom_at "B" 1 "ALA" "CB" 0 4 0] in
  obtain_interface_residues chain_a chain_b 12 = Some ([0%nat], [0%nat])
  /\ calculate_average_pae [[1; 2]; [4; 1]] [0%nat] [0%nat]
     = calculate_average_pae [[1; 30]; [25; 7]] [0%nat] [0%nat].
Proof.
  cbv zeta. split; [reflexivity|].
  refine (@calculate_average_pae_reads_leading_block
            [atom_at "A" 1 "ALA" "CB" 0 0 0] [atom_at "B" 1 "ALA" "CB" 0 4 0]
            12 [0%nat] [0%nat] [[1; 2]; [4; 1]] [[1; 30]; [25; 7]] eq_refl _).
  simpl. intros i j Hi Hj.
  assert (i = 0%nat) by lia. assert (j = 0%nat) by lia. subst.
  split; reflexivity.
Defined.

(** ** 4.2 More on the detector *)

Lemma euclidean_distance_sym (p q : coords) :
  euclidean_distance p q = euclidean_distance q p.
Proof.
  unfold euclidean_distance. f_equal. apply Qeq_eqR.
  destruct p as [[px py] pz], q as [[qx qy] qz]. unfold sum_sq_diff. ring.
Qed.

Lemma within_cutoff_sym (cb1 cb2 : list coords) (cutoff : Q) (i j : nat) :
  within_cutoff cb1 cb2 cutoff i j -> within_cutoff cb2 cb1 cutoff j i.
Proof.
  intros [p [q [Hp [Hq Hd]]]]. exists q, p. repeat split; try assumption.
  now rewrite euclidean_distance_sym.
Qed.

(** X7.  Detection does not depend on the order of the two chains: with the
    chains exchanged the detector finds an interface exactly when it did
    before, and the pair [(j, i)] exactly when it found [(i, j)]. *)
Theorem obtain_interface_residues_exchange
        (chain_df_1 chain_df_2 : list atom) (cutoff : Q) :
  match obtain_interface_residues chain_df_1 chain_df_2 cutoff,
        obtain_interface_residues chain_df_2 chain_df_1 cutoff with
  | Some (residues_1, residues_2), Some (residues_2', residues_1') =>
      forall i j, In (i, j) (combine residues_1 residues_2)
                  <-> In (j, i) (combine residues_2' residues_1')
  | None, None => True
  | _, _ => False
  end.
Proof.
  rewrite !obtain_interface_residues_hits.
  pose proof (interface_hits_In chain_df_1 chain_df_2 cutoff) as H12.
  pose proof (interface_hits_In chain_df_2 chain_df_1 cutoff) as H21.
  assert (Hswap : forall i j,
             In (i, j) (interface_hits chain_df_1 chain_df_2 cutoff)
             <-> In (j, i) (interface_hits chain_df_2 chain_df_1 cutoff)).
  { intros i j. rewrite H12, H21. split; apply within_cutoff_sym. }
  destruct (interface_hits chain_df_1 chain_df_2 cutoff) as [|[a b] hits] eqn:E1;
    destruct (interface_hits chain_df_2 chain_df_1 cutoff) as [|[c d] hits'] eqn:E2.
  - exact I.
  - apply (Hswap d c). now left.
  - apply (Hswap a b). now left.
  - rewrite !combine_fst_snd. exact Hswap.
Qed.

(** X8.  The cutoff acts as a threshold: a cutoff that is zero or negative
    finds no interface, and every pair found under a cutoff is found under
    any larger one. *)
Theorem obtain_interface_residues_cutoff
        (chain_df_1 chain_df_2 : list atom) (cutoff cutoff' : Q) :
  (cutoff <= 0 -> obtain_interface_residues chain_df_1 chain_df_2 cutoff = None)
  /\ (cutoff <= cutoff' ->
      forall residues_1 residues_2,
        obtain_interface_residues chain_df_1 chain_df_2 cutoff
        = Some (residues_1, residues_2) ->
        exists residues_1' residues_2',
          obtain_interface_residues chain_df_1 chain_df_2 cutoff'
          = Some (residues_1', residues_2')
          /\ incl (combine residues_1 residues_2) (combine residues_1' residues_2')).
Proof.
  split.
  - intros Hneg. rewrite obtain_interface_residues_hits.
    destruct (interface_hits chain_df_1 chain_df_2 cutoff) as [|[i j] hits] eqn:E;
      [reflexivity|exfalso].
    assert (H : In (i, j) (interface_hits chain_df_1 chain_df_2 cutoff))
      by (rewrite E; now left).
    apply interface_hits_In in H as [p [q [_ [_ Hd]]]].
    pose proof (sqrt_pos (Q2R (sum_sq_diff p q))) as Hpos.
    apply Qle_Rle in Hneg. rewrite Q2R_zero in Hneg.
    unfold euclidean_distance in Hd. lra.
  - intros Hle r1 r2 H.
    destruct (obtain_interface_residues_pairs _ _ _ H) as [Hc [Hr1 _]].
    assert (Hmono : incl (interface_hits chain_df_1 chain_df_2 cutoff)
                         (interface_hits chain_df_1 chain_df_2 cutoff')).
    { intros [i j] Hij. apply interface_hits_In.
      apply interface_hits_In in Hij as [p [q [Hp [Hq Hd]]]].
      exists p, q. repeat split; try assumption.
      apply Qle_Rle in Hle. lra. }
    rewrite Hc. rewrite (obtain_interface_residues_hits chain_df_1 chain_df_2 cutoff').
    destruct (interface_hits chain_df_1 chain_df_2 cutoff') as [|h hits'] eqn:E'.
    + exfalso. destruct (obtain_interface_residues_nonempty _ _ _ H) as [Hne _].
      destruct (interface_hits chain_df_1 chain_df_2 cutoff) as [|h hits];
        [|exact (Hmono h (or_introl eq_refl))].
      apply Hne. exact Hr1.
    + do 2 eexists. split; [reflexivity|]. now rewrite combine_fst_snd.
Qed.

Lemma obtain_interface_residues_cutoff_witness :
  let chain_a := [atom_at "A" 1 "ALA" "CB" 0 0 0; atom_at "A" 2 "GLY" "CA" 3 0 0] in
  let chain_b := [atom_at "B" 1 "ALA" "CB" 0 4 0; atom_at "B" 2 "SER" "CB" 3 4 0] in
  obtain_interface_residues chain_a chain_b 0 = None
  /\ obtain_interface_residues chain_a chain_b 5 = Some ([0; 1]%nat, [0; 1]%nat)
  /\ exists residues_1' residues_2',
      obtain_interface_residues chain_a chain_b 6 = Some (residues_1', residues_2')
      /\ incl (combine [0; 1]%nat [0; 1]%nat) (combine residues_1' residues_2').
Proof.
  cbv zeta.
  pose proof (@obtain_interface_residues_cutoff
                [atom_at "A" 1 "ALA" "CB" 0 0 0; atom_at "A" 2 "GLY" "CA" 3 0 0]
                [atom_at "B" 1 "ALA" "CB" 0 4 0; atom_at "B" 2 "SER" "CB" 3 4 0])
    as H.
  split; [apply (proj1 (H 0 0)); discriminate|].
  split; [reflexivity|].
  apply (proj2 (H 5 6)); [discriminate|reflexivity].
Defined.

(** ** 4.3 Outcomes of the confidence aggregator *)

Lemma plddt_loop_out_of_range (p1 p2 : list Q) (pairs : list (nat * nat)) :
  Exists (fun p => ~ ((fst p < length p1)%nat /\ (snd p < length p2)%nat)) pairs ->
  forall acc, plddt_loop p1 p2 pairs acc = Raise IndexError.
Proof.
  induction pairs as [|[i j] pairs IH]; intros Hex acc; [inversion Hex|].
  cbn [plddt_loop].
  destruct (subscript p1 i) as [a|e] eqn:Ea; simpl.
  - destruct (subscript p2 j) as [b|e] eqn:Eb; simpl.
    + apply IH. inversion Hex as [? ? Hbad|? ? Hrest]; subst; [|exact Hrest].
      exfalso. apply Hbad. simpl.
      split; [exact (subscript_Ok _ _ Ea)|exact (subscript_Ok _ _ Eb)].
    + f_equal. exact (subscript_raises _ _ Eb).
  - f_equal. exact (subscript_raises _ _ Ea).
Qed.

Section ConfidenceOutcomes.

Context {SI : SetIteration}.

Lemma set_iter_nil : set_iter [] = [].
Proof.
  destruct (set_iter []) as [|x l] eqn:E; [reflexivity|].
  exfalso. apply (set_iter_In [] x). rewrite E. now left.
Qed.

Lemma unique_count_zero (residues : list nat) :
  unique_count residues = 0%nat <-> residues = [].
Proof.
  unfold unique_count. split.
  - intros H. destruct residues as [|x l]; [reflexivity|exfalso].
    assert (Hx : In x (set_iter (x :: l))) by (apply set_iter_In; now left).
    destruct (set_iter (x :: l)); [contradiction|discriminate].
  - intros ->. now rewrite set_iter_nil.
Qed.

(** X9.  The three outcomes of [calculate_average_plddt].  With both index
    arrays empty it divides by zero.  Otherwise only the pairs that [zip]
    forms from the two sets of unique indices are read: if they all index
    inside the confidence arrays the result is their sum over the number of
    unique indices of both sides, and if one does not the call raises
    [IndexError].  An index on the longer side that [zip] never reaches is
    not read at all. *)
Theorem calculate_average_plddt_outcomes
        (chain_1_plddt chain_2_plddt : list Q)
        (chain_1_residues chain_2_residues : list nat) :
  let pairs := combine (set_iter chain_1_residues) (set_iter chain_2_residues) in
  let inside := fun p : nat * nat =>
                  (fst p < length chain_1_plddt)%nat
                  /\ (snd p < length chain_2_plddt)%nat in
  (chain_1_residues = [] -> chain_2_residues = [] ->
   calculate_average_plddt chain_1_plddt chain_2_plddt
                           chain_1_residues chain_2_residues
   = Raise ZeroDivisionError)
  /\ (chain_1_residues <> [] \/ chain_2_residues <> [] -> Forall inside pairs ->
      exists q,
        calculate_average_plddt chain_1_plddt chain_2_plddt
                                chain_1_residues chain_2_residues = Ok q
        /\ q == Qsum (map (fun p => nth (fst p) chain_1_plddt 0
                                    + nth (snd p) chain_2_plddt 0) pairs)
                / Qnat (unique_count chain_1_residues
                        + unique_count chain_2_residues))
  /\ (Exists (fun p => ~ inside p) pairs ->
      calculate_average_plddt chain_1_plddt chain_2_plddt
                              chain_1_residues chain_2_residues
      = Raise IndexError).
Proof.
  intros pairs inside. split; [|split].
  - intros -> ->. unfold calculate_average_plddt. rewrite set_iter_nil. reflexivity.
  - intros Hne Hin. unfold calculate_average_plddt. fold pairs.
    destruct (@plddt_loop_sum chain_1_plddt chain_2_plddt pairs Hin 0)
      as [s [Hs Es]].
    rewrite Hs. simpl bind.
    fold (unique_count chain_1_residues) (unique_count chain_2_residues).
    destruct (unique_count chain_1_residues + unique_count chain_2_residues)%nat
      as [|k] eqn:Ek.
    + exfalso. apply Nat.eq_add_0 in Ek as [E1 E2].
      apply unique_count_zero in E1, E2. destruct Hne; contradiction.
    + cbn [true_div]. eexists. split; [reflexivity|].
      rewrite Es, Qplus_0_l. reflexivity.
  - intros Hex. unfold calculate_average_plddt. fold pairs.
    now rewrite (@plddt_loop_out_of_range chain_1_plddt chain_2_plddt pairs Hex 0).
Qed.

End ConfidenceOutcomes.

Lemma calculate_average_plddt_outcomes_witness :
  calculate_average_plddt [10; 20] [30; 40] [] [] = Raise ZeroDivisionError
  /\ (exists q, calculate_average_plddt [10; 20] [30; 40] [0; 0]%nat [0; 7]%nat = Ok q
                /\ q == 40 # 3)
  /\ calculate_average_plddt [10; 20] [30; 40] [2%nat] [0%nat] = Raise IndexError.
Proof.
  pose proof (@calculate_average_plddt_outcomes ascending_iteration
                [10; 20] [30; 40]) as H.
  split; [exact (proj1 (H [] []) eq_refl eq_refl)|]. split.
  - destruct (proj1 (proj2 (H [0; 0]%nat [0; 7]%nat))) as [q [Hq Eq]].
    + left. discriminate.
    + repeat constructor; simpl; lia.
    + exists q. split; [exact Hq|]. rewrite Eq. reflexivity.
  - apply (proj2 (proj2 (H [2%nat] [0%nat]))).
    constructor. simpl. lia.
Defined.

Lemma calculate_average_plddt_equal_sides_witness :
  Forall (fun i => (i < length [10; 20])%nat) [0; 1; 1]%nat
  /\ Forall (fun j => (j < length [30; 40])%nat) [1; 0]%nat
  /\ unique_count [0; 1; 1]%nat = unique_count [1; 0]%nat
  /\ exists q,
      calculate_average_plddt [10; 20] [30; 40] [0; 1; 1]%nat [1; 0]%nat = Ok q
      /\ q == 25.
Proof.
  split; [repeat constructor|]. split; [repeat constructor|].
  split; [reflexivity|].
  destruct (@calculate_average_plddt_equal_sides ascending_iteration
              [10; 20] [30; 40] [0; 1; 1]%nat [1; 0]%nat) as [q [Hq Eq]].
  - repeat constructor.
  - repeat constructor.
  - discriminate.
  - reflexivity.
  - exists q. split; [exact Hq|]. rewrite Eq. reflexivity.
Defined.

(** ** 4.4 Missing chains *)

Lemma dict_get_In {V : Type} (d : list (string * V)) (k : string) :
  In k (map fst d) <-> exists v, dict_get d k = Ok v.
Proof.
  induction d as [|[k' v'] d IH]; simpl.
  - split; [tauto|]. intros [v H]. discriminate.
  - destruct (k' =? k)%string eqn:E.
    + apply String.eqb_eq in E. split; [now exists v'|auto].
    + apply String.eqb_neq in E. rewrite IH. intuition.
Qed.

(** X10.  A chain identifier that is not a chain of the parsed model makes
    [calculate_binding_energy] raise [KeyError] at its first line, before a
    structure is written or scored: the outcome is the same for every energy
    oracle. *)
Theorem calculate_binding_energy_missing_chain
        (sfxn : structure -> Q) (self : PDBAnalyser)
        (chain_1_id chain_2_id : string) :
  ~ In chain_1_id (map fst (pdb self)) \/ ~ In chain_2_id (map fst (pdb self)) ->
  binding_energy_poses self chain_1_id chain_2_id = Raise KeyError
  /\ calculate_binding_energy sfxn self chain_1_id chain_2_id = Raise KeyError.
Proof.
  rewrite !dict_get_In. intros Hmiss.
  unfold calculate_binding_energy, binding_energy_poses.
  destruct (dict_get (pdb self) chain_1_id) as [s1|e1] eqn:E1; simpl.
  - destruct (dict_get (pdb self) chain_2_id) as [s2|e2] eqn:E2; simpl.
    + exfalso. destruct Hmiss as [H|H]; apply H; eexists; reflexivity.
    + pose proof (dict_get_raises _ _ E2) as ->. now split.
  - pose proof (dict_get_raises _ _ E1) as ->. now split.
Qed.

Lemma calculate_binding_energy_missing_chain_witness :
  ~ In "Z" (map fst (pdb example_analyser))
  /\ calculate_binding_energy atom_count example_analyser "A" "Z" = Raise KeyError.
Proof.
  assert (Hz : ~ In "Z" (map fst (pdb example_analyser))).
  { simpl. intros [H|[H|[H|[]]]]; discriminate H. }
  split; [exact Hz|].
  exact (proj2 (calculate_binding_energy_missing_chain
                  atom_count example_analyser "A" "Z" (or_intror Hz))).
Defined.

(** ** 4.5 A feature table without rows *)

Lemma index_of_In (c : string) (cols : list string) :
  In c cols <-> exists i, index_of c cols = Some i.
Proof.
  induction cols as [|c' cols IH]; simpl.
  - split; [tauto|]. intros [i H]. discriminate.
  - destruct (c' =? c)%string eqn:E.
    + apply String.eqb_eq in E. split; [now exists 0%nat|auto].
    + apply String.eqb_neq in E. rewrite IH. split.
      * intros [H|[i H]]; [contradiction|]. exists (S i). now rewrite H.
      * intros [i H]. right. destruct (index_of c cols) as [j|]; [now exists j|].
        discriminate.
Qed.

Lemma index_of_app_l (c : string) (cols more : list string) (i : nat) :
  index_of c cols = Some i -> index_of c (cols ++ more) = Some i.
Proof.
  revert i. induction cols as [|c' cols IH]; intros i; simpl; [discriminate|].
  destruct (c' =? c)%string; [auto|].
  destruct (index_of c cols) as [j|]; simpl; [|discriminate].
  intros H. injection H as <-. now rewrite (IH j eq_refl).
Qed.

Lemma index_of_app_other (c c' : string) (cols : list string) :
  index_of c cols = None -> c' <> c -> index_of c (cols ++ [c']) = None.
Proof.
  intros H Hne. induction cols as [|x cols IH]; simpl in *.
  - apply String.eqb_neq in Hne. now rewrite Hne.
  - destruct (x =? c)%string; [discriminate|].
    destruct (index_of c cols); [discriminate|]. now rewrite IH.
Qed.

Lemma length_set_nth {A : Type} (i : nat) (v : A) (l : list A) :
  length (set_nth i v l) = length l.
Proof.
  revert i. induction l as [|x l IH]; intros [|i]; simpl; auto.
Qed.

Lemma nth_set_nth_other {A : Type} (i j : nat) (v d : A) (l : list A) :
  i <> j -> nth j (set_nth i v l) d = nth j l d.
Proof.
  revert i j. induction l as [|x l IH]; intros [|i] [|j] H; simpl; auto; try lia.
Qed.

(** Writing the one-element list into a column of such a frame. *)
Lemma setitem_list_single (cols : list string) (df : DataFrame)
      (c : string) (i : nat) (v : cell) :
  at_most_one_row cols df ->
  index_of c cols = Some i ->
  exists r',
    setitem_list df c [v] = Ok {| columns := cols; rows := [r'] |}
    /\ length r' = length cols
    /\ nth i r' NaN = v
    /\ forall r j, rows df = [r] -> j <> i -> nth j r' NaN = nth j r NaN.
Proof.
  intros [Hcols Hrows] Hi. destruct (index_of_some _ _ Hi) as [_ Hlt].
  unfold setitem_list, assign_values.
  destruct Hrows as [Hnil|[r [Hr Hlen]]].
  - rewrite Hnil. simpl columns. rewrite Hcols, Hi. simpl.
    eexists. split; [reflexivity|]. split; [|split].
    + now rewrite length_set_nth, length_map.
    + apply nth_set_nth_same. now rewrite length_map.
    + intros r j H. discriminate.
  - rewrite Hr. simpl. rewrite Hcols, Hi.
    eexists. split; [reflexivity|]. split; [|split].
    + now rewrite length_set_nth.
    + apply nth_set_nth_same. lia.
    + intros r0 j H Hne. injection H as <-. apply nth_set_nth_other. auto.
Qed.

Lemma fold_setitem_Raise (cs : list string) (v : list cell) (e : exn) :
  fold_left (fun acc column => df <- acc ;; setitem_list df column v) cs (Raise e)
  = Raise e.
Proof. induction cs as [|c cs IH]; simpl; [reflexivity|exact IH]. Qed.

(** The loop of lines 177-178: it never raises on a frame without rows, keeps
    the column labels, and leaves ["None"] in every column it wrote. *)
Lemma fold_setitem_none (cols : list string) (v : cell) (cs : list string) :
  forall df,
    at_most_one_row cols df ->
    (forall c, In c cs -> In c cols) ->
    exists df',
      fold_left (fun acc column => df <- acc ;; setitem_list df column [v])
                cs (Ok df) = Ok df'
      /\ at_most_one_row cols df'
      /\ (cs = [] -> df' = df)
      /\ forall c0 i0,
          index_of c0 cols = Some i0 ->
          In c0 cs \/ (exists r, rows df = [r] /\ nth i0 r NaN = v) ->
          exists r, rows df' = [r] /\ nth i0 r NaN = v.
Proof.
  induction cs as [|c cs IH]; intros df Hdf Hin.
  - exists df. split; [reflexivity|]. split; [exact Hdf|]. split; [reflexivity|].
    intros c0 i0 _ [[]|H]. exact H.
  - assert (Hc : In c cols) by (apply Hin; now left).
    apply index_of_In in Hc as [i Hi].
    destruct (@setitem_list_single cols df c i v Hdf Hi)
      as [r1 [Hset [Hlen [Hnth Hother]]]].
    cbn [fold_left bind]. rewrite Hset.
    destruct (IH {| columns := cols; rows := [r1] |}) as [df' [Hfold [Hdf' [_ Hlab]]]].
    { split; [reflexivity|]. right. now exists r1. }
    { intros c' Hc'. apply Hin. now right. }
    exists df'. split; [exact Hfold|]. split; [exact Hdf'|].
    split; [discriminate|].
    intros c0 i0 Hi0 Hor. apply (Hlab c0 i0 Hi0).
    destruct (Nat.eq_dec i0 i) as [->|Hne].
    + right. exists r1. auto.
    + destruct Hor as [[->|Hcs]|[r [Hr Hv]]].
      * rewrite Hi in Hi0. injection Hi0 as <-. congruence.
      * now left.
      * right. exists r1. split; [reflexivity|].
        rewrite (Hother r i0 Hr Hne). exact Hv.
Qed.

(** X11.  A feature table without data rows never yields a result: the
    sentinel row the adapter builds carries the label ["None"], which does
    not split in two, so the mirroring loop raises [ValueError]; and when
    the table has no [interface] column the loop raises [AttributeError]. *)
Theorem run_and_summarise_pi_score_no_rows
        (features : DataFrame) (pi_score_file : option score_file)
        (interface_name : string) :
  shape0 features = 0%nat ->
  (In "interface" (columns features) ->
   run_and_summarise_pi_score (FeatureTable features pi_score_file) interface_name
   = Raise ValueError)
  /\ (~ In "interface" (columns features) ->
      run_and_summarise_pi_score (FeatureTable features pi_score_file) interface_name
      = Raise AttributeError).
Proof.
  intros Hshape. unfold run_and_summarise_pi_score. simpl bind. rewrite Hshape.
  cbn [Nat.eqb].
  assert (Hdf : at_most_one_row (columns features) features).
  { split; [reflexivity|]. left. unfold shape0 in Hshape.
    now destruct (rows features). }
  destruct (@fold_setitem_none (columns features) (Str "None") (columns features)
              features Hdf (fun c H => H))
    as [df' [Hfold [[Hcols Hrows] [_ Hlab]]]].
  rewrite Hfold. simpl bind. split.
  - intros Hin. apply index_of_In in Hin as [i0 Hi0].
    destruct (Hlab "interface" i0 Hi0) as [r [Hr Hnone]].
    { left. now apply index_of_In; exists i0. }
    destruct (index_of_some _ _ Hi0) as [Hname Hlt].
    assert (Hlen : length r = length (columns features)).
    { destruct Hrows as [Hnil|[r' [Hr' Hlen]]]; [congruence|].
      rewrite Hr in Hr'. now injection Hr' as <-. }
    unfold setitem_scalar, mirror_interfaces, getattr, column_values.
    rewrite Hcols.
    destruct (index_of "pi_score" (columns features)) as [j|] eqn:Ej;
      cbn [columns rows]; rewrite Hr.
    + rewrite Hi0. cbn [map mirror_loop].
      assert (Hne : j <> i0).
      { intros ->. destruct (index_of_some _ _ Ej) as [Hj _].
        rewrite Hname in Hj. discriminate. }
      rewrite (nth_set_nth_other _ _ _ Hne), Hnone. reflexivity.
    + rewrite index_of_app_l with (i := i0) by exact Hi0. cbn [map mirror_loop].
      rewrite app_nth1 by lia. rewrite Hnone. reflexivity.
  - intros Hnot.
    assert (Hi0 : index_of "interface" (columns features) = None).
    { destruct (index_of "interface" (columns features)) as [i|] eqn:E;
        [|reflexivity].
      exfalso. apply Hnot. apply index_of_In. now exists i. }
    unfold setitem_scalar, mirror_interfaces, getattr, column_values.
    rewrite Hcols.
    destruct (index_of "pi_score" (columns features)) as [j|] eqn:Ej;
      cbn [columns rows].
    + rewrite Hi0. reflexivity.
    + rewrite index_of_app_other; [reflexivity|exact Hi0|discriminate].
Qed.

Lemma run_and_summarise_pi_score_no_rows_witness :
  shape0 {| columns := ["pdb"; "interface"; "Num_intf_residues"]; rows := [] |}
  = 0%nat
  /\ run_and_summarise_pi_score
       (FeatureTable {| columns := ["pdb"; "interface"; "Num_intf_residues"];
                        rows := [] |}
                     (Some (ScoreTable example_scores))) "A_B"
     = Raise ValueError.
Proof.
  split; [reflexivity|].
  refine (proj1 (@run_and_summarise_pi_score_no_rows
                   {| columns := ["pdb"; "interface"; "Num_intf_residues"];
                      rows := [] |}
                   (Some (ScoreTable example_scores)) "A_B" eq_refl) _).
  simpl. auto.
Defined.

(** ** 4.5 After the join *)

Lemma has_column_In (cols : list string) (c : string) :
  has_column cols c = true <-> In c cols.
Proof.
  unfold has_column. rewrite existsb_exists. split.
  - intros [x [Hx E]]. apply String.eqb_eq in E. now subst.
  - intros H. exists c. split; [exact H|apply String.eqb_refl].
Qed.

Lemma prune_with_In (keepfn : string -> bool) (cols : list string) (c : string) :
  In c (prune_with (map keepfn cols) cols) -> keepfn c = true.
Proof.
  unfold prune_with. induction cols as [|x cols IH]; simpl; [tauto|].
  destruct (keepfn x) eqn:E; simpl; [|exact IH].
  intros [<-|H]; [exact E|now apply IH].
Qed.

Lemma mirror_step_appends (df df' : DataFrame) (interface : cell) :
  mirror_step df interface = Ok df' ->
  columns df' = columns df /\ exists extra, rows df' = rows df ++ extra.
Proof.
  destruct interface as [label| |]; try discriminate.
  destruct (index_of "interface" (columns df)) as [i|] eqn:Hi.
  - rewrite (mirror_step_eq _ _ Hi).
    destruct (str_split underscore label) as [|a [|b [|c rest]]]; try discriminate.
    intros H. injection H as <-. split; [reflexivity|]. eexists. reflexivity.
  - unfold mirror_step, getitem, column_values. rewrite Hi.
    destruct (str_split underscore label) as [|a [|b [|c rest]]]; discriminate.
Qed.

(** The mirroring loop only appends rows, also when it stops on an error. *)
Lemma mirror_loop_appends (labels : list cell) :
  forall df df' e,
    mirror_loop df labels = (df', e) ->
    columns df' = columns df /\ exists extra, rows df' = rows df ++ extra.
Proof.
  induction labels as [|l labels IH]; intros df df' e H; cbn [mirror_loop] in H.
  - injection H as <- _. split; [reflexivity|]. exists []. now rewrite app_nil_r.
  - destruct (mirror_step df l) as [df1|e1] eqn:E1.
    + destruct (mirror_step_appends _ _ E1) as [Hc1 [x1 Hr1]].
      destruct (IH _ _ _ H) as [Hc [x Hr]].
      split; [congruence|]. exists (x1 ++ x). now rewrite Hr, Hr1, app_assoc.
    + injection H as <- _. split; [reflexivity|]. exists []. now rewrite app_nil_r.
Qed.

(** X12.  Once the feature and score tables are joined the adapter always
    returns a table.  If the joined table lacks one of the five bookkeeping
    columns it is returned unchanged.  Otherwise none of the five columns
    is left in the result, whose rows are those of the joined table without
    these columns, in order, followed by the rows the mirroring adds. *)
Theorem run_and_summarise_pi_score_after_join
        (features merged : DataFrame) (pi_score_file : option score_file)
        (interface_name : string) :
  shape0 features <> 0%nat ->
  merge_feature_and_score_tables features (Bound pi_score_file) = Ok merged ->
  exists table,
    run_and_summarise_pi_score (FeatureTable features pi_score_file) interface_name
    = Ok table
    /\ (forallb (has_column (columns merged)) bookkeeping_columns = false ->
        table = merged)
    /\ (forallb (has_column (columns merged)) bookkeeping_columns = true ->
        (forall c, In c bookkeeping_columns -> ~ In c (columns table))
        /\ exists dropped extra,
            drop merged bookkeeping_columns = Ok dropped
            /\ columns table = columns dropped
            /\ rows table = rows dropped ++ extra).
Proof.
  intros Hrows Hmerged. unfold run_and_summarise_pi_score. simpl bind.
  destruct (shape0 features =? 0)%nat eqn:E0; [apply Nat.eqb_eq in E0; contradiction|].
  rewrite Hmerged. simpl bind. unfold drop.
  destruct (forallb (has_column (columns merged)) bookkeeping_columns) eqn:Eall.
  - eexists. split; [reflexivity|]. split; [discriminate|]. intros _.
    set (dropped := {| columns := _; rows := _ |}).
    destruct (mirror_interfaces dropped) as [table e] eqn:Em. cbn [fst].
    assert (Happ : columns table = columns dropped
                   /\ exists extra, rows table = rows dropped ++ extra).
    { unfold mirror_interfaces in Em.
      destruct (getattr dropped "interface") as [labels|e'].
      - exact (mirror_loop_appends _ _ Em).
      - injection Em as <- _. split; [reflexivity|]. exists [].
        now rewrite app_nil_r. }
    destruct Happ as [Hc [extra Hr]]. split.
    + intros c Hc1 Hc2. rewrite Hc in Hc2. subst dropped. cbn [columns] in Hc2.
      apply prune_with_In in Hc2. apply negb_true_iff in Hc2.
      apply has_column_In in Hc1. congruence.
    + exists dropped, extra. auto.
  - eexists. split; [reflexivity|]. split; [reflexivity|discriminate].
Qed.

Lemma run_and_summarise_pi_score_after_join_witness :
  shape0 example_features <> 0%nat
  /\ exists merged table,
      merge_feature_and_score_tables example_features
        (Bound (Some (ScoreTable example_scores))) = Ok merged
      /\ run_and_summarise_pi_score
           (FeatureTable example_features (Some (ScoreTable example_scores))) "A_B"
         = Ok table
      /\ table = merged.
Proof.
  split; [discriminate|].
  destruct (merge_feature_and_score_tables example_features
              (Bound (Some (ScoreTable example_scores)))) as [merged|e] eqn:Em;
    [|vm_compute in Em; discriminate].
  destruct (@run_and_summarise_pi_score_after_join
              example_features merged (Some (ScoreTable example_scores)) "A_B")
    as [table [Ht [Hsame _]]]; [discriminate|exact Em|].
  exists merged, table. split; [reflexivity|]. split; [exact Ht|].
  apply Hsame. vm_compute in Em. injection Em as <-. reflexivity.
Defined.

(** ** 4.5 Labels *)

(** X13.  Writing a label and splitting it are inverse to each other on
    identifiers without underscore: the label built from [a] and [b] splits
    into [a] and [b], and it is the only string that does. *)
Theorem interface_label_round_trip (a b : string) :
  contains underscore a = false ->
  contains underscore b = false ->
  str_split underscore (interface_label a b) = [a; b]
  /\ forall label,
      str_split underscore label = [a; b] <-> label = interface_label a b.
Proof.
  intros Ha Hb.
  assert (H : str_split underscore (interface_label a b) = [a; b]).
  { unfold interface_label. rewrite str_split_append by exact Ha.
    now rewrite str_split_single by exact Hb. }
  split; [exact H|]. intros label. split.
  - intros Hs. now apply str_split_two.
  - intros ->. exact H.
Qed.

Lemma interface_label_round_trip_witness :
  contains underscore "A" = false
  /\ contains underscore "B" = false
  /\ str_split underscore (interface_label "A" "B") = ["A"; "B"].
Proof.
  split; [reflexivity|]. split; [reflexivity|].
  exact (proj1 (@interface_label_round_trip "A" "B" eq_refl eq_refl)).
Defined.

(** ** 4.6 Records and aborts of the orchestrator *)

Lemma merge_left_keeps_rows (left right merged : DataFrame) (key : string) :
  merge Left left right key = Ok merged ->
  (length (rows left) <= length (rows merged))%nat.
Proof.
  unfold merge.
  destruct (index_of key (columns left)) as [il|]; [|discriminate].
  destruct (index_of key (columns right)) as [ir|]; [|discriminate].
  intros H. injection H as <-. simpl rows.
  induction (rows left) as [|l ls IH]; simpl; [lia|].
  rewrite length_app.
  destruct (filter (fun r => cell_eqb (nth il l NaN) (nth ir r NaN)) (rows right));
    simpl; lia.
Qed.

Lemma merge_Ok_right_key (how : join) (left right merged : DataFrame) (key : string) :
  merge how left right key = Ok merged ->
  exists ir, index_of key (columns right) = Some ir.
Proof.
  unfold merge.
  destruct (index_of key (columns left)); [|discriminate].
  destruct (index_of key (columns right)) as [ir|]; [|discriminate].
  intros _. now exists ir.
Qed.

Section OrchestratorRecords.

Context {SI : SetIteration}.
Variable sfxn : structure -> Q.
Variable piscore_tool : nat -> work_dir_state.
Variable self : PDBAnalyser.
Variable pae_mtx : ndarray2.
Variable plddt : list (string * list Q).
Variable cutoff : Q.

(** One round appends the record of its pair. *)
Lemma pair_step_record (st st' : loop_state) (kv : string * (string * string)) :
  pair_step sfxn piscore_tool self pae_mtx plddt cutoff st kv = Ok st' ->
  exists record,
    pair_record sfxn self pae_mtx plddt cutoff kv record
    /\ output_df st'
       = concat (output_df st)
                {| columns := measurement_columns; rows := [record] |}.
Proof.
  destruct kv as [k [chain_1_id chain_2_id]].
  unfold pair_step. cbn [snd]. intros H.
  apply bind_Ok in H as [fragment [_ H]].
  apply bind_Ok in H as [p1 [Hp1 H]].
  apply bind_Ok in H as [p2 [Hp2 H]].
  apply bind_Ok in H as [[[pae pl] be] [Hmeasured H]].
  apply bind_Ok in H as [other [Hother H]].
  injection H as <-. cbn [output_df].
  injection Hother as <-.
  exists [pae; pl; be; Str (interface_label chain_1_id chain_2_id)].
  split; [|reflexivity].
  exists p1, p2, pae, pl, be. cbn [fst snd]. now repeat split.
Qed.

(** [pd.concat] of the records so far and one more record. *)
Lemma concat_record (df : DataFrame) (a b c d : cell) :
  df = empty_frame \/ columns df = measurement_columns ->
  concat df {| columns := measurement_columns; rows := [[a; b; c; d]] |}
  = {| columns := measurement_columns; rows := rows df ++ [[a; b; c; d]] |}.
Proof.
  intros [->|Hcols].
  - reflexivity.
  - destruct df as [cols rws]. simpl in Hcols. subst cols.
    unfold concat. cbn [columns rows].
    destruct (list_eq_dec string_dec measurement_columns measurement_columns)
      as [_|Hne]; [reflexivity|now elim Hne].
Qed.

(** The records the loop leaves: one per pair, in the order of the pairs. *)
Lemma pair_loop_records (pairs : list (string * (string * string))) :
  forall st st',
    pair_loop sfxn piscore_tool self pae_mtx plddt cutoff pairs st = Ok st' ->
    output_df st = empty_frame \/ columns (output_df st) = measurement_columns ->
    exists records,
      Forall2 (pair_record sfxn self pae_mtx plddt cutoff) pairs records
      /\ rows (output_df st') = rows (output_df st) ++ records
      /\ (pairs <> [] -> columns (output_df st') = measurement_columns).
Proof.
  induction pairs as [|kv pairs IH]; intros st st' H Hst.
  - injection H as <-. exists []. split; [constructor|].
    split; [now rewrite app_nil_r|congruence].
  - rewrite pair_loop_cons in H. apply bind_Ok in H as [st1 [H1 H]].
    apply pair_step_record in H1 as [record [Hrecord Hout]].
    assert (Hshape : exists a b c d, record = [a; b; c; d]).
    { destruct Hrecord as [? [? [a [b [c [? [? [? ->]]]]]]]]. now eauto. }
    destruct Hshape as [a [b [c [d ->]]]].
    rewrite (concat_record a b c d Hst) in Hout.
    destruct (IH st1 st' H) as [records [Hrecords [Hrows _]]].
    { right. now rewrite Hout. }
    exists ([a; b; c; d] :: records). split; [now constructor|].
    split.
    + rewrite Hrows, Hout. cbn [rows]. now rewrite <- app_assoc.
    + intros _. destruct pairs as [|kv' pairs'].
      * injection H as <-. now rewrite Hout.
      * destruct (IH st1 st' H) as [_ [_ [_ Hcols]]].
        { right. now rewrite Hout. }
        apply Hcols. discriminate.
Qed.

(** X14.  The table [__call__] returns is the left join, on the interface
    label, of the per-pair records with the quality fragment of the run made
    for the last pair: the records have the four measurement columns and
    hold, in the order of the pairs, the measurements and the label of each
    pair.  The table never has fewer records than pairs, and it has exactly
    one record per pair when no label comes twice in that fragment. *)
Theorem call_one_record_per_pair
        (pairs : list (string * (string * string)))
        (k chain_1_id chain_2_id : string) (table : DataFrame) :
  chain_combinations self = ChainPairs (pairs ++ [(k, (chain_1_id, chain_2_id))]) ->
  __call__ sfxn piscore_tool self pae_mtx plddt cutoff = Ok table ->
  exists records fragment,
    calculate_pi_score piscore_tool (length pairs)
                       (interface_label chain_1_id chain_2_id) = Ok fragment
    /\ columns records = measurement_columns
    /\ Forall2 (pair_record sfxn self pae_mtx plddt cutoff)
               (pairs ++ [(k, (chain_1_id, chain_2_id))]) (rows records)
    /\ merge Left records fragment "interface" = Ok table
    /\ (S (length pairs) <= length (rows table))%nat
    /\ (distinct_labels fragment -> length (rows table) = S (length pairs)).
Proof.
  intros Hpairs Hcall.
  unfold __call__ in Hcall. rewrite Hpairs in Hcall.
  apply bind_Ok in Hcall as [st [Hloop Hcall]].
  destruct (pair_loop_records _ _ Hloop (or_introl eq_refl))
    as [records [Hrecords [Hrows Hcols]]].
  cbn [output_df empty_frame rows app] in Hrows.
  pose proof Hloop as Hlast. rewrite pair_loop_snoc in Hlast.
  apply bind_Ok in Hlast as [st0 [Hst0 Hstep]].
  apply pair_loop_counts in Hst0 as [Hruns _]. simpl in Hruns.
  apply pair_step_Ok in Hstep as [_ [_ [fragment [Hfrag Hbound]]]].
  rewrite Hruns in Hfrag. rewrite Hbound in Hcall. simpl in Hcall.
  assert (Hlen : length (rows (output_df st)) = S (length pairs)).
  { rewrite Hrows, <- (Forall2_length Hrecords), length_app. simpl. lia. }
  exists (output_df st), fragment.
  split; [exact Hfrag|]. split; [apply Hcols; now destruct pairs|].
  split; [now rewrite Hrows|]. split; [exact Hcall|]. split.
  - rewrite <- Hlen. exact (merge_left_keeps_rows _ _ _ Hcall).
  - intros Hdistinct. rewrite <- Hlen.
    destruct (merge_Ok_right_key _ _ _ _ Hcall) as [ir Hir].
    apply (merge_left_one_row_each _ _ _ Hcall Hir).
    intros c. now apply Hdistinct.
Qed.

Lemma pair_loop_app (pre post : list (string * (string * string)))
      (st : loop_state) :
  pair_loop sfxn piscore_tool self pae_mtx plddt cutoff (pre ++ post) st
  = (st' <- pair_loop sfxn piscore_tool self pae_mtx plddt cutoff pre st ;;
     pair_loop sfxn piscore_tool self pae_mtx plddt cutoff post st').
Proof.
  unfold pair_loop. rewrite fold_left_app.
  destruct (fold_left _ pre (Ok st)) as [st'|e]; simpl; [reflexivity|].
  apply fold_left_Raise.
Qed.

(** A round that cannot succeed stops the loop. *)
Lemma pair_loop_aborts (pre post : list (string * (string * string)))
      (kv : string * (string * string)) (st : loop_state) :
  (forall st', tool_runs st' = (tool_runs st + length pre)%nat ->
               raises (pair_step sfxn piscore_tool self pae_mtx plddt cutoff st' kv)) ->
  raises (pair_loop sfxn piscore_tool self pae_mtx plddt cutoff
                    (pre ++ kv :: post) st).
Proof.
  intros Hstep. rewrite pair_loop_app.
  destruct (pair_loop sfxn piscore_tool self pae_mtx plddt cutoff pre st)
    as [st'|e] eqn:Epre; simpl; [|now exists e].
  apply pair_loop_counts in Epre as [Hruns _].
  rewrite pair_loop_cons.
  destruct (Hstep st' Hruns) as [e He]. rewrite He. now exists e.
Qed.

(** X15.  One failed run of the scoring tool aborts the whole analysis: if
    the run made for some pair leaves no feature table, [__call__] raises
    and returns no table, and when that pair is the first one the exception
    is the [TypeError] of the sentinel branch. *)
Theorem call_aborts_on_failed_run
        (d : list (string * (string * string))) (n : nat) :
  chain_combinations self = ChainPairs d ->
  (n < length d)%nat ->
  failed_run piscore_tool n ->
  raises (__call__ sfxn piscore_tool self pae_mtx plddt cutoff)
  /\ (n = 0%nat ->
      __call__ sfxn piscore_tool self pae_mtx plddt cutoff = Raise TypeError).
Proof.
  intros Hd Hn Hfail.
  assert (Hrun : forall label,
             calculate_pi_score piscore_tool n label = Raise TypeError).
  { intros label. unfold calculate_pi_score. cbv zeta.
    destruct Hfail as [->|[f ->]]; reflexivity. }
  assert (Hstep : forall st kv,
             tool_runs st = n ->
             pair_step sfxn piscore_tool self pae_mtx plddt cutoff st kv
             = Raise TypeError).
  { intros st [k [c1 c2]] Hst. unfold pair_step. cbn [snd].
    rewrite Hst, Hrun. reflexivity. }
  unfold __call__. rewrite Hd. split.
  - destruct (nth_split d (EmptyString, (EmptyString, EmptyString)) Hn)
      as [pre [post [Hsplit Hlen]]].
    rewrite Hsplit.
    destruct (@pair_loop_aborts pre post
                (nth n d (EmptyString, (EmptyString, EmptyString)))
                {| output_df := empty_frame; pi_score_df := Unbound; tool_runs := 0 |})
      as [e He].
    + intros st' Hst'. exists TypeError. apply Hstep. simpl in Hst'. lia.
    + rewrite He. now exists e.
  - intros ->. destruct d as [|kv d']; [simpl in Hn; lia|].
    rewrite pair_loop_cons. rewrite Hstep by reflexivity. reflexivity.
Qed.

(** X16.  The confidence mapping must know every chain of every pair: a
    pair with a chain that has no entry in [plddt] makes [__call__] raise,
    whatever the tool and the oracle return. *)
Theorem call_aborts_on_missing_confidence
        (d : list (string * (string * string))) (k chain_1_id chain_2_id : string) :
  chain_combinations self = ChainPairs d ->
  In (k, (chain_1_id, chain_2_id)) d ->
  ~ In chain_1_id (map fst plddt) \/ ~ In chain_2_id (map fst plddt) ->
  raises (__call__ sfxn piscore_tool self pae_mtx plddt cutoff).
Proof.
  intros Hd Hin Hmiss. unfold __call__. rewrite Hd.
  apply in_split in Hin as [pre [post ->]].
  destruct (@pair_loop_aborts pre post (k, (chain_1_id, chain_2_id))
              {| output_df := empty_frame; pi_score_df := Unbound; tool_runs := 0 |})
    as [e He].
  - intros st' _. unfold pair_step. cbn [snd].
    destruct (calculate_pi_score piscore_tool (tool_runs st')
                (interface_label chain_1_id chain_2_id)) as [pi|e];
      simpl; [|now exists e].
    destruct (dict_get plddt chain_1_id) as [p1|e] eqn:E1; simpl; [|now exists e].
    destruct (dict_get plddt chain_2_id) as [p2|e] eqn:E2; simpl; [|now exists e].
    exfalso. destruct Hmiss as [H|H]; apply H; apply dict_get_In; eauto.
  - rewrite He. now exists e.
Qed.

End OrchestratorRecords.

Lemma call_one_record_per_pair_witness :
  chain_combinations example_analyser
  = ChainPairs ([("interface_1", ("A", "B")); ("interface_2", ("A", "C"))]
                ++ [("interface_3", ("B", "C"))])
  /\ exists table,
      __call__ atom_count flaky_tool example_analyser
               [[1; 2]; [4; 1]] [("A", [90]); ("B", [80]); ("C", [70])] 12
      = Ok table
      /\ length (rows table) = 3%nat.
Proof.
  split; [reflexivity|].
  destruct (__call__ atom_count flaky_tool example_analyser
                     [[1; 2]; [4; 1]] [("A", [90]); ("B", [80]); ("C", [70])] 12)
    as [table|e] eqn:Hcall; [|vm_compute in Hcall; discriminate].
  exists table. split; [reflexivity|].
  destruct (@call_one_record_per_pair
              ascending_iteration atom_count flaky_tool example_analyser
              [[1; 2]; [4; 1]] [("A", [90]); ("B", [80]); ("C", [70])] 12
              [("interface_1", ("A", "B")); ("interface_2", ("A", "C"))]
              "interface_3" "B" "C" table eq_refl Hcall)
    as [records [fragment [Hfrag [_ [_ [_ [_ Hone]]]]]]].
  apply Hone. vm_compute in Hfrag. injection Hfrag as <-.
  intros ir c Hir. vm_compute in Hir. injection Hir as <-.
  destruct c as [s| |]; [|simpl; lia|simpl; lia].
  cbn [rows filter nth cell_eqb].
  destruct (String.eqb_spec s "B_C") as [->|H1]; [simpl; lia|].
  destruct (String.eqb_spec s "C_B") as [->|H2]; simpl; lia.
Defined.

Lemma call_aborts_on_failed_run_witness :
  chain_combinations example_analyser
  = ChainPairs [("interface_1", ("A", "B")); ("interface_2", ("A", "C"));
                ("interface_3", ("B", "C"))]
  /\ (1 < 3)%nat
  /\ failed_run failing_tool 1
  /\ raises (__call__ atom_count failing_tool example_analyser
                      [[1; 2]; [4; 1]] [("A", [90]); ("B", [80]); ("C", [70])] 12).
Proof.
  split; [reflexivity|]. split; [lia|]. split; [now left|].
  refine (proj1 (@call_aborts_on_failed_run
                   ascending_iteration atom_count failing_tool example_analyser
                   [[1; 2]; [4; 1]] [("A", [90]); ("B", [80]); ("C", [70])] 12
                   _ 1%nat eq_refl _ _)).
  - simpl. lia.
  - now left.
Defined.

Lemma call_aborts_on_missing_confidence_witness :
  In ("interface_2", ("A", "C"))
     [("interface_1", ("A", "B")); ("interface_2", ("A", "C"));
      ("interface_3", ("B", "C"))]
  /\ ~ In "C" (map fst [("A", [90]); ("B", [80])])
  /\ raises (__call__ atom_count flaky_tool example_analyser
                      [[1; 2]; [4; 1]] [("A", [90]); ("B", [80])] 12).
Proof.
  assert (Hc : ~ In "C" (map fst [("A", [90]); ("B", [80])])).
  { simpl. intros [H|[H|[]]]; discriminate H. }
  split; [right; now left|]. split; [exact Hc|].
  refine (@call_aborts_on_missing_confidence
            ascending_iteration atom_count flaky_tool example_analyser
            [[1; 2]; [4; 1]] [("A", [90]); ("B", [80])] 12
            _ "interface_2" "A" "C" eq_refl _ _).
  - right. now left.
  - right. exact Hc.
Defined.
